(** * segments-ai export core: a shallow embedding and its verified properties

    The development follows [src/segments/export.py] and
    [src/segments/utils.py]:

    - the id/colour codec [rgb2id] / [id2rgb];
    - the colour allocator [IdGenerator];
    - the raster helpers [bitmap2file], [extract_bitmap],
      [get_semantic_bitmap] and [colorize];
    - the format emitters and the dispatcher [export_dataset].

    Python integers are unbounded and are modelled by [Z]; NumPy integers are
    modelled by [Z] together with the wrap-around of their dtype; Python
    floats are IEEE 754 binary64 numbers with the operations of the Standard
    Library's [SpecFloat].  Exceptions are values of [exn] carried by
    [result]. *)

From Stdlib Require Import ZArith QArith Qabs Lia SpecFloat.
From stdpp Require Import base gmap strings list sorting pretty.

Open Scope Z_scope.

#[local] Set Warnings "-clear-no-such-hyp".

(** ** Python outcomes *)

Inductive exn : Type :=
| ValueError (msg : string)
| KeyError
| IndexError
| TypeError
| AttributeError
| AssertionError
| ValidationError
| ZeroDivisionError.

(** [Spinning] is the outcome of a [while True] loop that has consumed every
    random draw it was given without reaching its [return]. *)
Inductive result (A : Type) : Type :=
| Ok (a : A)
| Raise (e : exn)
| Spinning.

Arguments Ok {A} a.
Arguments Raise {A} e.
Arguments Spinning {A}.

Definition rbind {A B : Type} (r : result A) (k : A → result B) : result B :=
  match r with
  | Ok a => k a
  | Raise e => Raise e
  | Spinning => Spinning
  end.

#[global] Instance result_bind : MBind result := λ A B k r, rbind r k.
#[global] Instance result_ret : MRet result := @Ok.

(** [l[i]] for a Python list or one axis of an array, index [i >= 0]. *)
Definition getitem {A : Type} (l : list A) (i : nat) : result A :=
  match l !! i with
  | Some a => Ok a
  | None => Raise IndexError
  end.

(** [[f(x) for x in l]] where [f] may raise. *)
Fixpoint traverse {A B : Type} (f : A → result B) (l : list A) : result (list B) :=
  match l with
  | [] => Ok []
  | a :: l' => b ← f a ; bs ← traverse f l' ; Ok (b :: bs)
  end.

(** ** NumPy arrays *)

Inductive dtype : Type := UInt8 | Int32 | UInt32 | Int64.

#[global] Instance dtype_eq_dec : EqDecision dtype.
Proof. solve_decision. Defined.

(** Two's complement wrap-around of an exact integer into a dtype. *)
Definition wrap_unsigned (w : Z) (z : Z) : Z := z mod 2 ^ w.
Definition wrap_signed (w : Z) (z : Z) : Z :=
  (z + 2 ^ (w - 1)) mod 2 ^ w - 2 ^ (w - 1).

Definition cast (dt : dtype) (z : Z) : Z :=
  match dt with
  | UInt8 => wrap_unsigned 8 z
  | Int32 => wrap_signed 32 z
  | UInt32 => wrap_unsigned 32 z
  | Int64 => wrap_signed 64 z
  end.

(** An [n]-dimensional array as [n] nested lists; axis 0 is the outermost
    list.  Arrays are rectangular. *)
Fixpoint tensor (n : nat) : Type :=
  match n with
  | O => Z
  | S k => list (tensor k)
  end.

Record ndarray : Type := NdArray {
  nd_dtype : dtype;
  nd_ndim : nat;
  nd_data : tensor nd_ndim
}.

Fixpoint tensor_map (f : Z → Z) (n : nat) : tensor n → tensor n :=
  match n with
  | O => λ z, f z
  | S k => λ l, map (tensor_map f k) l
  end.

(** All the entries of an array, in C order ([a.flat]). *)
Fixpoint tensor_flat (n : nat) : tensor n → list Z :=
  match n with
  | O => λ z, [z]
  | S k => λ l, concat (map (tensor_flat k) l)
  end.

(** Elementwise combination of three arrays of the same shape. *)
Fixpoint tensor_zip3 (f : Z → Z → Z → Z) (n : nat)
  : tensor n → tensor n → tensor n → tensor n :=
  match n with
  | O => λ a b c, f a b c
  | S k => λ a b c,
      zip_with (λ ab c', tensor_zip3 f k ab.1 ab.2 c') (zip a b) c
  end.

(** ** Id/Color codec ([export.py], [rgb2id] and [id2rgb]) *)

Definition RGB : Type := Z * Z * Z.

Definition pack (r g b : Z) : Z := r + 256 * g + 256 * 256 * b.

(** The argument of [rgb2id]: [Union[npt.NDArray[Any], RGB]]. *)
Inductive color_arg : Type :=
| ColorTuple (c : RGB)
| ColorArray (a : ndarray).

(** What [rgb2id] returns: a Python [int], or the 2-D array of ids produced
    by the array branch. *)
Inductive id_value : Type :=
| IdInt (n : Z)
| IdMap (dt : dtype) (a : list (list Z)).

(** [color[:, :, 0] + 256 * color[:, :, 1] + 256 * 256 * color[:, :, 2]] at
    one pixel, in the arithmetic of dtype [dt]. *)
Definition rgb2id_pixel (dt : dtype) (px : list Z) : result Z :=
  r ← getitem px 0 ;
  g ← getitem px 1 ;
  b ← getitem px 2 ;
  Ok (cast dt (pack r g b)).

(** dtype of [a + 256 * a + 65536 * a] for array rows [a] of dtype [dt]
    (NumPy 1.x promotion of an array with a Python int: uint8 rows give
    uint16 and uint32 products). *)
Definition promote_rows (dt : dtype) : dtype :=
  match dt with
  | UInt8 => UInt32
  | other => other
  end.

(** dtype of the same expression on NumPy scalars (entries of a 1-D array). *)
Definition promote_scalars (dt : dtype) : dtype := Int64.

(** [int(x)] on an array: only size-1 arrays convert. *)
Definition py_int (n : nat) (x : tensor n) : result Z :=
  match tensor_flat n x with
  | [v] => Ok v
  | _ => Raise TypeError
  end.

Definition rgb2id (color : color_arg) : result id_value :=
  match color with
  | ColorArray (NdArray dt 3 a) =>
      let dt' := if decide (dt = UInt8) then Int32 else dt in
      ids ← traverse (traverse (rgb2id_pixel dt')) (a : list (list (list Z))) ;
      Ok (IdMap dt' ids)
  | ColorArray (NdArray dt (S n) a) =>
      c0 ← getitem (a : list (tensor n)) 0 ;
      c1 ← getitem (a : list (tensor n)) 1 ;
      c2 ← getitem (a : list (tensor n)) 2 ;
      let dt' := match n with O => promote_scalars dt | _ => promote_rows dt end in
      v ← py_int n (tensor_zip3 (λ r g b, cast dt' (pack r g b)) n c0 c1 c2) ;
      Ok (IdInt v)
  | ColorArray (NdArray dt O a) => Raise IndexError
  | ColorTuple (r, g, b) => Ok (IdInt (pack r g b))
  end.

(** Three rounds of [% 256] and [//= 256]. *)
Fixpoint id2rgb_digits (rounds : nat) (id_map : Z) : list Z :=
  match rounds with
  | O => []
  | S k => id_map mod 256 :: id2rgb_digits k (id_map / 256)
  end.

(** The scalar branch of [id2rgb], its three iterations written out. *)
Definition id2rgb_scalar (id_map : Z) : RGB :=
  let c0 := id_map mod 256 in
  let id_map := id_map / 256 in
  let c1 := id_map mod 256 in
  let id_map := id_map / 256 in
  let c2 := id_map mod 256 in
  (c0, c1, c2).

(** The argument and the value of [id2rgb]. *)
Inductive id_arg : Type :=
| IdScalar (n : Z)
| IdArray (a : ndarray).

Inductive rgb_value : Type :=
| RgbTuple (c : RGB)
| RgbArray (a : ndarray).

(** The array branch adds a trailing axis of size 3 filled by the same three
    rounds; [rgb_map] has dtype uint8. *)
Fixpoint id2rgb_tensor (n : nat) : tensor n → tensor (S n) :=
  match n with
  | O => λ z, id2rgb_digits 3 z
  | S k => λ l, map (id2rgb_tensor k) l
  end.

Definition id2rgb (id_map : id_arg) : rgb_value :=
  match id_map with
  | IdArray (NdArray dt n a) =>
      RgbArray (NdArray UInt8 (S n) (tensor_map (cast UInt8) (S n) (id2rgb_tensor n a)))
  | IdScalar z => RgbTuple (id2rgb_scalar z)
  end.

(** ** Color allocator ([export.py], [IdGenerator]) *)

Record Category : Type := mkCategory {
  cat_id : Z;
  cat_name : string;
  cat_color : RGB;
  cat_isthing : bool
}.

(** The two attributes of an [IdGenerator] object.  Methods take the object
    and return it updated. *)
Record IdGenerator : Type := mkIdGenerator {
  taken_colors : gset RGB;
  categories : gmap Z Category
}.

(** [self.categories.values()] *)
Definition dict_values (d : gmap Z Category) : list Category := (map_to_list d).*2.

(** One iteration of the loop of [__init__]: [category.isthing == 0] holds
    for [False]. *)
Definition reserve_fixed (taken : gset RGB) (category : Category) : gset RGB :=
  if cat_isthing category then taken else taken ∪ {[ cat_color category ]}.

Definition IdGenerator_init (categories : gmap Z Category) : IdGenerator :=
  {| taken_colors := foldl reserve_fixed {[ (0, 0, 0) ]} (dict_values categories);
     categories := categories |}.

(** One call of [np.random.randint(low, high, size=3)] hands back three raw
    random integers; [randint] maps a raw integer into [[low, high)]. *)
Definition draw : Type := Z * Z * Z.

Definition randint (low high raw : Z) : Z := low + raw mod (high - low).

Definition clamp (z : Z) : Z := Z.max 0 (Z.min 255 z).

(** The inner function [random_color] of [get_color], [max_dist = 30]. *)
Definition random_color (base : RGB) (max_dist : Z) (d : draw) : RGB :=
  let '(r, g, b) := base in
  let '(d0, d1, d2) := d in
  let off := randint (- max_dist) (max_dist + 1) in
  (clamp (r + off d0), clamp (g + off d1), clamp (b + off d2)).

(** The [while True] loop of [get_color]; every iteration consumes one draw
    of the random source [rng]. *)
Fixpoint retry_color (base_color : RGB) (taken : gset RGB) (rng : list draw)
  : result (RGB * list draw) :=
  match rng with
  | [] => Spinning
  | d :: rng' =>
      let color := random_color base_color 30 d in
      if decide (color ∉ taken) then Ok (color, rng')
      else retry_color base_color taken rng'
  end.

Definition claim (self : IdGenerator) (color : RGB) : IdGenerator :=
  {| taken_colors := taken_colors self ∪ {[ color ]};
     categories := categories self |}.

Definition get_color (self : IdGenerator) (cat_id : Z) (rng : list draw)
  : result (RGB * IdGenerator * list draw) :=
  match categories self !! cat_id with
  | None => Raise KeyError
  | Some category =>
      if negb (cat_isthing category) then Ok (cat_color category, self, rng)
      else
        let base_color := cat_color category in
        if decide (base_color ∉ taken_colors self) then
          Ok (base_color, claim self base_color, rng)
        else
          '(color, rng') ← retry_color base_color (taken_colors self) rng;
          Ok (color, claim self color, rng')
  end.

Definition get_id (self : IdGenerator) (cat_id : Z) (rng : list draw)
  : result (id_value * IdGenerator * list draw) :=
  '(color, self', rng') ← get_color self cat_id rng;
  id ← rgb2id (ColorTuple color);
  Ok (id, self', rng').

Definition get_id_and_color (self : IdGenerator) (cat_id : Z) (rng : list draw)
  : result (id_value * RGB * IdGenerator * list draw) :=
  '(color, self', rng') ← get_color self cat_id rng;
  id ← rgb2id (ColorTuple color);
  Ok (id, color, self', rng').

(** A run: successive [get_color] calls on one generator, for the category
    ids [cat_ids] in order, collecting the returned colors. *)
Fixpoint get_colors (self : IdGenerator) (cat_ids : list Z) (rng : list draw)
  : result (list RGB * IdGenerator * list draw) :=
  match cat_ids with
  | [] => Ok ([], self, rng)
  | cat_id :: rest =>
      '(color, self', rng') ← get_color self cat_id rng;
      '(colors, self'', rng'') ← get_colors self' rest rng';
      Ok (color :: colors, self'', rng'')
  end.

(** The generator states one export run can be in. *)
Inductive reachable (cats : gmap Z Category) : IdGenerator → Prop :=
| reachable_init : reachable cats (IdGenerator_init cats)
| reachable_call self cat_id rng color self' rng' :
    reachable cats self →
    get_color self cat_id rng = Ok (color, self', rng') →
    reachable cats self'.

(** The built-in palette and the module-level [get_color(id)]. *)
Definition RGBA : Type := Z * Z * Z * Z.

Definition COLORMAP : list RGBA :=
  [ (0, 113, 188, 255); (216, 82, 24, 255); (236, 176, 31, 255);
    (125, 46, 141, 255); (118, 171, 47, 255); (76, 189, 237, 255);
    (161, 19, 46, 255); (255, 0, 0, 255); (255, 127, 0, 255);
    (190, 190, 0, 255); (0, 255, 0, 255); (0, 0, 255, 255);
    (170, 0, 255, 255); (84, 84, 0, 255); (84, 170, 0, 255);
    (84, 255, 0, 255); (170, 84, 0, 255); (170, 170, 0, 255);
    (170, 255, 0, 255); (255, 84, 0, 255); (255, 170, 0, 255);
    (255, 255, 0, 255); (0, 84, 127, 255); (0, 170, 127, 255);
    (0, 255, 127, 255); (84, 0, 127, 255); (84, 84, 127, 255);
    (84, 170, 127, 255); (84, 255, 127, 255); (170, 0, 127, 255);
    (170, 84, 127, 255); (170, 170, 127, 255); (170, 255, 127, 255);
    (255, 0, 127, 255); (255, 84, 127, 255); (255, 170, 127, 255) ].

Definition palette_color (id : Z) : list Z :=
  let id := id mod Z.of_nat (length COLORMAP) in
  match COLORMAP !! Z.to_nat id with
  | Some (r, g, b, _) => [r; g; b]
  | None => []
  end.

(** ** Raster helpers ([utils.py]) *)

(** A label raster: rows of pixel values. *)
Definition raster : Type := list (list Z).

(** An 8-bit multi-channel image as [Image.fromarray] receives it and as
    [np.array(image)] gives it back: rows of pixels, each pixel its list of
    channel bytes.  PNG is lossless, so the file written by [save] is
    represented by the pixel array it decodes to. *)
Definition pixels : Type := list (list (list Z)).

(** [a.view(np.uint8)] on one uint32 element: its four bytes in memory
    order (little-endian hosts). *)
Definition view_uint8 (v : Z) : list Z :=
  [ Z.land v 255;
    Z.land (Z.shiftr v 8) 255;
    Z.land (Z.shiftr v 16) 255;
    Z.land (Z.shiftr v 24) 255 ].

(** [a.view(np.uint32)] on four bytes. *)
Definition view_uint32 (b0 b1 b2 b3 : Z) : Z :=
  Z.lor b0 (Z.lor (Z.shiftl b1 8) (Z.lor (Z.shiftl b2 16) (Z.shiftl b3 24))).

(** [bitmap2file]: a uint8 bitmap is widened by [np.uint32], any dtype
    other than uint32 and uint8 fails the assertion; [bitmap2[:, :, None]]
    needs a 2-D array. *)
Definition bitmap2file (bitmap : ndarray) (is_segmentation_bitmap : bool)
  : result pixels :=
  match bitmap with
  | NdArray dt n a =>
      if decide (dt = UInt32 ∨ dt = UInt8) then
        if is_segmentation_bitmap then
          match n return tensor n → result pixels with
          | 2%nat => λ a,
              let bitmap := tensor_map (cast UInt32) 2 a in
              let bitmap2 := map (map view_uint8) bitmap in
              Ok (map (map (λ px, <[3%nat := 255]> px)) bitmap2)
          | _ => λ _, Raise IndexError
          end a
        else Raise AssertionError
      else Raise AssertionError
  end.

(** The inner function [extract_bitmap] of [load_label_bitmap_from_url] at
    one pixel: [bitmap[:, :, 3] = 0], then the four bytes read as one
    uint32.  An image with fewer than four channels has no index 3; with
    more than four the bytes do not make up one uint32 per pixel. *)
Definition extract_pixel (px : list Z) : result Z :=
  match px with
  | [b0; b1; b2; _] => Ok (view_uint32 b0 b1 b2 0)
  | [] | [_] | [_; _] | [_; _; _] => Raise IndexError
  | _ => Raise (ValueError "When changing to a larger dtype, its size must be a divisor of the total size in bytes of the last axis of the array.")
  end.

Definition extract_bitmap (bitmap : pixels) : result ndarray :=
  a ← traverse (traverse extract_pixel) bitmap;
  Ok (NdArray UInt32 2 a).

(** An entry of a sample's annotation list.  [N] is the type of the
    coordinates in [points]. *)
Record annotation (N : Type) : Type := mkAnnotation {
  ann_id : Z;
  ann_category_id : Z;
  ann_type : string;
  ann_points : list (list N)
}.

Arguments mkAnnotation {N} _ _ _ _.
Arguments ann_id {N} _.
Arguments ann_category_id {N} _.
Arguments ann_type {N} _.
Arguments ann_points {N} _.

(** [max(l, default=0)] *)
Definition max_default (l : list Z) : Z :=
  match l with
  | [] => 0
  | x :: l' => foldl Z.max x l'
  end.

(** [l[i] = v] on a Python list: a negative index counts from the end, an
    index outside [[-len, len)] raises. *)
Definition setitem (l : list Z) (i v : Z) : result (list Z) :=
  let len := Z.of_nat (length l) in
  if decide (0 ≤ i < len) then Ok (<[Z.to_nat i := v]> l)
  else if decide (- len ≤ i < 0) then Ok (<[Z.to_nat (len + i) := v]> l)
  else Raise IndexError.

(** The [for annotation in annotations] loop filling the table. *)
Fixpoint fill_table {N : Type} (instance2semantic : list Z)
    (annotations : list (annotation N)) (id_increment : Z) : result (list Z) :=
  match annotations with
  | [] => Ok instance2semantic
  | a :: rest =>
      t ← setitem instance2semantic (ann_id a) (ann_category_id a + id_increment);
      fill_table t rest id_increment
  end.

(** [table[index]] for one entry of an unsigned index array. *)
Definition index_table (table : list Z) (v : Z) : result Z :=
  getitem table (Z.to_nat v).

(** [get_semantic_bitmap]; [None] arguments and the [None] result are
    [option]'s [None].  The table holds Python integers, which [np.array]
    keeps as they are. *)
Definition get_semantic_bitmap {N : Type} (instance_bitmap : option raster)
    (annotations : option (list (annotation N))) (id_increment : Z)
  : result (option raster) :=
  match instance_bitmap, annotations with
  | None, _ | _, None => Ok None
  | Some instance_bitmap, Some annotations =>
      let instance2semantic :=
        replicate (Z.to_nat (max_default (ann_id <$> annotations) + 1)) 0 in
      instance2semantic ← fill_table instance2semantic annotations id_increment;
      semantic_label ←
        traverse (traverse (λ v, index_table instance2semantic (cast UInt32 v)))
                 instance_bitmap;
      Ok (Some semantic_label)
  end.

(** [l[i]] on a Python list with a possibly negative index. *)
Definition getitem_int {A : Type} (l : list A) (i : Z) : result A :=
  let len := Z.of_nat (length l) in
  if decide (0 ≤ i) then getitem l (Z.to_nat i)
  else if decide (- len ≤ i) then getitem l (Z.to_nat (len + i))
  else Raise IndexError.

(** [colorize] ([export.py]).  [np.unique(img)] is the sorted list of the
    distinct values of [img]. *)
Definition np_unique (img : raster) : list Z :=
  merge_sort Z.le (remove_dups (concat img)).

(** [img == id] *)
Definition mask_of (img : raster) (id : Z) : list (list bool) :=
  map (map (λ v, bool_decide (v = id))) img.

(** [image[mask] = color] on a 3-channel uint8 image: the color must
    broadcast to three channels and is stored as uint8. *)
Definition paint (image : pixels) (mask : list (list bool)) (color : list Z)
  : result pixels :=
  px ← match color with
       | [c] => Ok [cast UInt8 c; cast UInt8 c; cast UInt8 c]
       | [r; g; b] => Ok [cast UInt8 r; cast UInt8 g; cast UInt8 b]
       | _ => Raise (ValueError "shape mismatch: value array could not be broadcast to indexing result")
       end;
  Ok (zip_with (zip_with (λ old (m : bool), if m then px else old)) image mask).

(** [np.zeros((h, w, 3), np.uint8)] *)
Definition zeros3 (h w : nat) : pixels := replicate h (replicate w [0; 0; 0]).

(** [img.shape[0]] and [img.shape[1]] of a 2-D array. *)
Definition height (img : raster) : nat := length img.
Definition width (img : raster) : nat := length (default [] (head img)).

(** The [for id in indices] loop of [colorize]. *)
Fixpoint colorize_loop (img : raster) (colormap : option (list (list Z)))
    (indices : list Z) (colored_img : pixels) : result pixels :=
  match indices with
  | [] => Ok colored_img
  | id :: rest =>
      let mask := mask_of img id in
      color ← match colormap with
              | Some colormap => getitem_int colormap (id - 1)
              | None => Ok (palette_color (id - 1))
              end;
      colored_img ← paint colored_img mask color;
      colorize_loop img colormap rest colored_img
  end.

Definition colorize (img : raster) (colormap : option (list (list Z)))
  : result pixels :=
  let indices := np_unique img in
  let indices := filter (λ id, id ≠ 0) indices in
  let colored_img := zeros3 (height img) (width img) in
  colorize_loop img colormap indices colored_img.

(** The inner function [get_key_by_value] of [handle_exif_rotation]
    ([utils.py]): [dictionary.items()] is the list of the dictionary's
    entries in their order. *)
Fixpoint get_key_by_value (items : list (Z * string)) (value : string) : result Z :=
  match items with
  | [] => Raise (ValueError ("No such value " +:+ value +:+ "."))
  | (k, v) :: rest =>
      if decide (v = value) then Ok k else get_key_by_value rest value
  end.

(** ** The dataset and the outside world *)

(** A dictionary entry that may be missing, hold [None], or hold a value. *)
Inductive field (A : Type) : Type :=
| Absent
| Null
| Present (a : A).

Arguments Absent {A}.
Arguments Null {A}.
Arguments Present {A} a.

(** What the emitters read of a PIL image: [size = (width, height)]. *)
Record pil_image : Type := mkImage { im_width : Z; im_height : Z }.

(** A region of [skimage.measure.regionprops]:
    [bbox = (min_row, min_col, max_row, max_col)]. *)
Record region : Type := mkRegion {
  region_label : Z;
  region_bbox : Z * Z * Z * Z;
  region_area : Z
}.

(** A run-length encoding as [pycocotools.mask.encode] returns it. *)
Record rle : Type := mkRle { rle_size : list Z; rle_counts : string }.

(** What [Image.fromarray] is given. *)
Inductive image_data : Type :=
| Gray (a : raster)
| Color (a : pixels).

(** The libraries the emitters call and the arithmetic of JSON numbers
    ([int] or [float]); [num_truediv] is Python's [/]. *)
Class Externals : Type := {
  num : Type;
  num_of_int : Z → num;
  num_add : num → num → num;
  num_sub : num → num → num;
  num_abs : num → num;
  num_truediv : num → num → result num;
  num_format_6f : num → string;
  regionprops : raster → list region;
  mask_encode : list (list bool) → rle;
  img_as_ubyte : image_data → image_data;
  path_stem : string → string;
  path_join : string → string → string
}.

(** Modelled from the spec: the samples and the dataset-level attributes
    that [segments.dataset.SegmentsDataset] supplies (section 6). *)
Record sample `{Externals} : Type := mkSample {
  s_name : string;
  s_file_name : string;
  s_image : option pil_image;
  s_segmentation_bitmap : option raster;
  s_annotations : field (list (annotation num))
}.

Arguments mkSample {_} _ _ _ _ _.

(** An entry of [dataset.categories]; [color] and [has_instances] are
    optional keys. *)
Record dataset_category : Type := mkDatasetCategory {
  dc_id : Z;
  dc_name : string;
  dc_color : option (list Z);
  dc_has_instances : option bool
}.

(** Modelled from the spec: see [sample]. *)
Record SegmentsDataset `{Externals} : Type := mkDataset {
  ds_samples : list sample;
  ds_categories : list dataset_category;
  ds_task_type : string;
  ds_labelset : string;
  ds_image_dir : string;
  ds_dataset_identifier : string;
  ds_release_name : string;
  ds_release_dataset_name : string
}.

Arguments mkDataset {_} _ _ _ _ _ _ _ _.

(** Entries of the COCO documents. *)
Record coco_image : Type := mkCocoImage {
  ci_id : Z;
  ci_file_name : string;
  ci_height : option Z;
  ci_width : option Z
}.

Record coco_annotation `{Externals} : Type := mkCocoAnnotation {
  ca_id : Z;
  ca_image_id : Z;
  ca_category_id : Z;
  ca_bbox : list num;
  ca_segmentation : option rle;
  ca_area : option Z;
  ca_iscrowd : option Z
}.

Arguments mkCocoAnnotation {_} _ _ _ _ _ _ _.

Record segment_info : Type := mkSegmentInfo {
  si_id : id_value;
  si_category_id : Z;
  si_bbox : list Z;
  si_area : Z;
  si_iscrowd : Z
}.

Record panoptic_annotation : Type := mkPanopticAnnotation {
  pa_segments_info : list segment_info;
  pa_file_name : string;
  pa_image_id : Z
}.

(** The category dictionaries [export_image] builds. *)
Record image_category : Type := mkImageCategory {
  ic_id : Z;
  ic_name : string;
  ic_color : list Z;
  ic_isthing : Z
}.

Record coco_info : Type := mkInfo { info_description : string; info_version : string }.

(** What ends up in a file.  [TruncatedJson] is the text [json.dump] has
    written when it meets a value it cannot serialise: the document up to
    the opening of its [categories] list. *)
Inductive file_content `{Externals} : Type :=
| CocoInstanceJson (info : coco_info) (categories : list dataset_category)
    (images : list coco_image) (annotations : list coco_annotation)
| CocoPanopticJson (info : coco_info) (categories : list Category)
    (images : list coco_image) (annotations : list panoptic_annotation)
| TruncatedJson (info : coco_info)
| SavedBitmap (bitmap : raster)
| Png (img : image_data)
| Text (lines : list string).

(** What a run does to its surroundings, most recent event first. *)
Inductive event `{Externals} : Type :=
| Print (line : string)
| LogInfo (line : string)
| MakeDirs (path : string)
| WriteFile (path : string) (content : file_content).

Record world `{Externals} : Type := mkWorld {
  trace : list event;
  random_source : list draw
}.

Arguments mkWorld {_} _ _.

(** Computations that act on the world and may raise. *)
Definition io `{Externals} (A : Type) : Type := world → result A * world.

Section IO.
Context `{Externals}.

Definition io_ret {A : Type} (a : A) : io A := λ w, (Ok a, w).

Definition io_bind {A B : Type} (m : io A) (k : A → io B) : io B :=
  λ w, match m w with
       | (Ok a, w') => k a w'
       | (Raise e, w') => (Raise e, w')
       | (Spinning, w') => (Spinning, w')
       end.

Definition raise {A : Type} (e : exn) : io A := λ w, (Raise e, w).

Definition lift {A : Type} (r : result A) : io A := λ w, (r, w).

Definition emit (e : event) : io unit :=
  λ w, (Ok (), {| trace := e :: trace w; random_source := random_source w |}).

(** A method of the color allocator run against the random source. *)
Definition with_random {A : Type} (f : list draw → result (A * list draw)) : io A :=
  λ w, match f (random_source w) with
       | Ok (a, rng') => (Ok a, {| trace := trace w; random_source := rng' |})
       | Raise e => (Raise e, w)
       | Spinning => (Spinning, {| trace := trace w; random_source := [] |})
       end.
End IO.

#[global] Instance io_mbind `{Externals} : MBind io := λ A B k m, io_bind m k.
#[global] Instance io_mret `{Externals} : MRet io := λ A a, io_ret a.

(** ** Format emitters ([export.py]) *)

Section Emitters.
Context `{Externals}.

(** [for a in l: body], threading the variables the body assigns. *)
Fixpoint for_each {A St : Type} (body : A → St → io St) (l : list A) (st : St)
  : io St :=
  match l with
  | [] => mret st
  | a :: rest => st' ← body a st; for_each body rest st'
  end.

(** [for i in tqdm(range(len(dataset))): sample = dataset[i]; body], from
    index [i] onwards; the progress bar is left out. *)
Fixpoint for_samples {St : Type} (body : nat → sample → St → io St)
    (i : nat) (samples : list sample) (st : St) : io St :=
  match samples with
  | [] => mret st
  | s :: rest => st' ← body i s st; for_samples body (S i) rest st'
  end.

(** [np.array(sample["segmentation_bitmap"], np.uint32)] *)
Definition np_array_uint32 (bitmap : option raster) : result raster :=
  match bitmap with
  | None => Raise TypeError
  | Some a => Ok (map (map (cast UInt32)) a)
  end.

(** [np.uint8(x)] *)
Definition np_uint8 (bitmap : option raster) : result raster :=
  match bitmap with
  | None => Raise TypeError
  | Some a => Ok (map (map (cast UInt8)) a)
  end.

(** [{region.label: region for region in regions}] *)
Definition regions_dict (regions : list region) : gmap Z region :=
  foldl (λ d region, <[region_label region := region]> d) ∅ regions.

Definition image_entry (image_id : Z) (s : sample) : coco_image :=
  {| ci_id := image_id;
     ci_file_name := s_file_name s;
     ci_height := im_height <$> s_image s;
     ci_width := im_width <$> s_image s |}.

Definition skip_message (s : sample) (instance : annotation num) : string :=
  "Skipping instance with 0 labeled pixels: " +:+ s_file_name s
    +:+ ", instance_id: " +:+ pretty (ann_id instance)
    +:+ ", category_id: " +:+ pretty (ann_category_id instance).

(** *** [export_coco_instance] *)

(** The body of [for instance in sample["annotations"]]; the loop
    variables are [annotations] and [annotation_id]. *)
Definition coco_instance_annotation (task_type : string) (s : sample)
    (regions : gmap Z region) (image_id : Z) (instance : annotation num)
    (st : list coco_annotation * Z) : io (list coco_annotation * Z) :=
  let '(annotations, annotation_id) := st in
  let category_id := ann_category_id instance in
  if decide (task_type = "segmentation-bitmap"
             ∨ task_type = "segmentation-bitmap-highres") then
    match regions !! ann_id instance with
    | None => emit (LogInfo (skip_message s instance));; mret st
    | Some region =>
        bitmap ← lift (np_array_uint32 (s_segmentation_bitmap s));
        let instance_mask := mask_of bitmap (ann_id instance) in
        let '(y0, x0, y1, x1) := region_bbox region in
        let rle := mask_encode instance_mask in
        let area := region_area region in
        mret (annotations ++
                [ {| ca_id := annotation_id;
                     ca_image_id := image_id;
                     ca_category_id := category_id;
                     ca_bbox := num_of_int <$> [x0; y0; x1 - x0; y1 - y0];
                     ca_segmentation := Some rle;
                     ca_area := Some area;
                     ca_iscrowd := Some 0 |} ],
              annotation_id + 1)
    end
  else if decide (task_type = "bboxes") then
    let points := ann_points instance in
    x0 ← lift (getitem points 0 ≫= λ p, getitem p 0);
    y0 ← lift (getitem points 0 ≫= λ p, getitem p 1);
    x1 ← lift (getitem points 1 ≫= λ p, getitem p 0);
    y1 ← lift (getitem points 1 ≫= λ p, getitem p 1);
    mret (annotations ++
            [ {| ca_id := annotation_id;
                 ca_image_id := image_id;
                 ca_category_id := category_id;
                 ca_bbox := [x0; y0; num_sub x1 x0; num_sub y1 y0];
                 ca_segmentation := None;
                 ca_area := None;
                 ca_iscrowd := None |} ],
          annotation_id + 1)
  else raise AssertionError.

(** The body of the sample loop; its variables are [images],
    [annotations] and [annotation_id]. *)
Definition coco_instance_sample (task_type : string) (i : nat) (s : sample)
    (st : list coco_image * list coco_annotation * Z)
  : io (list coco_image * list coco_annotation * Z) :=
  let '(images, annotations, annotation_id) := st in
  match s_annotations s with
  | Absent => raise KeyError
  | Null => mret st
  | Present sample_annotations =>
      let image_id := Z.of_nat i + 1 in
      let images := images ++ [image_entry image_id s] in
      bitmap ← lift (np_array_uint32 (s_segmentation_bitmap s));
      let regions := regions_dict (regionprops bitmap) in
      '(annotations, annotation_id) ←
        for_each (coco_instance_annotation task_type s regions image_id)
                 sample_annotations (annotations, annotation_id);
      mret (images, annotations, annotation_id)
  end.

Definition export_coco_instance (dataset : SegmentsDataset)
    (export_folder : string) : io (string * string) :=
  emit (MakeDirs export_folder);;
  let info := {| info_description := ds_release_dataset_name dataset;
                 info_version := ds_release_name dataset |} in
  let categories := ds_categories dataset in
  let task_type := ds_task_type dataset in
  '(images, annotations, _) ←
    for_samples (coco_instance_sample task_type) 0 (ds_samples dataset)
                ([], [], 1);
  let json_data := CocoInstanceJson info categories images annotations in
  let file_name :=
    path_join export_folder
      ("export_coco-instance_" +:+ ds_dataset_identifier dataset +:+ "_"
         +:+ ds_release_name dataset +:+ ".json") in
  emit (WriteFile file_name json_data);;
  emit (LogInfo ("Exported to " +:+ file_name +:+ ". Images and labels in "
                   +:+ ds_image_dir dataset));;
  mret (file_name, ds_image_dir dataset).

(** *** [export_coco_panoptic] *)

(** [Category.parse_obj]: the color must be a triple. *)
Definition parse_category (id : Z) (name : string) (color : list Z)
    (isthing : bool) : result Category :=
  match color with
  | [r; g; b] => Ok (mkCategory id name (r, g, b) isthing)
  | _ => Raise ValidationError
  end.

(** [category["color"][:3] if "color" in category else get_color(i)] *)
Definition category_color (i : nat) (category : dataset_category) : list Z :=
  match dc_color category with
  | Some color => take 3%nat color
  | None => palette_color (Z.of_nat i)
  end.

(** [int(category["has_instances"]) if "has_instances" in category else 0] *)
Definition category_isthing (category : dataset_category) : bool :=
  default false (dc_has_instances category).

(** The [for i, category in enumerate(dataset.categories)] loop. *)
Fixpoint parse_categories (i : nat) (cats : list dataset_category)
  : result (list Category) :=
  match cats with
  | [] => Ok []
  | category :: rest =>
      c ← parse_category (dc_id category) (dc_name category)
            (category_color i category) (category_isthing category);
      cs ← parse_categories (S i) rest;
      Ok (c :: cs)
  end.

(** [{category.id: category for category in categories}] *)
Definition categories_dict (categories : list Category) : gmap Z Category :=
  foldl (λ d category, <[cat_id category := category]> d) ∅ categories.

(** The body of [for instance in sample["annotations"]]; the loop
    variables are the generator, [panoptic_label] and [segments_info]. *)
Definition panoptic_instance (s : sample) (regions : gmap Z region)
    (instance : annotation num)
    (st : IdGenerator * pixels * list segment_info)
  : io (IdGenerator * pixels * list segment_info) :=
  let '(id_generator, panoptic_label, segments_info) := st in
  let category_id := ann_category_id instance in
  '(instance_id, color, id_generator) ←
    with_random (λ rng,
      '(id, color, g, rng') ← get_id_and_color id_generator category_id rng;
      Ok ((id, color, g), rng'));
  match regions !! ann_id instance with
  | None =>
      emit (LogInfo (skip_message s instance));;
      mret (id_generator, panoptic_label, segments_info)
  | Some region =>
      bitmap ← lift (np_array_uint32 (s_segmentation_bitmap s));
      let instance_mask := mask_of bitmap (ann_id instance) in
      panoptic_label ←
        lift (let '(r, g, b) := color in paint panoptic_label instance_mask [r; g; b]);
      let '(y0, x0, y1, x1) := region_bbox region in
      let area := region_area region in
      mret (id_generator, panoptic_label,
            segments_info ++
              [ {| si_id := instance_id;
                   si_category_id := category_id;
                   si_bbox := [x0; y0; x1 - x0; y1 - y0];
                   si_area := area;
                   si_iscrowd := 0 |} ])
  end.

(** The body of the sample loop; its variables are the generator,
    [images] and [annotations]. *)
Definition coco_panoptic_sample (dataset : SegmentsDataset) (i : nat)
    (s : sample)
    (st : IdGenerator * list coco_image * list panoptic_annotation)
  : io (IdGenerator * list coco_image * list panoptic_annotation) :=
  let '(id_generator, images, annotations) := st in
  match s_annotations s with
  | Absent => raise KeyError
  | Null => mret st
  | Present sample_annotations =>
      let image_id := Z.of_nat i + 1 in
      let images := images ++ [image_entry image_id s] in
      size ← lift (match s_segmentation_bitmap s with
                   | None => Raise AttributeError
                   | Some a => Ok (width a, height a)
                   end);
      let panoptic_label := zeros3 size.2 size.1 in
      let segments_info := [] in
      bitmap ← lift (np_array_uint32 (s_segmentation_bitmap s));
      let regions := regions_dict (regionprops bitmap) in
      '(id_generator, panoptic_label, segments_info) ←
        for_each (panoptic_instance s regions) sample_annotations
                 (id_generator, panoptic_label, segments_info);
      let file_name := path_stem (s_name s) in
      let label_file_name :=
        file_name +:+ "_label_" +:+ ds_labelset dataset +:+ "_coco-panoptic.png" in
      let annotations :=
        annotations ++ [ {| pa_segments_info := segments_info;
                            pa_file_name := label_file_name;
                            pa_image_id := image_id |} ] in
      let export_file := path_join (ds_image_dir dataset) label_file_name in
      emit (WriteFile export_file (Png (Color panoptic_label)));;
      mret (id_generator, images, annotations)
  end.

Definition export_coco_panoptic (dataset : SegmentsDataset)
    (export_folder : string) : io (string * string) :=
  emit (MakeDirs export_folder);;
  let info := {| info_description := ds_release_dataset_name dataset;
                 info_version := ds_release_name dataset |} in
  categories ← lift (parse_categories 0 (ds_categories dataset));
  let id_generator := IdGenerator_init (categories_dict categories) in
  '(_, images, annotations) ←
    for_samples (coco_panoptic_sample dataset) 0 (ds_samples dataset)
                (id_generator, [], []);
  let file_name :=
    path_join export_folder
      ("export_coco-panoptic_" +:+ ds_dataset_identifier dataset +:+ "_"
         +:+ ds_release_name dataset +:+ ".json") in
  (* [json.dump(json_data, f)]: a [Category] object is not serialisable *)
  match categories with
  | [] =>
      emit (WriteFile file_name (CocoPanopticJson info categories images annotations));;
      emit (LogInfo ("Exported to " +:+ file_name +:+ ". Images and labels in "
                       +:+ ds_image_dir dataset));;
      mret (file_name, ds_image_dir dataset)
  | _ :: _ =>
      emit (WriteFile file_name (TruncatedJson info));;
      raise TypeError
  end.

(** *** [export_image] *)

Definition image_categories (cats : list dataset_category) : list image_category :=
  imap (λ i category,
          {| ic_id := dc_id category;
             ic_name := dc_name category;
             ic_color := category_color i category;
             ic_isthing := if category_isthing category then 1 else 0 |}) cats.

Definition label_path (dataset : SegmentsDataset) (file_name variant : string)
  : string :=
  path_join (ds_image_dir dataset)
    (file_name +:+ "_label_" +:+ ds_labelset dataset +:+ variant).

(** [Image.fromarray(img_as_ubyte(semantic_label))]; no array, no image. *)
Definition semantic_image (semantic_label : option raster) : result image_data :=
  match semantic_label with
  | None => Raise (ValueError "Cannot convert from object to uint8.")
  | Some a => Ok (img_as_ubyte (Gray a))
  end.

(** The body of the sample loop; it assigns no variable that outlives an
    iteration. *)
Definition export_image_sample (dataset : SegmentsDataset)
    (categories : list image_category) (export_format : string)
    (id_increment : Z) (i : nat) (s : sample) (st : unit) : io unit :=
  match s_annotations s with
  | Absent => raise KeyError
  | Null => mret st
  | Present sample_annotations =>
      let file_name := path_stem (s_name s) in
      if decide (export_format = "instance") then
        let instance_label := s_segmentation_bitmap s in
        let export_file := label_path dataset file_name "_instance.png" in
        match instance_label with
        | None => raise AttributeError
        | Some a => emit (WriteFile export_file (SavedBitmap a))
        end
      else if decide (export_format = "instance-color") then
        let instance_label := s_segmentation_bitmap s in
        img ← lift (np_uint8 instance_label);
        instance_label_colored ← lift (colorize img None);
        let export_file := label_path dataset file_name "_instance_colored.png" in
        emit (WriteFile export_file (Png (img_as_ubyte (Color instance_label_colored))))
      else if decide (export_format = "semantic") then
        let instance_label := s_segmentation_bitmap s in
        semantic_label ←
          lift (get_semantic_bitmap instance_label (Some sample_annotations) id_increment);
        let export_file := label_path dataset file_name "_semantic.png" in
        img ← lift (semantic_image semantic_label);
        emit (WriteFile export_file (Png img))
      else if decide (export_format = "semantic-color") then
        let instance_label := s_segmentation_bitmap s in
        semantic_label ←
          lift (get_semantic_bitmap instance_label (Some sample_annotations) id_increment);
        img ← lift (np_uint8 semantic_label);
        semantic_label_colored ←
          lift (colorize img (Some (ic_color <$> categories)));
        let export_file := label_path dataset file_name "_semantic_colored.png" in
        emit (WriteFile export_file (Png (img_as_ubyte (Color semantic_label_colored))))
      else mret st
  end.

Definition export_image (dataset : SegmentsDataset) (export_folder : string)
    (export_format : string) (id_increment : Z) : io string :=
  emit (MakeDirs export_folder);;
  let categories := image_categories (ds_categories dataset) in
  for_samples (export_image_sample dataset categories export_format id_increment)
              0 (ds_samples dataset) ();;
  emit (LogInfo ("Exported to " +:+ ds_image_dir dataset));;
  mret (ds_image_dir dataset).

(** *** [export_yolo] *)

(** [[[x0, y0], [x1, y1]] = annotation["points"]] *)
Definition unpack_points (points : list (list num))
  : result (num * num * num * num) :=
  match points with
  | [[x0; y0]; [x1; y1]] => Ok (x0, y0, x1, y1)
  | _ => Raise (ValueError "not enough or too many values to unpack")
  end.

(** The line [export_yolo] writes for one bbox annotation. *)
Definition yolo_line (image_width image_height : Z) (a : annotation num)
  : result string :=
  let category_id := ann_category_id a in
  '(x0, y0, x1, y1) ← unpack_points (ann_points a);
  x0 ← num_truediv x0 (num_of_int image_width);
  x1 ← num_truediv x1 (num_of_int image_width);
  y0 ← num_truediv y0 (num_of_int image_height);
  y1 ← num_truediv y1 (num_of_int image_height);
  x_center ← num_truediv (num_add x0 x1) (num_of_int 2);
  y_center ← num_truediv (num_add y0 y1) (num_of_int 2);
  let width := num_abs (num_sub x1 x0) in
  let height := num_abs (num_sub y1 y0) in
  Ok (pretty category_id +:+ " " +:+ num_format_6f x_center
        +:+ " " +:+ num_format_6f y_center
        +:+ " " +:+ num_format_6f width
        +:+ " " +:+ num_format_6f height +:+ String (Ascii.ascii_of_nat 10) "").

(** The [for annotation in sample["annotations"]] loop inside
    [with open(file_name, "w") as f]: the lines written, and how the loop
    ended. *)
Fixpoint yolo_lines (image_width image_height : Z)
    (annotations : list (annotation num)) (written : list string)
  : list string * result unit :=
  match annotations with
  | [] => (written, Ok ())
  | a :: rest =>
      if decide (ann_type a = "bbox") then
        match yolo_line image_width image_height a with
        | Ok line => yolo_lines image_width image_height rest (written ++ [line])
        | Raise e => (written, Raise e)
        | Spinning => (written, Spinning)
        end
      else yolo_lines image_width image_height rest written
  end.

(** The body of the sample loop.  The file is created by [open] and holds
    whatever was written when the [with] block is left. *)
Definition export_yolo_sample (dataset : SegmentsDataset) (i : nat)
    (s : sample) (st : unit) : io unit :=
  match s_annotations s with
  | Present (a :: sample_annotations) =>
      let image_name := path_stem (s_name s) in
      image ← lift (match s_image s with
                    | None => Raise AttributeError
                    | Some image => Ok image
                    end);
      let image_width := im_width image in
      let image_height := im_height image in
      let file_name := ds_image_dir dataset +:+ "/" +:+ image_name +:+ ".txt" in
      let '(written, ended) :=
        yolo_lines image_width image_height (a :: sample_annotations) [] in
      emit (WriteFile file_name (Text written));;
      lift ended
  | _ => mret st
  end.

Definition export_yolo (dataset : SegmentsDataset) (export_folder : string)
  : io string :=
  if decide (ds_task_type dataset ∉ ["vector"; "bboxes"]) then
    raise (ValueError "You can only export bounding box datasets to YOLO format.")
  else
    (if decide (ds_task_type dataset = "vector") then
       emit (LogInfo "Only bounding box annotations will be processed. Polygon, polyline and keypoint annotations will be ignored.")
     else mret ());;
    for_samples (export_yolo_sample dataset) 0 (ds_samples dataset) ();;
    emit (LogInfo ("Exported. Images and labels in " +:+ ds_image_dir dataset));;
    mret (ds_image_dir dataset).

(** ** The dispatcher [export_dataset] ([utils.py]) *)

Inductive exported : Type :=
| FileAndDir (file_name image_dir : string)
| Dir (image_dir : string)
| NoExport.

Definition dq : string := String (Ascii.ascii_of_nat 34) "".

Definition bitmap_only : string :=
  "Only datasets of type " +:+ dq +:+ "segmentation-bitmap" +:+ dq +:+ " and "
    +:+ dq +:+ "segmentation-bitmap-highres" +:+ dq
    +:+ " can be exported to this format.".

Definition boxes_only : string :=
  "Only datasets of type " +:+ dq +:+ "vector" +:+ dq +:+ " and "
    +:+ dq +:+ "bboxes" +:+ dq +:+ " can be exported to this format.".

Definition export_dataset (dataset : SegmentsDataset) (export_folder : string)
    (export_format : string) (id_increment : Z) : io exported :=
  emit (Print "Exporting dataset. This may take a while...");;
  if decide (export_format = "coco-panoptic") then
    if decide (ds_task_type dataset
                 ∉ ["segmentation-bitmap"; "segmentation-bitmap-highres"]) then
      raise (ValueError bitmap_only)
    else
      '(file_name, image_dir) ← export_coco_panoptic dataset export_folder;
      mret (FileAndDir file_name image_dir)
  else if decide (export_format = "coco-instance") then
    if decide (ds_task_type dataset
                 ∉ ["segmentation-bitmap"; "segmentation-bitmap-highres"]) then
      raise (ValueError bitmap_only)
    else
      '(file_name, image_dir) ← export_coco_instance dataset export_folder;
      mret (FileAndDir file_name image_dir)
  else if decide (export_format = "yolo") then
    if decide (ds_task_type dataset ∉ ["vector"; "bboxes"]) then
      raise (ValueError boxes_only)
    else
      image_dir ← export_yolo dataset export_folder;
      mret (Dir image_dir)
  else if decide (export_format
                    ∈ ["semantic-color"; "instance-color"; "semantic"; "instance"]) then
    if decide (ds_task_type dataset
                 ∉ ["segmentation-bitmap"; "segmentation-bitmap-highres"]) then
      raise (ValueError bitmap_only)
    else
      image_dir ← export_image dataset export_folder export_format id_increment;
      mret (Dir image_dir)
  else mret NoExport.
End Emitters.

(** ** Python floats *)

(** A Python [float] is an IEEE 754 binary64 number: 53 bits of precision,
    exponents up to 1024, every result rounded to the nearest float, ties
    to even.  The operations are those of the Standard Library's
    specification of IEEE arithmetic. *)
Definition float : Type := spec_float.

(** [float(z)]; beyond the range of [float] Python raises [OverflowError],
    where this conversion gives an infinity. *)
Definition float_of_int (z : Z) : float := binary_normalize 53 1024 z 0 false.

Definition float_add : float → float → float := SFadd 53 1024.
Definition float_sub : float → float → float := SFsub 53 1024.
Definition float_div : float → float → float := SFdiv 53 1024.
Definition float_abs : float → float := SFabs.

(** [a / b]: a divisor that is zero, of either sign, raises. *)
Definition float_truediv (a b : float) : result float :=
  match b with
  | S754_zero _ => Raise ZeroDivisionError
  | _ => Ok (float_div a b)
  end.

(** The integer nearest to [n / d] for [d > 0], ties to even. *)
Definition round_div (n d : Z) : Z :=
  let q := n / d in
  let twice := 2 * (n mod d) in
  if decide (twice < d) then q
  else if decide (d < twice) then q + 1
  else if Z.even q then q else q + 1.

(** The magnitude of a float in millionths, correctly rounded. *)
Definition millionths (f : float) : Z :=
  match f with
  | S754_finite _ m e =>
      if decide (0 ≤ e) then Z.pos m * 2 ^ e * 1000000
      else round_div (Z.pos m * 1000000) (2 ^ (- e))
  | _ => 0
  end.

Definition float_sign (f : float) : bool :=
  match f with
  | S754_zero s | S754_infinity s | S754_finite s _ _ => s
  | S754_nan => false
  end.

Definition digit_char (d : Z) : Ascii.ascii := Ascii.ascii_of_nat (48 + Z.to_nat d).

Definition decimals6 (n : Z) : string :=
  String (digit_char (n / 100000 mod 10))
    (String (digit_char (n / 10000 mod 10))
       (String (digit_char (n / 1000 mod 10))
          (String (digit_char (n / 100 mod 10))
             (String (digit_char (n / 10 mod 10))
                (String (digit_char (n mod 10)) EmptyString))))).

(** ['{:.6f}'.format(f)]: the sign, the integer part, a point and six
    digits, of the decimal number with six places nearest to [f]; the sign
    of a negative number is kept when it rounds to zero. *)
Definition float_format_6f (f : float) : string :=
  match f with
  | S754_nan => "nan"
  | S754_infinity s => if s then "-inf" else "inf"
  | _ =>
      let n := millionths f in
      let digits := pretty (n / 1000000) +:+ "." +:+ decimals6 (n mod 1000000) in
      if float_sign f then "-" +:+ digits else digits
  end.

(** The emitters on Python floats, with the libraries of [E].  An [int]
    among the numbers stands for its float: below [2^53] the float is exact
    and [/] gives the same result on both. *)
Definition binary64 (E : Externals) : Externals := {|
  num := float;
  num_of_int := float_of_int;
  num_add := float_add;
  num_sub := float_sub;
  num_abs := float_abs;
  num_truediv := float_truediv;
  num_format_6f := float_format_6f;
  regionprops := @regionprops E;
  mask_encode := @mask_encode E;
  img_as_ubyte := @img_as_ubyte E;
  path_stem := @path_stem E;
  path_join := @path_join E
|}.

(** * Vocabulary of the statements *)

(** An 8-bit RGB pixel, and the id a pixel packs to. *)
Definition byte_triple (px : list Z) : Prop :=
  ∃ r g b, px = [r; g; b] ∧ 0 ≤ r < 256 ∧ 0 ≤ g < 256 ∧ 0 ≤ b < 256.

Definition packs_to (px : list Z) (id : Z) : Prop :=
  ∃ r g b, px = [r; g; b] ∧ id = r + 256 * g + 65536 * b.

(** The pixel [bitmap2file] stores for the id [v]: the codec's three bytes
    and an opaque alpha. *)
Definition rgba_of (v : Z) : list Z :=
  let '(r, g, b) := id2rgb_scalar v in [r; g; b; 255].

(** What the derived raster holds for the raster value [v] under the
    annotations [annotations]. *)
Definition semantic_of {N : Type} (annotations : list (annotation N))
    (id_increment : Z) (v out : Z) : Prop :=
  ((∀ a, a ∈ annotations → ann_id a ≠ v) → out = 0)
  ∧ (∀ l1 a l2, annotations = l1 ++ a :: l2 → ann_id a = v →
       (∀ b, b ∈ l2 → ann_id b ≠ v) →
       out = ann_category_id a + id_increment).

(** The three channels of a color are bytes. *)
Definition byte_color (c : RGB) : Prop :=
  0 ≤ c.1.1 ≤ 255 ∧ 0 ≤ c.1.2 ≤ 255 ∧ 0 ≤ c.2 ≤ 255.

(** Every channel of [c] is within [dist] of the same channel of [base]. *)
Definition near (dist : Z) (base c : RGB) : Prop :=
  Z.abs (c.1.1 - base.1.1) ≤ dist
  ∧ Z.abs (c.1.2 - base.1.2) ≤ dist
  ∧ Z.abs (c.2 - base.2) ≤ dist.

(** A run of [get_id_and_color] calls on one generator, collecting the
    returned pairs. *)
Fixpoint get_ids_and_colors (self : IdGenerator) (cat_ids : list Z)
    (rng : list draw) : result (list (id_value * RGB) * IdGenerator * list draw) :=
  match cat_ids with
  | [] => Ok ([], self, rng)
  | cat_id :: rest =>
      '(id, color, self', rng') ← get_id_and_color self cat_id rng;
      '(pairs, self'', rng'') ← get_ids_and_colors self' rest rng';
      Ok ((id, color) :: pairs, self'', rng'')
  end.

(** All rows of a raster have the same length. *)
Definition rectangular (img : raster) : Prop :=
  Forall (λ row, length row = width img) img.

(** The number a finite float stands for; floats between two integers. *)
Definition float_value (f : float) : Q :=
  match f with
  | S754_finite s m e =>
      let n := if s then Z.neg m else Z.pos m in
      if decide (0 ≤ e) then inject_Z (n * 2 ^ e) else n # Z.to_pos (2 ^ (- e))
  | _ => 0
  end.

Definition is_finite (f : float) : bool :=
  match f with
  | S754_zero _ | S754_finite _ _ _ => true
  | _ => false
  end.

Definition between (lo hi : Z) (f : float) : Prop :=
  is_finite f = true
  ∧ (inject_Z lo <= float_value f)%Q ∧ (float_value f <= inject_Z hi)%Q.

(** A text that ends in a point and exactly six decimal digits. *)
Definition six_decimals (s : string) : Prop :=
  ∃ whole frac, s = whole +:+ "." +:+ frac
                ∧ String.length frac = 6%nat
                ∧ Forall (λ c, is_Some (Ascii.is_nat c)) (Strings.String.list_ascii_of_string frac).

(** Bounds on the steps of IEEE rounding.  A shift record is exact when
    nothing but zeros was shifted out. *)
Definition exact_record (mrs : shr_record) : Prop := shr_r mrs = false ∧ shr_s mrs = false.

(** [q * 2^e], with the location [l] of what was cut off, is at most [2^k]. *)
Definition under (k q e : Z) (l : location) : Prop :=
  0 ≤ q ∧ e ≤ k ∧ (q < 2 ^ (k - e) ∨ (q = 2 ^ (k - e) ∧ l = loc_Exact)).

(** The float has sign [s] and magnitude at most [2^k]. *)
Definition within (k : Z) (s : bool) (f : float) : Prop :=
  match f with
  | S754_zero s' => s' = s
  | S754_finite s' m e => s' = s ∧ e ≤ k ∧ Z.pos m ≤ 2 ^ (k - e)
  | _ => False
  end.

(** Magnitude at most [2^k], whatever the sign. *)
Definition magnitude (k : Z) (f : float) : Prop :=
  match f with
  | S754_zero _ => True
  | S754_finite _ m e => e ≤ k ∧ Z.pos m ≤ 2 ^ (k - e)
  | _ => False
  end.

(** Between [0] and [2^k]. *)
Definition below_pow2 (k : Z) (f : float) : Prop :=
  match f with
  | S754_zero _ => True
  | S754_finite false m e => e ≤ k ∧ Z.pos m ≤ 2 ^ (k - e)
  | _ => False
  end.

(** [m1 * 2^e1 <= m2 * 2^e2], at every common exponent. *)
Definition dyadic_le (m1 e1 m2 e2 : Z) : Prop :=
  ∀ c, c ≤ e1 → c ≤ e2 → m1 * 2 ^ (e1 - c) ≤ m2 * 2 ^ (e2 - c).

Definition float_le (a : float) (mb : positive) (eb : Z) : Prop :=
  match a with
  | S754_zero _ => True
  | S754_finite false ma ea => dyadic_le (Z.pos ma) ea (Z.pos mb) eb
  | _ => False
  end.

Section Vocabulary.
Context `{Externals}.

(** The export formats and the task types each of them accepts. *)
Definition bitmap_formats : list string :=
  ["coco-panoptic"; "coco-instance"; "instance"; "instance-color"; "semantic";
   "semantic-color"].

Definition incompatible (export_format task_type : string) : Prop :=
  (export_format ∈ bitmap_formats
   ∧ task_type ∉ ["segmentation-bitmap"; "segmentation-bitmap-highres"])
  ∨ (export_format = "yolo" ∧ task_type ∉ ["vector"; "bboxes"]).

Definition printed (w : world) : world :=
  {| trace := Print "Exporting dataset. This may take a while..." :: trace w;
     random_source := random_source w |}.

(** Log entries, and computations that do nothing to the world but log. *)
Definition is_log (e : event) : Prop := ∃ line, e = LogInfo line.

Definition quiet {A : Type} (m : io A) : Prop :=
  ∀ w r w', m w = (r, w') →
    ∃ logs, trace w' = logs ++ trace w ∧ Forall is_log logs
            ∧ random_source w' = random_source w.

(** The paths of the files written by a list of events. *)
Definition written_paths (events : list event) : list string :=
  omap (λ e, match e with WriteFile path _ => Some path | _ => None end) events.

(** The samples [export_yolo] writes a file for. *)
Definition has_annotations (s : sample) : Prop :=
  match s_annotations s with
  | Present (_ :: _) => True
  | _ => False
  end.

#[global] Instance has_annotations_dec (s : sample) : Decision (has_annotations s).
Proof.
  unfold has_annotations. destruct (s_annotations s) as [| |[|]]; apply _.
Defined.

(** The samples [export_image] writes a file for, and the end of the file
    name for each of its formats. *)
Definition is_annotated (s : sample) : Prop :=
  match s_annotations s with
  | Present _ => True
  | _ => False
  end.

#[global] Instance is_annotated_dec (s : sample) : Decision (is_annotated s).
Proof.
  unfold is_annotated. destruct (s_annotations s); apply _.
Defined.

Definition label_suffix (export_format : string) : option string :=
  if decide (export_format = "instance") then Some "_instance.png"
  else if decide (export_format = "instance-color") then Some "_instance_colored.png"
  else if decide (export_format = "semantic") then Some "_semantic.png"
  else if decide (export_format = "semantic-color") then Some "_semantic_colored.png"
  else None.

End Vocabulary.

(** * Example data *)

(** A run on a three-category map: two things share the base color of a
    stuff class, so the second thing goes through the retry loop. *)
Definition demo_categories : gmap Z Category :=
  <[1 := mkCategory 1 "road" (10, 20, 30) false]>
    (<[2 := mkCategory 2 "car" (10, 20, 30) true]>
       (<[3 := mkCategory 3 "person" (200, 0, 0) true]> ∅)).

Definition demo_final : IdGenerator :=
  {| taken_colors :=
       {[ (0, 0, 0); (10, 20, 30); (200, 0, 0); (11, 21, 31); (9, 19, 29) ]};
     categories := demo_categories |}.

Definition demo_final_no_person : IdGenerator :=
  {| taken_colors := {[ (0, 0, 0); (10, 20, 30); (11, 21, 31); (9, 19, 29) ]};
     categories := demo_categories |}.

(** A generator whose only thing category has a color beyond the byte
    range: every candidate of the retry loop is clamped to white. *)
Definition overexposed : IdGenerator :=
  {| taken_colors := {[ (0, 0, 0); (300, 300, 300); (255, 255, 255) ]};
     categories := {[ 7 := mkCategory 7 "sky" (300, 300, 300) true ]} |}.

(** Stand-ins for the libraries, to run the emitters on examples: exact
    rational numbers for Python's numbers, the bounding box and pixel count
    of every label for [regionprops], the mask size without its run counts
    for [mask.encode], and plain concatenation for paths. *)
Definition round_half_even (q : Q) : Z :=
  let n := Qnum q in
  let d := Z.pos (Qden q) in
  let twice := 2 * (n mod d) in
  if decide (twice < d) then n / d
  else if decide (d < twice) then n / d + 1
  else if Z.even (n / d) then n / d else n / d + 1.

Definition format_6f (q : Q) : string :=
  let scaled := round_half_even (Qmult q (inject_Z 1000000)) in
  let digits := pretty (Z.abs scaled mod 1000000) in
  (if decide (scaled < 0) then "-" else "")
    +:+ pretty (Z.abs scaled / 1000000) +:+ "."
    +:+ String.concat "" (replicate (6 - String.length digits) "0") +:+ digits.

Definition label_pixels (img : raster) (label : Z) : list (Z * Z) :=
  concat (imap (λ r row,
            omap (λ p, p)
              (imap (λ c v, if decide (v = label)
                            then Some (Z.of_nat r, Z.of_nat c) else None) row))
          img).

Definition label_region (img : raster) (label : Z) : region :=
  let coords := label_pixels img label in
  let rows := fst <$> coords in
  let cols := snd <$> coords in
  {| region_label := label;
     region_bbox := (foldr Z.min (max_default rows) rows,
                     foldr Z.min (max_default cols) cols,
                     max_default rows + 1, max_default cols + 1);
     region_area := Z.of_nat (length coords) |}.

#[local] Instance example_externals : Externals := {|
  num := Q;
  num_of_int := inject_Z;
  num_add := λ a b, Qred (Qplus a b);
  num_sub := λ a b, Qred (Qminus a b);
  num_abs := Qabs;
  num_truediv := λ a b,
    if decide (Qnum b = 0) then Raise ZeroDivisionError else Ok (Qred (Qdiv a b));
  num_format_6f := format_6f;
  regionprops := λ img, label_region img <$> filter (λ id, id ≠ 0) (np_unique img);
  mask_encode := λ mask,
    mkRle [Z.of_nat (length mask); Z.of_nat (length (default [] (head mask)))] "";
  img_as_ubyte := λ img, img;
  path_stem := λ p, p;
  path_join := λ a b, a +:+ "/" +:+ b
|}.

Definition example_unlabeled : sample :=
  {| s_name := "a"; s_file_name := "a.png";
     s_image := Some (mkImage 3 2);
     s_segmentation_bitmap := Some [[0; 0; 0]; [0; 0; 0]];
     s_annotations := Null |}.

Definition example_labeled : sample :=
  {| s_name := "b"; s_file_name := "b.png";
     s_image := Some (mkImage 3 2);
     s_segmentation_bitmap := Some [[0; 1; 1]; [2; 1; 0]];
     s_annotations :=
       Present [mkAnnotation 1 5 "mask" []; mkAnnotation 2 7 "mask" []] |}.

Definition example_dataset (task_type : string) (samples : list sample)
  : SegmentsDataset :=
  {| ds_samples := samples;
     ds_categories := [];
     ds_task_type := task_type;
     ds_labelset := "ground-truth";
     ds_image_dir := "images";
     ds_dataset_identifier := "owner_set";
     ds_release_name := "v1";
     ds_release_dataset_name := "set" |}.

(** A sample of a bounding-box dataset: one box and one polygon. *)
Definition example_boxed : sample :=
  {| s_name := "c"; s_file_name := "c.png";
     s_image := Some (mkImage 100 200);
     s_segmentation_bitmap := None;
     s_annotations :=
       Present [ mkAnnotation 1 3 "bbox"
                   [[inject_Z 10; inject_Z 20]; [inject_Z 50; inject_Z 80]];
                 mkAnnotation 2 4 "polygon" [] ] |}.

(** A bitmap dataset whose only category has a color of two channels. *)
Definition example_short_color : SegmentsDataset :=
  {| ds_samples := [example_labeled];
     ds_categories := [mkDatasetCategory 1 "road" (Some [10; 20]) None];
     ds_task_type := "segmentation-bitmap";
     ds_labelset := "ground-truth";
     ds_image_dir := "images";
     ds_dataset_identifier := "owner_set";
     ds_release_name := "v1";
     ds_release_dataset_name := "set" |}.

(** A generator for the two categories of [example_labeled], both stuff. *)
Definition example_generator : IdGenerator :=
  IdGenerator_init
    (<[5 := mkCategory 5 "road" (10, 20, 30) false]>
       (<[7 := mkCategory 7 "sky" (1, 2, 3) false]> ∅)).

Definition empty_world : world := {| trace := []; random_source := [] |}.

(** * Verified properties *)

(** ** Id/Color codec *)

Lemma id2rgb_scalar_digits (x : Z) :
  id2rgb_digits 3 x = let '(r, g, b) := id2rgb_scalar x in [r; g; b].
Proof. reflexivity. Qed.

Lemma id2rgb_scalar_bytes (x : Z) :
  let '(r, g, b) := id2rgb_scalar x in
  0 ≤ r < 256 ∧ 0 ≤ g < 256 ∧ 0 ≤ b < 256.
Proof.
  unfold id2rgb_scalar; cbv zeta.
  pose proof (Z.mod_pos_bound x 256).
  pose proof (Z.mod_pos_bound (x / 256) 256).
  pose proof (Z.mod_pos_bound (x / 256 / 256) 256).
  lia.
Qed.

Lemma pack_digits (x : Z) :
  0 ≤ x < 2 ^ 24 →
  pack (x mod 256) (x / 256 mod 256) (x / 256 / 256 mod 256) = x.
Proof.
  intros Hx. unfold pack.
  assert (0 ≤ x / 256 / 256 < 256) as Hhi.
  { rewrite Z.div_div by lia. split.
    - apply Z.div_pos; lia.
    - apply Z.div_lt_upper_bound; lia. }
  rewrite (Z.mod_small (x / 256 / 256)) by lia.
  pose proof (Z.div_mod x 256).
  pose proof (Z.div_mod (x / 256) 256).
  lia.
Qed.

(** C1. For every integer id [x] in [[0, 2^24)], [id2rgb] on the scalar [x]
    yields an RGB triple from which [rgb2id] computes [x] again. *)
Theorem rgb2id_id2rgb_roundtrip (x : Z) :
  0 ≤ x < 2 ^ 24 →
  ∃ c : RGB, id2rgb (IdScalar x) = RgbTuple c ∧ rgb2id (ColorTuple c) = Ok (IdInt x).
Proof.
  intros Hx. exists (id2rgb_scalar x). split; [reflexivity|].
  unfold id2rgb_scalar; cbv zeta. cbn [rgb2id].
  by rewrite pack_digits.
Qed.

Lemma rgb2id_id2rgb_roundtrip_witness :
  ∃ c : RGB, id2rgb (IdScalar 16777215) = RgbTuple c
             ∧ rgb2id (ColorTuple c) = Ok (IdInt 16777215).
Proof. apply (rgb2id_id2rgb_roundtrip 16777215). lia. Defined.

(** Beyond 24 bits the fourth base-256 digit is dropped. *)
Lemma rgb2id_id2rgb_truncates (x : Z) :
  0 ≤ x →
  rgb2id (ColorTuple (id2rgb_scalar x)) = Ok (IdInt (x mod 2 ^ 24)).
Proof.
  intros Hx. unfold id2rgb_scalar; cbv zeta. cbn [rgb2id]. do 2 f_equal.
  unfold pack.
  pose proof (Z.div_mod x 256).
  pose proof (Z.div_mod (x / 256) 256).
  pose proof (Z.div_mod (x / 256 / 256) 256).
  pose proof (Z.mod_pos_bound x 256).
  pose proof (Z.mod_pos_bound (x / 256) 256).
  pose proof (Z.mod_pos_bound (x / 256 / 256) 256).
  apply (Z.mod_unique_pos _ _ (x / 256 / 256 / 256)); lia.
Qed.

(** The array branch of [rgb2id] on an 8-bit image. *)

Lemma cast_int32_small (z : Z) : - 2 ^ 31 ≤ z < 2 ^ 31 → cast Int32 z = z.
Proof.
  intros Hz. unfold cast, wrap_signed.
  rewrite Z.mod_small; lia.
Qed.

Lemma rgb2id_pixel_bytes (px : list Z) :
  byte_triple px → ∃ id, rgb2id_pixel Int32 px = Ok id ∧ packs_to px id.
Proof.
  intros (r & g & b & -> & Hr & Hg & Hb).
  exists (pack r g b). split.
  - unfold rgb2id_pixel. cbn. f_equal. apply cast_int32_small. unfold pack. lia.
  - exists r, g, b. split; [done|]. unfold pack. lia.
Qed.

Lemma traverse_Forall2 {A B : Type} (f : A → result B) (P : A → Prop)
    (R : A → B → Prop) (l : list A) :
  (∀ a, P a → ∃ b, f a = Ok b ∧ R a b) →
  Forall P l → ∃ bs, traverse f l = Ok bs ∧ Forall2 R l bs.
Proof.
  intros Hf. induction 1 as [|a l Ha _ (bs & Hbs & HR)].
  - exists []. by split.
  - destruct (Hf a Ha) as (b & Hb & Hab).
    exists (b :: bs). cbn. rewrite Hb. cbn. rewrite Hbs. cbn.
    split; [done|]. by constructor.
Qed.

Lemma rgb2id_image (a : list (list (list Z))) :
  Forall (Forall byte_triple) a →
  ∃ ids, rgb2id (ColorArray (NdArray UInt8 3 a)) = Ok (IdMap Int32 ids)
         ∧ Forall2 (Forall2 packs_to) a ids.
Proof.
  intros Ha.
  destruct (traverse_Forall2 (traverse (rgb2id_pixel Int32)) (Forall byte_triple)
              (Forall2 packs_to) a) as (ids & Hids & HR); [|done|].
  - intros row Hrow.
    apply (traverse_Forall2 _ byte_triple packs_to); [|done].
    apply rgb2id_pixel_bytes.
  - exists ids. split; [|done]. cbn. case_decide; [|done]. by rewrite Hids.
Qed.

(** A 2-D array takes the scalar branch, where [color[0]], [color[1]] and
    [color[2]] are its first three rows. *)
Lemma rgb2id_rows_raise (dt : dtype) (rows : list (list Z)) :
  Forall (λ row, length row = 3%nat) rows →
  rgb2id (ColorArray (NdArray dt 2 rows))
  = Raise (if decide (length rows < 3)%nat then IndexError else TypeError).
Proof.
  intros Hrows.
  destruct rows as [|r0 [|r1 [|r2 rest]]]; try reflexivity.
  rewrite decide_False by (cbn; lia).
  apply Forall_cons in Hrows as [H0 Hrows].
  apply Forall_cons in Hrows as [H1 Hrows].
  apply Forall_cons in Hrows as [H2 _].
  destruct r0 as [|? [|? [|? [|]]]]; try discriminate.
  destruct r1 as [|? [|? [|? [|]]]]; try discriminate.
  destruct r2 as [|? [|? [|? [|]]]]; try discriminate.
  reflexivity.
Qed.

(** C5, the claim as stated, fails: a 4×3 array of triples is not reduced
    to four ids; the call raises. *)
Lemma rgb2id_rows_counterexample :
  let color := ColorArray (NdArray UInt8 2 [[255; 0; 0]; [0; 255; 0]; [0; 0; 255]; [1; 1; 1]]) in
  rgb2id color = Raise TypeError ∧ ∀ ids, rgb2id color ≠ Ok ids.
Proof. split; [reflexivity|]. intros ids. discriminate. Qed.

(** C5, amended. [rgb2id] maps a single triple to [r + 256*g + 65536*b]; on
    an [H×W×3] uint8 array it widens to int32 and returns the [H×W] array of
    these ids, none of them wrapped; an [N×3] array is not accepted: the
    call raises [IndexError] for fewer than three rows and [TypeError]
    otherwise. *)
Theorem rgb2id_accepts (r g b : Z) (image : list (list (list Z)))
    (dt : dtype) (rows : list (list Z)) :
  Forall (Forall byte_triple) image →
  Forall (λ row, length row = 3%nat) rows →
  rgb2id (ColorTuple (r, g, b)) = Ok (IdInt (r + 256 * g + 65536 * b))
  ∧ (∃ ids, rgb2id (ColorArray (NdArray UInt8 3 image)) = Ok (IdMap Int32 ids)
            ∧ Forall2 (Forall2 packs_to) image ids)
  ∧ ((length rows < 3)%nat →
     rgb2id (ColorArray (NdArray dt 2 rows)) = Raise IndexError)
  ∧ ((3 ≤ length rows)%nat →
     rgb2id (ColorArray (NdArray dt 2 rows)) = Raise TypeError).
Proof.
  intros Himage Hrows. split; [|split; [|split]].
  - cbn [rgb2id]. unfold pack. f_equal.
  - by apply rgb2id_image.
  - intros Hfew. rewrite rgb2id_rows_raise by done. by rewrite decide_True.
  - intros Hmany. rewrite rgb2id_rows_raise by done. rewrite decide_False; [done|lia].
Qed.

Lemma rgb2id_accepts_witness :
  rgb2id (ColorTuple (1, 2, 3)) = Ok (IdInt (1 + 256 * 2 + 65536 * 3))
  ∧ (∃ ids, rgb2id (ColorArray (NdArray UInt8 3 [[[255; 255; 255]; [1; 0; 0]]]))
            = Ok (IdMap Int32 ids)
            ∧ Forall2 (Forall2 packs_to) [[[255; 255; 255]; [1; 0; 0]]] ids)
  ∧ ((length [[1; 2; 3]; [4; 5; 6]; [7; 8; 9]] < 3)%nat →
     rgb2id (ColorArray (NdArray UInt8 2 [[1; 2; 3]; [4; 5; 6]; [7; 8; 9]]))
     = Raise IndexError)
  ∧ ((3 ≤ length [[1; 2; 3]; [4; 5; 6]; [7; 8; 9]])%nat →
     rgb2id (ColorArray (NdArray UInt8 2 [[1; 2; 3]; [4; 5; 6]; [7; 8; 9]]))
     = Raise TypeError).
Proof.
  apply (rgb2id_accepts 1 2 3 [[[255; 255; 255]; [1; 0; 0]]] UInt8
           [[1; 2; 3]; [4; 5; 6]; [7; 8; 9]]).
  - repeat first [apply Forall_nil_2 | apply Forall_cons_2].
    + exists 255, 255, 255. split; [reflexivity|lia].
    + exists 1, 0, 0. split; [reflexivity|lia].
  - repeat first [apply Forall_nil_2 | apply Forall_cons_2]; reflexivity.
Defined.

(** ** Color allocator *)

Lemma reserve_fixed_mono (taken : gset RGB) (l : list Category) :
  taken ⊆ foldl reserve_fixed taken l.
Proof.
  revert taken. induction l as [|c l IH]; intros taken; cbn; [done|].
  etrans; [|apply IH]. unfold reserve_fixed. destruct (cat_isthing c); set_solver.
Qed.

Lemma reserve_fixed_elem (taken : gset RGB) (l : list Category) (c : Category) :
  c ∈ l → cat_isthing c = false → cat_color c ∈ foldl reserve_fixed taken l.
Proof.
  revert taken. induction l as [|c' l IH]; intros taken Hc Hstuff; [by inv Hc|].
  cbn. apply elem_of_cons in Hc as [->|Hc].
  - apply reserve_fixed_mono. unfold reserve_fixed. rewrite Hstuff. set_solver.
  - by apply IH.
Qed.

Lemma init_black (cats : gmap Z Category) :
  (0, 0, 0) ∈ taken_colors (IdGenerator_init cats).
Proof. cbn. apply reserve_fixed_mono. set_solver. Qed.

Lemma init_fixed (cats : gmap Z Category) (c : Category) :
  c ∈ dict_values cats → cat_isthing c = false →
  cat_color c ∈ taken_colors (IdGenerator_init cats).
Proof. intros. cbn. by apply reserve_fixed_elem. Qed.

Lemma retry_color_fresh (base : RGB) (taken : gset RGB) (rng : list draw)
    (color : RGB) (rng' : list draw) :
  retry_color base taken rng = Ok (color, rng') → color ∉ taken.
Proof.
  induction rng as [|d rng IH]; cbn; [done|].
  case_decide; [|done]. intros ?; by simplify_eq.
Qed.

(** The loop returns as soon as the random source offers a free color. *)
Lemma retry_color_returns (base : RGB) (taken : gset RGB) (rng : list draw) :
  Exists (λ d, random_color base 30 d ∉ taken) rng →
  ∃ color rng', retry_color base taken rng = Ok (color, rng').
Proof.
  induction 1 as [d rng Hd|d rng _ IH]; cbn; case_decide; eauto; done.
Qed.

(** What one call on a thing category does. *)
Lemma get_color_thing (self : IdGenerator) (cat_id : Z) (rng : list draw)
    (c : Category) (color : RGB) (self' : IdGenerator) (rng' : list draw) :
  categories self !! cat_id = Some c → cat_isthing c = true →
  get_color self cat_id rng = Ok (color, self', rng') →
  (color ∉ taken_colors self) ∧ self' = claim self color.
Proof.
  intros Hc Hthing. unfold get_color. rewrite Hc, Hthing. cbn.
  case_decide as Hbase.
  - intros ?; by simplify_eq.
  - destruct (retry_color _ _ _) as [[color' rng'']| |] eqn:Hretry; cbn; try done.
    intros ?; simplify_eq. split; [|done]. by eapply retry_color_fresh.
Qed.

(** What one call on a stuff category does. *)
Lemma get_color_stuff (self : IdGenerator) (cat_id : Z) (rng : list draw)
    (c : Category) :
  categories self !! cat_id = Some c → cat_isthing c = false →
  get_color self cat_id rng = Ok (cat_color c, self, rng).
Proof. intros Hc Hstuff. unfold get_color. by rewrite Hc, Hstuff. Qed.

(** Every call leaves the category map alone and only adds to the taken
    colors. *)
Lemma get_color_preserves (self : IdGenerator) (cat_id : Z) (rng : list draw)
    (color : RGB) (self' : IdGenerator) (rng' : list draw) :
  get_color self cat_id rng = Ok (color, self', rng') →
  categories self' = categories self ∧ taken_colors self ⊆ taken_colors self'.
Proof.
  unfold get_color. destruct (categories self !! cat_id) as [c|]; [|done].
  destruct (cat_isthing c); cbn.
  - case_decide.
    + intros ?; simplify_eq. cbn. set_solver.
    + destruct (retry_color _ _ _) as [[color' rng'']| |]; cbn; try done.
      intros ?; simplify_eq. cbn. set_solver.
  - intros ?; by simplify_eq.
Qed.

(** A call on a thing category returns whenever the base color is free or
    the random source holds a free candidate. *)
Lemma get_color_returns (self : IdGenerator) (cat_id : Z) (rng : list draw)
    (c : Category) :
  categories self !! cat_id = Some c →
  Exists (λ d, random_color (cat_color c) 30 d ∉ taken_colors self) rng →
  ∃ color self' rng', get_color self cat_id rng = Ok (color, self', rng').
Proof.
  intros Hc Hfree. unfold get_color. rewrite Hc.
  destruct (cat_isthing c); cbn; [|eauto].
  case_decide; [eauto|].
  destruct (retry_color_returns _ _ _ Hfree) as (color & rng' & ->). cbn. eauto.
Qed.

Lemma get_colors_app (self : IdGenerator) (ids1 ids2 : list Z) (rng : list draw) :
  get_colors self (ids1 ++ ids2) rng =
  ('(colors1, self1, rng1) ← get_colors self ids1 rng;
   '(colors2, self2, rng2) ← get_colors self1 ids2 rng1;
   Ok (colors1 ++ colors2, self2, rng2)).
Proof.
  revert self rng. induction ids1 as [|id ids1 IH]; intros self rng; cbn.
  - by destruct (get_colors self ids2 rng) as [[[??]?]| |].
  - destruct (get_color self id rng) as [[[color self'] rng']| |]; cbn; [|done..].
    rewrite IH.
    destruct (get_colors self' ids1 rng') as [[[colors1 self1] rng1]| |]; cbn; [|done..].
    by destruct (get_colors self1 ids2 rng1) as [[[??]?]| |].
Qed.

Lemma get_colors_preserves (self : IdGenerator) (cat_ids : list Z) (rng : list draw)
    (colors : list RGB) (self' : IdGenerator) (rng' : list draw) :
  get_colors self cat_ids rng = Ok (colors, self', rng') →
  categories self' = categories self ∧ taken_colors self ⊆ taken_colors self'.
Proof.
  revert self rng colors. induction cat_ids as [|id ids IH]; intros self rng colors; cbn.
  - intros ?; by simplify_eq.
  - destruct (get_color self id rng) as [[[color self1] rng1]| |] eqn:Hcall; cbn; [|done..].
    destruct (get_colors self1 ids rng1) as [[[colors1 self2] rng2]| |] eqn:Hrest;
      cbn; [|done..].
    intros ?; simplify_eq.
    apply get_color_preserves in Hcall as [Hc Ht].
    apply IH in Hrest as [Hc' Ht'].
    split; [congruence|set_solver].
Qed.

(** The invariant of a run over thing categories: the returned colors are
    new, pairwise distinct, and exactly what the run added. *)
Lemma get_colors_things (self : IdGenerator) (cat_ids : list Z) (rng : list draw)
    (colors : list RGB) (self' : IdGenerator) (rng' : list draw) :
  Forall (λ id, ∃ c, categories self !! id = Some c ∧ cat_isthing c = true) cat_ids →
  get_colors self cat_ids rng = Ok (colors, self', rng') →
  NoDup colors
  ∧ (∀ color, color ∈ colors → color ∉ taken_colors self)
  ∧ taken_colors self' = taken_colors self ∪ list_to_set colors.
Proof.
  revert self rng colors.
  induction cat_ids as [|id ids IH]; intros self rng colors Hthings; cbn.
  - intros ?; simplify_eq. split; [constructor|]. split; [by intros ? ?%elem_of_nil|].
    set_solver.
  - apply Forall_cons in Hthings as [(c & Hc & Hthing) Hthings].
    destruct (get_color self id rng) as [[[color self1] rng1]| |] eqn:Hcall; cbn; [|done..].
    destruct (get_colors self1 ids rng1) as [[[colors1 self2] rng2]| |] eqn:Hrest;
      cbn; [|done..].
    intros ?; simplify_eq.
    destruct (get_color_thing _ _ _ _ _ _ _ Hc Hthing Hcall) as [Hfresh ->].
    apply IH in Hrest as (Hnodup & Hnew & Htaken); [|done].
    cbn in Hnew, Htaken.
    split; [|split].
    + constructor; [|done]. intros Hin. apply (Hnew _ Hin). set_solver.
    + intros color' [->|Hin]%elem_of_cons; [done|].
      specialize (Hnew _ Hin). set_solver.
    + rewrite Htaken. set_solver.
Qed.

(** C2. In a run of [get_color] calls on thing categories of a generator
    built from [cats], the returned colors are pairwise distinct, none is
    [(0,0,0)], none is the fixed color of a stuff category, and the set of
    taken colors only grows: what is taken after any number of the calls is
    still taken at the end. *)
Theorem get_color_unique (cats : gmap Z Category) (cat_ids : list Z)
    (rng : list draw) (colors : list RGB) (self' : IdGenerator) (rng' : list draw) :
  Forall (λ id, ∃ c, cats !! id = Some c ∧ cat_isthing c = true) cat_ids →
  get_colors (IdGenerator_init cats) cat_ids rng = Ok (colors, self', rng') →
  NoDup colors
  ∧ ((0, 0, 0) ∉ colors)
  ∧ (∀ c, c ∈ dict_values cats → cat_isthing c = false → cat_color c ∉ colors)
  ∧ (∀ n colors_n self_n rng_n,
       get_colors (IdGenerator_init cats) (take n cat_ids) rng
       = Ok (colors_n, self_n, rng_n) →
       taken_colors self_n ⊆ taken_colors self').
Proof.
  intros Hthings Hrun.
  destruct (get_colors_things (IdGenerator_init cats) _ _ _ _ _ Hthings Hrun)
    as (Hnodup & Hnew & Htaken).
  split; [done|]. split; [|split].
  - intros Hin. apply (Hnew _ Hin), init_black.
  - intros c Hc Hstuff Hin. apply (Hnew _ Hin). by apply init_fixed.
  - intros n colors_n self_n rng_n Hprefix.
    rewrite <- (take_drop n cat_ids), get_colors_app, Hprefix in Hrun. cbn in Hrun.
    destruct (get_colors self_n (drop n cat_ids) rng_n)
      as [[[colors2 self2] rng2]| |] eqn:Hrest; cbn in Hrun; [|done..].
    simplify_eq.
    by apply get_colors_preserves in Hrest as [_ ?].
Qed.

Lemma get_color_unique_witness :
  NoDup [(200, 0, 0); (11, 21, 31); (9, 19, 29)]
  ∧ ((0, 0, 0) ∉ [(200, 0, 0); (11, 21, 31); (9, 19, 29)])
  ∧ (∀ c, c ∈ dict_values demo_categories → cat_isthing c = false →
          cat_color c ∉ [(200, 0, 0); (11, 21, 31); (9, 19, 29)])
  ∧ (∀ n colors_n self_n rng_n,
       get_colors (IdGenerator_init demo_categories) (take n [3; 2; 2])
                  [(30, 30, 30); (31, 31, 31); (29, 29, 29)]
       = Ok (colors_n, self_n, rng_n) →
       taken_colors self_n ⊆ taken_colors demo_final).
Proof.
  apply (get_color_unique demo_categories [3; 2; 2]
           [(30, 30, 30); (31, 31, 31); (29, 29, 29)]
           [(200, 0, 0); (11, 21, 31); (9, 19, 29)] demo_final []).
  - repeat first [apply Forall_nil_2 | apply Forall_cons_2];
      eexists; (split; [vm_compute; reflexivity|reflexivity]).
  - vm_compute. reflexivity.
Defined.

Lemma reachable_categories (cats : gmap Z Category) (self : IdGenerator) :
  reachable cats self → categories self = cats.
Proof.
  induction 1 as [|self cat_id rng color self' rng' _ IH Hcall]; [done|].
  apply get_color_preserves in Hcall as [-> _]. done.
Qed.

Lemma get_colors_reachable (cats : gmap Z Category) (self : IdGenerator)
    (cat_ids : list Z) (rng : list draw) (colors : list RGB)
    (self' : IdGenerator) (rng' : list draw) :
  reachable cats self →
  get_colors self cat_ids rng = Ok (colors, self', rng') →
  reachable cats self'.
Proof.
  revert self rng colors. induction cat_ids as [|id ids IH]; intros self rng colors Hself; cbn.
  - intros ?; by simplify_eq.
  - destruct (get_color self id rng) as [[[color self1] rng1]| |] eqn:Hcall; cbn; [|done..].
    destruct (get_colors self1 ids rng1) as [[[colors1 self2] rng2]| |] eqn:Hrest;
      cbn; [|done..].
    intros ?; simplify_eq. eapply IH; [|done]. by eapply reachable_call.
Qed.

Lemma get_colors_lookup_stuff (self : IdGenerator) (cat_ids : list Z)
    (rng : list draw) (colors : list RGB) (self' : IdGenerator) (rng' : list draw)
    (cat_id : Z) (c : Category) (i : nat) :
  categories self !! cat_id = Some c → cat_isthing c = false →
  get_colors self cat_ids rng = Ok (colors, self', rng') →
  cat_ids !! i = Some cat_id → colors !! i = Some (cat_color c).
Proof.
  intros Hc Hstuff.
  revert self rng colors i Hc.
  induction cat_ids as [|id ids IH]; intros self rng colors i Hc; cbn; [done|].
  destruct (get_color self id rng) as [[[color self1] rng1]| |] eqn:Hcall; cbn; [|done..].
  destruct (get_colors self1 ids rng1) as [[[colors1 self2] rng2]| |] eqn:Hrest;
    cbn; [|done..].
  intros ? Hi; simplify_eq. destruct i as [|i]; cbn in *.
  - simplify_eq. rewrite (get_color_stuff _ _ _ _ Hc Hstuff) in Hcall. by simplify_eq.
  - eapply IH; [|done..].
    apply get_color_preserves in Hcall as [-> _]. done.
Qed.

(** C9. For a category with [isthing] false, every [get_color] call of a run
    returns the category's configured color and leaves the generator as it
    was, whatever was allocated before: in any state a run can reach, and at
    every position of any sequence of calls. *)
Theorem get_color_fixed (cats : gmap Z Category) (cat_id : Z) (c : Category) :
  cats !! cat_id = Some c → cat_isthing c = false →
  (∀ self rng, reachable cats self →
     get_color self cat_id rng = Ok (cat_color c, self, rng))
  ∧ (∀ cat_ids rng colors self' rng' i,
       get_colors (IdGenerator_init cats) cat_ids rng = Ok (colors, self', rng') →
       cat_ids !! i = Some cat_id → colors !! i = Some (cat_color c)).
Proof.
  intros Hc Hstuff. split.
  - intros self rng Hself. apply get_color_stuff; [|done].
    by rewrite (reachable_categories _ _ Hself).
  - intros cat_ids rng colors self' rng' i Hrun Hi.
    by eapply (get_colors_lookup_stuff (IdGenerator_init cats)).
Qed.

Lemma get_color_fixed_witness :
  (∀ self rng, reachable demo_categories self →
     get_color self 1 rng = Ok ((10, 20, 30), self, rng))
  ∧ (∀ cat_ids rng colors self' rng' i,
       get_colors (IdGenerator_init demo_categories) cat_ids rng
       = Ok (colors, self', rng') →
       cat_ids !! i = Some 1 → colors !! i = Some (10, 20, 30)).
Proof.
  apply (get_color_fixed demo_categories 1 (mkCategory 1 "road" (10, 20, 30) false)).
  - vm_compute. reflexivity.
  - reflexivity.
Defined.

(** A run that interleaves the stuff category with allocations. *)
Example get_colors_interleaved :
  get_colors (IdGenerator_init demo_categories) [1; 2; 1; 2; 1]
             [(31, 31, 31); (29, 29, 29)]
  = Ok ([(10, 20, 30); (11, 21, 31); (10, 20, 30); (9, 19, 29); (10, 20, 30)],
        demo_final_no_person, []).
Proof. vm_compute. reflexivity. Qed.

(** ** Lossless packing of label rasters *)

Lemma view_uint8_digits (v : Z) :
  view_uint8 v
  = [v mod 256; v / 256 mod 256; v / 256 / 256 mod 256; v / 256 / 256 / 256 mod 256].
Proof.
  unfold view_uint8. change 255 with (Z.ones 8).
  rewrite !Z.land_ones, !Z.shiftr_div_pow2 by lia.
  rewrite !Z.div_div by lia. reflexivity.
Qed.

Lemma land_low_high (lo hi k : Z) :
  0 ≤ k → 0 ≤ lo < 2 ^ k → Z.land lo (hi * 2 ^ k) = 0.
Proof.
  intros Hk Hlo. apply Z.bits_inj'. intros n Hn.
  rewrite Z.land_spec, Z.bits_0, <- Z.shiftl_mul_pow2 by done.
  destruct (Z.lt_ge_cases n k).
  - rewrite Z.shiftl_spec_low by done. apply andb_false_r.
  - rewrite <- (Z.mod_small lo (2 ^ k)) by done.
    rewrite Z.mod_pow2_bits_high by lia. reflexivity.
Qed.

Lemma lor_low_high (lo hi k : Z) :
  0 ≤ k → 0 ≤ lo < 2 ^ k → Z.lor lo (hi * 2 ^ k) = lo + hi * 2 ^ k.
Proof.
  intros Hk Hlo.
  rewrite <- Z.lxor_lor, <- Z.add_nocarry_lxor; auto using land_low_high.
Qed.

Lemma view_uint32_bytes (b0 b1 b2 : Z) :
  0 ≤ b0 < 256 → 0 ≤ b1 < 256 → 0 ≤ b2 < 256 →
  view_uint32 b0 b1 b2 0 = pack b0 b1 b2.
Proof.
  intros H0 H1 H2. unfold view_uint32, pack.
  rewrite Z.shiftl_0_l, Z.lor_0_r, !Z.shiftl_mul_pow2 by lia.
  rewrite (lor_low_high (b1 * 2 ^ 8) b2 16) by lia.
  replace (b1 * 2 ^ 8 + b2 * 2 ^ 16) with ((b1 + 256 * b2) * 2 ^ 8) by lia.
  rewrite (lor_low_high b0 _ 8) by lia. lia.
Qed.

Lemma stored_pixel (v : Z) :
  0 ≤ v < 2 ^ 32 → <[3%nat := 255]> (view_uint8 (cast UInt32 v)) = rgba_of v.
Proof.
  intros Hv. unfold cast, wrap_unsigned. rewrite Z.mod_small by done.
  rewrite view_uint8_digits. reflexivity.
Qed.

Lemma extract_stored_pixel (v : Z) :
  0 ≤ v < 2 ^ 24 → extract_pixel (rgba_of v) = Ok v.
Proof.
  intros Hv. unfold rgba_of, id2rgb_scalar; cbv zeta. cbn [extract_pixel].
  pose proof (Z.mod_pos_bound v 256).
  pose proof (Z.mod_pos_bound (v / 256) 256).
  pose proof (Z.mod_pos_bound (v / 256 / 256) 256).
  rewrite view_uint32_bytes by lia. by rewrite pack_digits.
Qed.

Lemma traverse_map_inverse {A B : Type} (f : B → result A) (g : A → B)
    (P : A → Prop) (l : list A) :
  (∀ a, P a → f (g a) = Ok a) → Forall P l → traverse f (map g l) = Ok l.
Proof.
  intros Hfg. induction 1 as [|a l Ha _ IH]; [done|].
  cbn. rewrite (Hfg a Ha). cbn. by rewrite IH.
Qed.

(** C4. For a uint32 label raster with all values below [2^24],
    [bitmap2file] produces a 4-channel 8-bit image whose pixel for id [v]
    holds the codec's bytes of [v] in R, G, B and 255 in alpha, and
    [extract_bitmap] recovers the raster from it. *)
Theorem bitmap2file_extract_roundtrip (bitmap : raster) :
  Forall (Forall (λ v, 0 ≤ v < 2 ^ 24)) bitmap →
  ∃ file : pixels,
    bitmap2file (NdArray UInt32 2 bitmap) true = Ok file
    ∧ file = map (map rgba_of) bitmap
    ∧ Forall (Forall (λ px, length px = 4%nat ∧ Forall (λ byte, 0 ≤ byte < 256) px)) file
    ∧ extract_bitmap file = Ok (NdArray UInt32 2 bitmap).
Proof.
  intros Hbitmap. exists (map (map rgba_of) bitmap).
  split; [|split; [done|split]].
  - cbn. f_equal. rewrite !map_map.
    apply map_ext_Forall. eapply Forall_impl; [exact Hbitmap|].
    intros row Hrow. cbn. rewrite !map_map.
    apply map_ext_Forall. eapply Forall_impl; [exact Hrow|].
    intros v Hv. cbv beta in Hv. apply stored_pixel. lia.
  - apply Forall_map, Forall_true. intros row.
    apply Forall_map, Forall_true. intros v.
    pose proof (id2rgb_scalar_bytes v) as Hbytes.
    unfold rgba_of. destruct (id2rgb_scalar v) as [[r g] b].
    split; [done|]. repeat first [apply Forall_nil_2 | apply Forall_cons_2]; cbv beta; lia.
  - unfold extract_bitmap.
    rewrite (traverse_map_inverse (traverse extract_pixel) (map rgba_of)
               (Forall (λ v, 0 ≤ v < 2 ^ 24)) bitmap); [done| |done].
    intros row Hrow.
    apply (traverse_map_inverse extract_pixel rgba_of (λ v, 0 ≤ v < 2 ^ 24));
      [|done].
    apply extract_stored_pixel.
Qed.

Lemma bitmap2file_extract_roundtrip_witness :
  ∃ file : pixels,
    bitmap2file (NdArray UInt32 2 [[0; 1; 258]; [65536; 16777215; 7]]) true = Ok file
    ∧ file = map (map rgba_of) [[0; 1; 258]; [65536; 16777215; 7]]
    ∧ Forall (Forall (λ px, length px = 4%nat ∧ Forall (λ byte, 0 ≤ byte < 256) px)) file
    ∧ extract_bitmap file = Ok (NdArray UInt32 2 [[0; 1; 258]; [65536; 16777215; 7]]).
Proof.
  apply (bitmap2file_extract_roundtrip [[0; 1; 258]; [65536; 16777215; 7]]).
  repeat first [apply Forall_nil_2 | apply Forall_cons_2]; cbv beta; lia.
Defined.

(** The alpha byte does not survive: an id that needs more than 24 bits
    comes back without its top byte. *)
Example bitmap2file_drops_high_byte :
  bitmap2file (NdArray UInt32 2 [[16777216 + 5]]) true ≫= extract_bitmap
  = Ok (NdArray UInt32 2 [[5]]).
Proof. reflexivity. Qed.

(** ** Semantic raster derivation *)

Lemma foldl_max_le (x : Z) (l : list Z) :
  x ≤ foldl Z.max x l ∧ ∀ y, y ∈ l → y ≤ foldl Z.max x l.
Proof.
  revert x. induction l as [|z l IH]; intros x; cbn.
  - split; [lia|]. by intros y ?%elem_of_nil.
  - destruct (IH (Z.max x z)) as [Hx Hl]. split; [lia|].
    intros y [->|Hy]%elem_of_cons; [lia|by apply Hl].
Qed.

Lemma max_default_le (l : list Z) (y : Z) : y ∈ l → y ≤ max_default l.
Proof.
  destruct l as [|x l]; [by intros ?%elem_of_nil|].
  cbn. destruct (foldl_max_le x l) as [Hx Hl].
  intros [->|Hy]%elem_of_cons; [done|by apply Hl].
Qed.

Lemma max_default_nonneg (l : list Z) : Forall (λ x, 0 ≤ x) l → 0 ≤ max_default l.
Proof.
  destruct l as [|x l]; [done|]. intros [Hx _]%Forall_cons.
  cbn. destruct (foldl_max_le x l) as [? _]. lia.
Qed.

Lemma setitem_in_range (l : list Z) (i v : Z) :
  0 ≤ i < Z.of_nat (length l) → setitem l i v = Ok (<[Z.to_nat i := v]> l).
Proof. intros Hi. unfold setitem. by rewrite decide_True. Qed.

(** The last annotation with a given id decides the table entry at that id;
    entries no annotation names are left alone. *)
Lemma fill_table_entries {N : Type} (annotations : list (annotation N))
    (table : list Z) (id_increment : Z) :
  Forall (λ a, 0 ≤ ann_id a < Z.of_nat (length table)) annotations →
  ∃ t, fill_table table annotations id_increment = Ok t
       ∧ length t = length table
       ∧ (∀ j : nat, (∀ a, a ∈ annotations → ann_id a ≠ Z.of_nat j) →
            t !! j = table !! j)
       ∧ (∀ l1 a l2, annotations = l1 ++ a :: l2 →
            (∀ b, b ∈ l2 → ann_id b ≠ ann_id a) →
            t !! Z.to_nat (ann_id a) = Some (ann_category_id a + id_increment)).
Proof.
  revert table. induction annotations as [|a0 rest IH]; intros table Hids.
  - exists table. cbn. split; [done|]. split; [done|]. split; [done|].
    by intros [|??] ???.
  - apply Forall_cons in Hids as [Ha0 Hrest]. cbn.
    rewrite setitem_in_range by done. cbn.
    set (table1 := <[Z.to_nat (ann_id a0) := ann_category_id a0 + id_increment]> table).
    destruct (IH table1) as (t & Ht & Hlen & Hkeep & Hlast).
    { unfold table1. by rewrite length_insert. }
    exists t. split; [done|]. unfold table1 in Hlen. rewrite length_insert in Hlen.
    split; [done|]. split.
    + intros j Hj. rewrite Hkeep.
      * unfold table1. apply list_lookup_insert_ne.
        specialize (Hj a0 (list_elem_of_here _ _)). lia.
      * intros a Ha. apply Hj. by right.
    + intros l1 a l2 Heq Hl2. destruct l1 as [|a1 l1]; cbn in Heq; simplify_eq.
      * rewrite <- (Z2Nat.id (ann_id a)) in Hl2 by lia.
        rewrite (Hkeep _ Hl2). unfold table1.
        apply list_lookup_insert_eq. lia.
      * by eapply Hlast.
Qed.

Lemma cast_uint32_small (v : Z) : 0 ≤ v < 2 ^ 32 → cast UInt32 v = v.
Proof. intros Hv. unfold cast, wrap_unsigned. by rewrite Z.mod_small. Qed.

(** C3, the claim as stated, fails: a raster value above every annotation
    id is not mapped to 0; the call raises. *)
Lemma get_semantic_bitmap_counterexample :
  let annotations :=
    [mkAnnotation (N:=Z) 1 5 "mask" []; mkAnnotation 2 7 "mask" []] in
  get_semantic_bitmap (Some [[0; 1]; [2; 3]]) (Some annotations) 1
  = Raise IndexError
  ∧ get_semantic_bitmap (Some [[0; 1]; [2; 3]]) (Some annotations) 1
    ≠ Ok (Some [[0; 6]; [8; 0]]).
Proof. split; [reflexivity|discriminate]. Qed.

(** C3, amended. For a uint32 instance raster and annotations with
    non-negative ids, when no raster value exceeds the largest annotation id
    (0 for an empty list), [get_semantic_bitmap] returns a raster of the same
    shape in which a value no annotation names (0 included) becomes 0 and a
    value some annotation names becomes [category_id + id_increment] of the
    last annotation with that id; raster [[0,1],[2,1]] with annotations
    [{id:1,category_id:5},{id:2,category_id:7}] and increment 1 yields
    [[0,6],[8,6]]. *)
Theorem get_semantic_bitmap_lookup {N : Type} (instance_bitmap : raster)
    (annotations : list (annotation N)) (id_increment : Z) :
  Forall (λ a, 0 ≤ ann_id a) annotations →
  Forall (Forall (λ v, 0 ≤ v < 2 ^ 32
                       ∧ v ≤ max_default (ann_id <$> annotations)))
         instance_bitmap →
  (∃ semantic_label,
     get_semantic_bitmap (Some instance_bitmap) (Some annotations) id_increment
     = Ok (Some semantic_label)
     ∧ Forall2 (Forall2 (semantic_of annotations id_increment))
               instance_bitmap semantic_label)
  ∧ get_semantic_bitmap (Some [[0; 1]; [2; 1]])
      (Some [mkAnnotation (N:=N) 1 5 "mask" []; mkAnnotation 2 7 "mask" []]) 1
    = Ok (Some [[0; 6]; [8; 6]]).
Proof.
  intros Hids Hbitmap. split; [|reflexivity].
  set (m := max_default (ann_id <$> annotations)) in *.
  assert (0 ≤ m) as Hm.
  { apply max_default_nonneg. by apply Forall_fmap. }
  set (table := replicate (Z.to_nat (m + 1)) 0).
  destruct (fill_table_entries annotations table id_increment)
    as (t & Ht & Hlen & Hkeep & Hlast).
  { apply Forall_forall. intros a Ha.
    rewrite Forall_forall in Hids. specialize (Hids a Ha).
    unfold table. rewrite length_replicate.
    assert (ann_id a ≤ m) by (by apply max_default_le, list_elem_of_fmap_2).
    lia. }
  unfold table in Hlen. rewrite length_replicate in Hlen.
  destruct (traverse_Forall2
              (traverse (λ v, index_table t (cast UInt32 v)))
              (Forall (λ v, 0 ≤ v < 2 ^ 32 ∧ v ≤ m))
              (Forall2 (semantic_of annotations id_increment))
              instance_bitmap) as (out & Hout & Hsem); [|done|].
  - intros row Hrow.
    apply (traverse_Forall2 _ (λ v, 0 ≤ v < 2 ^ 32 ∧ v ≤ m)); [|done].
    intros v [Hv Hvm]. rewrite cast_uint32_small by done.
    unfold index_table, getitem.
    destruct (t !! Z.to_nat v) as [o|] eqn:Ho.
    2:{ apply lookup_ge_None in Ho. lia. }
    exists o. split; [done|]. split.
    + intros Hnone. rewrite Hkeep in Ho.
      * unfold table in Ho. apply lookup_replicate in Ho as [-> _]. done.
      * intros a Ha. rewrite Z2Nat.id by lia. by apply Hnone.
    + intros l1 a l2 Heq <- Hl2.
      rewrite (Hlast l1 a l2 Heq Hl2) in Ho. by simplify_eq.
  - exists out. split; [|done].
    unfold get_semantic_bitmap. fold m. fold table. rewrite Ht. cbn -[cast].
    by rewrite Hout.
Qed.

Lemma get_semantic_bitmap_lookup_witness :
  (∃ semantic_label,
     get_semantic_bitmap (Some [[0; 3]; [2; 1]])
       (Some [mkAnnotation (N:=Z) 1 5 "mask" []; mkAnnotation 3 7 "mask" [];
              mkAnnotation 1 9 "mask" []]) 1
     = Ok (Some semantic_label)
     ∧ Forall2 (Forall2 (semantic_of
                  [mkAnnotation (N:=Z) 1 5 "mask" []; mkAnnotation 3 7 "mask" [];
                   mkAnnotation 1 9 "mask" []] 1))
               [[0; 3]; [2; 1]] semantic_label)
  ∧ get_semantic_bitmap (Some [[0; 1]; [2; 1]])
      (Some [mkAnnotation (N:=Z) 1 5 "mask" []; mkAnnotation 2 7 "mask" []]) 1
    = Ok (Some [[0; 6]; [8; 6]]).
Proof.
  apply (get_semantic_bitmap_lookup (N:=Z) [[0; 3]; [2; 1]]
           [mkAnnotation 1 5 "mask" []; mkAnnotation 3 7 "mask" [];
            mkAnnotation 1 9 "mask" []] 1).
  - repeat first [apply Forall_nil_2 | apply Forall_cons_2]; cbn; lia.
  - repeat first [apply Forall_nil_2 | apply Forall_cons_2]; cbn; lia.
Defined.

(** With a repeated id the later annotation wins. *)
Example get_semantic_bitmap_last_wins :
  get_semantic_bitmap (Some [[0; 3]; [2; 1]])
    (Some [mkAnnotation (N:=Z) 1 5 "mask" []; mkAnnotation 3 7 "mask" [];
           mkAnnotation 1 9 "mask" []]) 1
  = Ok (Some [[0; 8]; [0; 10]]).
Proof. reflexivity. Qed.

(** A raster value above every annotation id falls outside the table. *)
Lemma traverse_ok_or_raise {A B : Type} (f : A → result B) (e : exn) (l : list A) :
  (∀ a, (∃ b, f a = Ok b) ∨ f a = Raise e) →
  (∃ bs, traverse f l = Ok bs) ∨ traverse f l = Raise e.
Proof.
  intros Hf. induction l as [|a l IH]; cbn; [eauto|].
  destruct (Hf a) as [[b ->]| ->]; cbn; [|auto].
  destruct IH as [[bs ->]| ->]; cbn; eauto.
Qed.

Lemma traverse_raise {A B : Type} (f : A → result B) (e : exn) (l : list A) :
  (∀ a, (∃ b, f a = Ok b) ∨ f a = Raise e) →
  Exists (λ a, f a = Raise e) l → traverse f l = Raise e.
Proof.
  intros Hf. induction 1 as [a l Ha|a l _ IH]; cbn.
  - by rewrite Ha.
  - destruct (Hf a) as [[b ->]| ->]; cbn; [|done]. by rewrite IH.
Qed.

Lemma get_semantic_bitmap_out_of_range {N : Type} (instance_bitmap : raster)
    (annotations : list (annotation N)) (id_increment : Z) :
  Forall (λ a, 0 ≤ ann_id a) annotations →
  Forall (Forall (λ v, 0 ≤ v < 2 ^ 32)) instance_bitmap →
  Exists (Exists (λ v, max_default (ann_id <$> annotations) < v)) instance_bitmap →
  get_semantic_bitmap (Some instance_bitmap) (Some annotations) id_increment
  = Raise IndexError.
Proof.
  intros Hids Hrange Hbig.
  set (m := max_default (ann_id <$> annotations)) in *.
  assert (0 ≤ m) as Hm.
  { apply max_default_nonneg. by apply Forall_fmap. }
  set (table := replicate (Z.to_nat (m + 1)) 0).
  destruct (fill_table_entries annotations table id_increment)
    as (t & Ht & Hlen & _).
  { apply Forall_forall. intros a Ha.
    rewrite Forall_forall in Hids. specialize (Hids a Ha).
    unfold table. rewrite length_replicate.
    assert (ann_id a ≤ m) by (by apply max_default_le, list_elem_of_fmap_2).
    lia. }
  unfold table in Hlen. rewrite length_replicate in Hlen.
  unfold get_semantic_bitmap. fold m. fold table. rewrite Ht. cbn -[cast].
  assert (∀ v, (∃ o, index_table t (cast UInt32 v) = Ok o)
               ∨ index_table t (cast UInt32 v) = Raise IndexError) as Hcell.
  { intros v. unfold index_table, getitem. destruct (t !! _); eauto. }
  rewrite (traverse_raise _ IndexError); [done| |].
  - intros row. by apply traverse_ok_or_raise.
  - rewrite Forall_forall in Hrange.
    apply Exists_exists in Hbig as (row & Hrow & Hbig).
    apply Exists_exists. exists row. split; [done|].
    apply traverse_raise; [done|].
    specialize (Hrange row Hrow). rewrite Forall_forall in Hrange.
    apply Exists_exists in Hbig as (v & Hv & Hbig).
    apply Exists_exists. exists v. split; [done|].
    rewrite cast_uint32_small by auto.
    unfold index_table, getitem.
    rewrite (proj2 (lookup_ge_None t (Z.to_nat v))); [done|lia].
Qed.

(** C10. [get_semantic_bitmap] returns [None] whenever its bitmap argument
    is [None] or its annotations argument is [None], whatever the other
    arguments are. *)
Theorem get_semantic_bitmap_none {N : Type} (instance_bitmap : option raster)
    (annotations : option (list (annotation N))) (id_increment : Z) :
  get_semantic_bitmap None annotations id_increment = Ok None
  ∧ get_semantic_bitmap instance_bitmap (@None (list (annotation N))) id_increment
    = Ok None.
Proof. split; [reflexivity|]. by destruct instance_bitmap. Qed.

(** ** Format emitters *)

Section EmitterProperties.
Context `{Externals}.

Lemma io_bind_ok {A B : Type} (m : io A) (k : A → io B) (w w' : world) (b : B) :
  (m ≫= k) w = (Ok b, w') → ∃ a w1, m w = (Ok a, w1) ∧ k a w1 = (Ok b, w').
Proof.
  unfold mbind, io_mbind, io_bind.
  destruct (m w) as [[a| |] w1]; [eauto|done..].
Qed.

Lemma io_ret_ok {A : Type} (a b : A) (w w' : world) :
  mret (M:=io) a w = (Ok b, w') → a = b ∧ w = w'.
Proof. by intros [= -> ->]. Qed.

(** A sample with [annotations = None] leaves every loop body at its
    [continue]: nothing is assigned, nothing happens to the world. *)
Lemma coco_instance_sample_null (task_type : string) (i : nat) (s : sample)
    (st : list coco_image * list coco_annotation * Z) :
  s_annotations s = Null → coco_instance_sample task_type i s st = mret st.
Proof.
  intros Hnull. unfold coco_instance_sample. destruct st as [[??]?]. by rewrite Hnull.
Qed.

Lemma coco_panoptic_sample_null (dataset : SegmentsDataset) (i : nat) (s : sample)
    (st : IdGenerator * list coco_image * list panoptic_annotation) :
  s_annotations s = Null → coco_panoptic_sample dataset i s st = mret st.
Proof.
  intros Hnull. unfold coco_panoptic_sample. destruct st as [[??]?]. by rewrite Hnull.
Qed.

Lemma export_image_sample_null (dataset : SegmentsDataset)
    (cats : list image_category) (export_format : string) (id_increment : Z)
    (i : nat) (s : sample) (st : unit) :
  s_annotations s = Null →
  export_image_sample dataset cats export_format id_increment i s st = mret st.
Proof. intros Hnull. unfold export_image_sample. by rewrite Hnull. Qed.

Lemma export_yolo_sample_null (dataset : SegmentsDataset) (i : nat) (s : sample)
    (st : unit) :
  s_annotations s = Null → export_yolo_sample dataset i s st = mret st.
Proof. intros Hnull. unfold export_yolo_sample. by rewrite Hnull. Qed.

Lemma for_samples_skip {St : Type} (body : nat → sample → St → io St) (i : nat)
    (s : sample) (rest : list sample) (st : St) (w : world) :
  body i s st = mret st →
  for_samples body i (s :: rest) st w = for_samples body (S i) rest st w.
Proof. intros Hskip. cbn. unfold mbind, io_mbind, io_bind. by rewrite Hskip. Qed.

(** The annotation loop of [export_coco_instance] only appends entries of
    the current image. *)
Lemma coco_instance_annotations_image_id (task_type : string) (s : sample)
    (regions : gmap Z region) (image_id : Z) (instances : list (annotation num))
    (annotations0 annotations : list coco_annotation) (k0 k : Z) (w w' : world) :
  for_each (coco_instance_annotation task_type s regions image_id) instances
           (annotations0, k0) w = (Ok (annotations, k), w') →
  ∀ a, a ∈ annotations → a ∈ annotations0 ∨ ca_image_id a = image_id.
Proof.
  revert annotations0 k0 w.
  induction instances as [|instance instances IH]; intros annotations0 k0 w; cbn.
  - intros [? _]%io_ret_ok; simplify_eq. auto.
  - intros ([anns1 k1] & w1 & Hstep & Hrest)%io_bind_ok a Ha.
    destruct (IH _ _ _ Hrest a Ha) as [Hin|]; [|auto].
    revert Hstep. unfold coco_instance_annotation.
    repeat case_decide.
    + destruct (regions !! ann_id instance) as [region|].
      * intros (bitmap & w2 & _ & Hret)%io_bind_ok.
        destruct (region_bbox region) as [[[y0 x0] y1] x1].
        apply io_ret_ok in Hret as [? _]; simplify_eq.
        apply elem_of_app in Hin as [?| ->%list_elem_of_singleton]; auto.
      * intros (? & w2 & _ & [? _]%io_ret_ok)%io_bind_ok. simplify_eq. auto.
    + intros (x0 & ? & _ & (y0 & ? & _ & (x1 & ? & _ & (y1 & ? & _ & Hret)%io_bind_ok)
                %io_bind_ok)%io_bind_ok)%io_bind_ok.
      apply io_ret_ok in Hret as [? _]; simplify_eq.
      apply elem_of_app in Hin as [?| ->%list_elem_of_singleton]; auto.
    + done.
Qed.

(** The entries [export_coco_instance] collects all come from samples that
    have an annotation list: an image entry with id [i + 1] and annotation
    entries with image id [i + 1] exist only for such a sample at index
    [i]. *)
Lemma coco_instance_entries (task_type : string) (samples : list sample) (i0 : nat)
    (images0 images : list coco_image) (annotations0 annotations : list coco_annotation)
    (k0 k : Z) (w w' : world) :
  for_samples (coco_instance_sample task_type) i0 samples (images0, annotations0, k0) w
  = (Ok (images, annotations, k), w') →
  (∀ im, im ∈ images → im ∈ images0 ∨
     ∃ j s l, samples !! j = Some s ∧ s_annotations s = Present l
              ∧ ci_id im = Z.of_nat (i0 + j) + 1)
  ∧ (∀ a, a ∈ annotations → a ∈ annotations0 ∨
     ∃ j s l, samples !! j = Some s ∧ s_annotations s = Present l
              ∧ ca_image_id a = Z.of_nat (i0 + j) + 1).
Proof.
  revert i0 images0 annotations0 k0 w.
  induction samples as [|s samples IH]; intros i0 images0 annotations0 k0 w; cbn.
  - intros [? _]%io_ret_ok; simplify_eq. auto.
  - intros ([[images1 annotations1] k1] & w1 & Hstep & Hrest)%io_bind_ok.
    apply IH in Hrest as [Himages Hannotations].
    assert ((∀ im, im ∈ images1 → im ∈ images0 ∨
               ∃ l, s_annotations s = Present l ∧ ci_id im = Z.of_nat i0 + 1)
            ∧ (∀ a, a ∈ annotations1 → a ∈ annotations0 ∨
               ∃ l, s_annotations s = Present l ∧ ca_image_id a = Z.of_nat i0 + 1))
      as [Himages1 Hannotations1].
    { revert Hstep. unfold coco_instance_sample.
      destruct (s_annotations s) as [| |l]; [done| |].
      - intros [? _]%io_ret_ok; simplify_eq. auto.
      - intros (bitmap & w2 & _ & ([anns2 k2] & w3 & Hloop & Hret)%io_bind_ok)%io_bind_ok.
        apply io_ret_ok in Hret as [? _]; simplify_eq. split.
        + intros im [?| ->%list_elem_of_singleton]%elem_of_app; [auto|].
          right. by exists l.
        + intros a Ha.
          destruct (coco_instance_annotations_image_id _ _ _ _ _ _ _ _ _ _ _ Hloop a Ha);
            [auto|]. right. by exists l. }
    split.
    + intros im Him. destruct (Himages im Him) as [Him1|(j & s' & l & ? & ? & ?)].
      * destruct (Himages1 im Him1) as [|(l & ? & ?)]; [auto|].
        right. exists 0%nat, s, l. repeat split; [done..|]. lia.
      * right. exists (S j), s', l. repeat split; [done..|]. lia.
    + intros a Ha. destruct (Hannotations a Ha) as [Ha1|(j & s' & l & ? & ? & ?)].
      * destruct (Hannotations1 a Ha1) as [|(l & ? & ?)]; [auto|].
        right. exists 0%nat, s, l. repeat split; [done..|]. lia.
      * right. exists (S j), s', l. repeat split; [done..|]. lia.
Qed.

(** The same for [export_coco_panoptic]. *)
Lemma coco_panoptic_entries (dataset : SegmentsDataset) (samples : list sample)
    (i0 : nat) (g0 g : IdGenerator) (images0 images : list coco_image)
    (annotations0 annotations : list panoptic_annotation) (w w' : world) :
  for_samples (coco_panoptic_sample dataset) i0 samples (g0, images0, annotations0) w
  = (Ok (g, images, annotations), w') →
  (∀ im, im ∈ images → im ∈ images0 ∨
     ∃ j s l, samples !! j = Some s ∧ s_annotations s = Present l
              ∧ ci_id im = Z.of_nat (i0 + j) + 1)
  ∧ (∀ a, a ∈ annotations → a ∈ annotations0 ∨
     ∃ j s l, samples !! j = Some s ∧ s_annotations s = Present l
              ∧ pa_image_id a = Z.of_nat (i0 + j) + 1).
Proof.
  revert i0 g0 images0 annotations0 w.
  induction samples as [|s samples IH]; intros i0 g0 images0 annotations0 w; cbn.
  - intros [? _]%io_ret_ok; simplify_eq. auto.
  - intros ([[g1 images1] annotations1] & w1 & Hstep & Hrest)%io_bind_ok.
    apply IH in Hrest as [Himages Hannotations].
    assert ((∀ im, im ∈ images1 → im ∈ images0 ∨
               ∃ l, s_annotations s = Present l ∧ ci_id im = Z.of_nat i0 + 1)
            ∧ (∀ a, a ∈ annotations1 → a ∈ annotations0 ∨
               ∃ l, s_annotations s = Present l ∧ pa_image_id a = Z.of_nat i0 + 1))
      as [Himages1 Hannotations1].
    { revert Hstep. unfold coco_panoptic_sample.
      destruct (s_annotations s) as [| |l]; [done| |].
      - intros [? _]%io_ret_ok; simplify_eq. auto.
      - intros (size & w2 & _ & (bitmap & w3 & _ &
                 ([[g2 label] infos] & w4 & _ & (? & w5 & _ & Hret)%io_bind_ok)
                 %io_bind_ok)%io_bind_ok)%io_bind_ok.
        apply io_ret_ok in Hret as [? _]; simplify_eq. split.
        + intros im [?| ->%list_elem_of_singleton]%elem_of_app; [auto|].
          right. by exists l.
        + intros a [?| ->%list_elem_of_singleton]%elem_of_app; [auto|].
          right. by exists l. }
    split.
    + intros im Him. destruct (Himages im Him) as [Him1|(j & s' & l & ? & ? & ?)].
      * destruct (Himages1 im Him1) as [|(l & ? & ?)]; [auto|].
        right. exists 0%nat, s, l. repeat split; [done..|]. lia.
      * right. exists (S j), s', l. repeat split; [done..|]. lia.
    + intros a Ha. destruct (Hannotations a Ha) as [Ha1|(j & s' & l & ? & ? & ?)].
      * destruct (Hannotations1 a Ha1) as [|(l & ? & ?)]; [auto|].
        right. exists 0%nat, s, l. repeat split; [done..|]. lia.
      * right. exists (S j), s', l. repeat split; [done..|]. lia.
Qed.

(** C7. In each of the four emitters a sample whose [annotations] is [None]
    is passed over: the sample loop goes on with the remaining samples from
    the same variables and the same world, so nothing is raised, no entry is
    added and no file is written for it; and the lists the COCO emitters
    collect hold no image entry and no annotation entry for its index. *)
Theorem null_annotations_skipped (dataset : SegmentsDataset) (task_type : string)
    (s : sample) :
  s_annotations s = Null →
  (∀ i rest st w,
     for_samples (coco_instance_sample task_type) i (s :: rest) st w
     = for_samples (coco_instance_sample task_type) (S i) rest st w)
  ∧ (∀ i rest st w,
       for_samples (coco_panoptic_sample dataset) i (s :: rest) st w
       = for_samples (coco_panoptic_sample dataset) (S i) rest st w)
  ∧ (∀ cats export_format id_increment i rest st w,
       for_samples (export_image_sample dataset cats export_format id_increment)
                   i (s :: rest) st w
       = for_samples (export_image_sample dataset cats export_format id_increment)
                     (S i) rest st w)
  ∧ (∀ i rest st w,
       for_samples (export_yolo_sample dataset) i (s :: rest) st w
       = for_samples (export_yolo_sample dataset) (S i) rest st w)
  ∧ (∀ samples j images annotations k w w',
       samples !! j = Some s →
       for_samples (coco_instance_sample task_type) 0 samples ([], [], 1) w
       = (Ok (images, annotations, k), w') →
       (∀ im, im ∈ images → ci_id im ≠ Z.of_nat j + 1)
       ∧ (∀ a, a ∈ annotations → ca_image_id a ≠ Z.of_nat j + 1))
  ∧ (∀ samples j g0 g images annotations w w',
       samples !! j = Some s →
       for_samples (coco_panoptic_sample dataset) 0 samples (g0, [], []) w
       = (Ok (g, images, annotations), w') →
       (∀ im, im ∈ images → ci_id im ≠ Z.of_nat j + 1)
       ∧ (∀ a, a ∈ annotations → pa_image_id a ≠ Z.of_nat j + 1)).
Proof.
  intros Hnull. repeat split.
  - intros. by apply for_samples_skip, coco_instance_sample_null.
  - intros. by apply for_samples_skip, coco_panoptic_sample_null.
  - intros. by apply for_samples_skip, export_image_sample_null.
  - intros. by apply for_samples_skip, export_yolo_sample_null.
  - intros im Him Hid.
    match goal with Hrun : for_samples _ _ _ _ _ = _ |- _ =>
      apply coco_instance_entries in Hrun as [Himages _] end.
    destruct (Himages im Him) as [?%elem_of_nil|(j' & s' & l & Hs' & Hl & Hid')]; [done|].
    assert (j' = j) as -> by lia. congruence.
  - intros a Ha Hid.
    match goal with Hrun : for_samples _ _ _ _ _ = _ |- _ =>
      apply coco_instance_entries in Hrun as [_ Hannotations] end.
    destruct (Hannotations a Ha) as [?%elem_of_nil|(j' & s' & l & Hs' & Hl & Hid')]; [done|].
    assert (j' = j) as -> by lia. congruence.
  - intros im Him Hid.
    match goal with Hrun : for_samples _ _ _ _ _ = _ |- _ =>
      apply coco_panoptic_entries in Hrun as [Himages _] end.
    destruct (Himages im Him) as [?%elem_of_nil|(j' & s' & l & Hs' & Hl & Hid')]; [done|].
    assert (j' = j) as -> by lia. congruence.
  - intros a Ha Hid.
    match goal with Hrun : for_samples _ _ _ _ _ = _ |- _ =>
      apply coco_panoptic_entries in Hrun as [_ Hannotations] end.
    destruct (Hannotations a Ha) as [?%elem_of_nil|(j' & s' & l & Hs' & Hl & Hid')]; [done|].
    assert (j' = j) as -> by lia. congruence.
Qed.

(** C8. When the task type of the dataset does not fit the requested
    format, [export_dataset] raises [ValueError] right after its opening
    message: the world holds no directory, file or log entry it did not hold
    before, and the samples are never looked at; [export_yolo] called on its
    own refuses a task type other than vector and bboxes in the same way. *)
Theorem export_dataset_incompatible (dataset : SegmentsDataset)
    (export_folder export_format : string) (id_increment : Z) (w : world) :
  incompatible export_format (ds_task_type dataset) →
  export_dataset dataset export_folder export_format id_increment w
  = (Raise (ValueError (if decide (export_format = "yolo") then boxes_only
                        else bitmap_only)),
     printed w)
  ∧ (export_format = "yolo" →
     export_yolo dataset export_folder w
     = (Raise (ValueError "You can only export bounding box datasets to YOLO format."),
        w)).
Proof.
  intros [[Hformat Htask]|[-> Htask]].
  - split.
    + unfold export_dataset, bitmap_formats in *.
      repeat (apply elem_of_cons in Hformat as [->|Hformat]);
        [..|by apply elem_of_nil in Hformat];
        cbn; unfold mbind, io_mbind, io_bind; cbn;
        repeat (case_decide; try done);
        exfalso;
        match goal with
        | Hformat : _ ∉ ["semantic-color"; _; _; _] |- _ => apply Hformat; set_solver
        end.
    + intros ->. unfold bitmap_formats in Hformat.
      repeat (apply elem_of_cons in Hformat as [?|Hformat]; [done|]).
      by apply elem_of_nil in Hformat.
  - split.
    + unfold export_dataset. cbn. unfold mbind, io_mbind, io_bind. cbn.
      repeat (case_decide; try done).
    + intros _. unfold export_yolo. by rewrite decide_True.
Qed.

End EmitterProperties.

(** ** The emitters at work *)

(** The unlabeled first sample leaves no trace in the COCO instance
    document; the image of the second keeps its id 2. *)
Example export_coco_instance_runs :
  export_coco_instance
    (example_dataset "segmentation-bitmap" [example_unlabeled; example_labeled])
    "out" empty_world
  = (Ok ("out/export_coco-instance_owner_set_v1.json", "images"),
     {| trace :=
          [ LogInfo "Exported to out/export_coco-instance_owner_set_v1.json. Images and labels in images";
            WriteFile "out/export_coco-instance_owner_set_v1.json"
              (CocoInstanceJson (mkInfo "set" "v1") []
                 [mkCocoImage 2 "b.png" (Some 2) (Some 3)]
                 [ mkCocoAnnotation 1 2 5 (inject_Z <$> [1; 0; 2; 2])
                     (Some (mkRle [2; 3] "")) (Some 3) (Some 0);
                   mkCocoAnnotation 2 2 7 (inject_Z <$> [0; 1; 1; 1])
                     (Some (mkRle [2; 3] "")) (Some 1) (Some 0) ]);
            MakeDirs "out" ];
        random_source := [] |}).
Proof. reflexivity. Qed.

Lemma null_annotations_skipped_witness :
  s_annotations example_unlabeled = Null
  ∧ ∀ i rest st w,
      for_samples (coco_instance_sample "segmentation-bitmap") i
                  (example_unlabeled :: rest) st w
      = for_samples (coco_instance_sample "segmentation-bitmap") (S i) rest st w.
Proof.
  split; [reflexivity|].
  apply (null_annotations_skipped
           (example_dataset "segmentation-bitmap" [example_unlabeled; example_labeled])
           "segmentation-bitmap" example_unlabeled).
  reflexivity.
Defined.

Lemma export_dataset_incompatible_witness :
  export_dataset (example_dataset "bboxes" [example_labeled]) "out" "coco-panoptic" 1
                 empty_world
  = (Raise (ValueError bitmap_only), printed empty_world)
  ∧ ("coco-panoptic" = "yolo" →
     export_yolo (example_dataset "bboxes" [example_labeled]) "out" empty_world
     = (Raise (ValueError "You can only export bounding box datasets to YOLO format."),
        empty_world)).
Proof.
  apply (export_dataset_incompatible (example_dataset "bboxes" [example_labeled])
           "out" "coco-panoptic" 1 empty_world).
  left. split.
  - unfold bitmap_formats. set_solver.
  - cbn. set_solver.
Defined.

(** The bbox [(10,20)-(50,80)] on a 100×200 image, in exact arithmetic. *)
Example yolo_line_exact :
  yolo_line 100 200
    (mkAnnotation 1 3 "bbox" [[inject_Z 10; inject_Z 20]; [inject_Z 50; inject_Z 80]])
  = Ok ("3 0.300000 0.250000 0.400000 0.300000" +:+ String (Ascii.ascii_of_nat 10) "").
Proof. reflexivity. Qed.

(** ** YOLO lines on Python floats *)

Lemma digits2_pos_bounds (p : positive) :
  2 ^ (Z.pos (digits2_pos p) - 1) ≤ Z.pos p < 2 ^ Z.pos (digits2_pos p).
Proof.
  induction p as [p IH|p IH|]; cbn [digits2_pos]; [| |cbn; lia].
  - rewrite Pos2Z.inj_succ, (Pos2Z.inj_xI p).
    replace (Z.succ (Z.pos (digits2_pos p)) - 1)
      with (Z.succ (Z.pos (digits2_pos p) - 1)) by lia.
    rewrite !Z.pow_succ_r by lia.
    generalize dependent (2 ^ (Z.pos (digits2_pos p) - 1)).
    generalize dependent (2 ^ Z.pos (digits2_pos p)). intros; lia.
  - rewrite Pos2Z.inj_succ, (Pos2Z.inj_xO p).
    replace (Z.succ (Z.pos (digits2_pos p)) - 1)
      with (Z.succ (Z.pos (digits2_pos p) - 1)) by lia.
    rewrite !Z.pow_succ_r by lia.
    generalize dependent (2 ^ (Z.pos (digits2_pos p) - 1)).
    generalize dependent (2 ^ Z.pos (digits2_pos p)). intros; lia.
Qed.

Lemma Zdigits2_le (q j : Z) : 0 ≤ q → 0 ≤ j → q < 2 ^ j → Zdigits2 q ≤ j.
Proof.
  intros Hq Hj Hlt. destruct q as [|p|p]; [done| |lia]. cbn [Zdigits2].
  pose proof (digits2_pos_bounds p) as [Hlo _].
  assert (2 ^ (Z.pos (digits2_pos p) - 1) < 2 ^ j) as Hpow by lia.
  apply Z.pow_lt_mono_r_iff in Hpow; lia.
Qed.

Lemma shr_1_spec (mrs : shr_record) :
  0 ≤ shr_m mrs →
  shr_m (shr_1 mrs) = shr_m mrs / 2
  ∧ (exact_record mrs → (2 | shr_m mrs) → exact_record (shr_1 mrs)).
Proof.
  destruct mrs as [m r s]. unfold exact_record. cbn [shr_m shr_r shr_s]. intros Hm.
  destruct m as [|[p|p|]|p]; cbn [shr_1 shr_m shr_r shr_s orb]; [| | | |lia].
  - split; [done|]. by intros [-> ->].
  - split.
    + rewrite (Pos2Z.inj_xI p). apply (Z.div_unique _ _ _ 1); lia.
    + intros _ [t Ht]. lia.
  - split.
    + rewrite (Pos2Z.inj_xO p). apply (Z.div_unique _ _ _ 0); lia.
    + by intros [-> ->].
  - split; [done|]. intros _ [t Ht]. lia.
Qed.

Lemma iter_shr_1_spec (n : positive) (mrs : shr_record) :
  0 ≤ shr_m mrs →
  shr_m (SpecFloat.iter_pos shr_1 n mrs) = shr_m mrs / 2 ^ Z.pos n
  ∧ (exact_record mrs → (2 ^ Z.pos n | shr_m mrs) → exact_record (SpecFloat.iter_pos shr_1 n mrs)).
Proof.
  revert mrs. induction n as [n IH|n IH|]; intros mrs Hm; cbn [SpecFloat.iter_pos].
  - destruct (shr_1_spec mrs Hm) as [H1 E1].
    assert (0 ≤ shr_m (shr_1 mrs)) as Hm1 by (rewrite H1; apply Z.div_pos; lia).
    destruct (IH _ Hm1) as [H2 E2].
    assert (0 ≤ shr_m (SpecFloat.iter_pos shr_1 n (shr_1 mrs))) as Hm2
      by (rewrite H2; apply Z.div_pos; lia).
    destruct (IH _ Hm2) as [H3 E3].
    assert (0 < 2 ^ Z.pos n) as Hpos by (apply Z.pow_pos_nonneg; lia).
    assert (2 ^ Z.pos n~1 = 2 * 2 ^ Z.pos n * 2 ^ Z.pos n) as Hpow.
    { rewrite (Pos2Z.inj_xI n).
      replace (2 * Z.pos n + 1) with (Z.succ (Z.pos n + Z.pos n)) by lia.
      rewrite Z.pow_succ_r, Z.pow_add_r by lia. lia. }
    split.
    + rewrite H3, H2, H1, Hpow, !Z.div_div by lia. f_equal; lia.
    + intros Hex [t Ht]. rewrite Hpow in Ht.
      apply E3; [apply E2; [apply E1; [done|]|]|].
      * exists (2 ^ Z.pos n * 2 ^ Z.pos n * t). lia.
      * rewrite H1. exists (2 ^ Z.pos n * t).
        rewrite Ht. replace (t * (2 * 2 ^ Z.pos n * 2 ^ Z.pos n))
          with ((2 ^ Z.pos n * t * 2 ^ Z.pos n) * 2) by lia.
        by rewrite Z.div_mul.
      * rewrite H2, H1, Z.div_div by lia. exists t.
        rewrite Ht. replace (t * (2 * 2 ^ Z.pos n * 2 ^ Z.pos n))
          with ((t * 2 ^ Z.pos n) * (2 * 2 ^ Z.pos n)) by lia.
        rewrite Z.div_mul by lia. done.
  - destruct (IH _ Hm) as [H2 E2].
    assert (0 ≤ shr_m (SpecFloat.iter_pos shr_1 n mrs)) as Hm2
      by (rewrite H2; apply Z.div_pos; lia).
    destruct (IH _ Hm2) as [H3 E3].
    assert (0 < 2 ^ Z.pos n) as Hpos by (apply Z.pow_pos_nonneg; lia).
    assert (2 ^ Z.pos n~0 = 2 ^ Z.pos n * 2 ^ Z.pos n) as Hpow.
    { rewrite (Pos2Z.inj_xO n).
      replace (2 * Z.pos n) with (Z.pos n + Z.pos n) by lia.
      by rewrite Z.pow_add_r by lia. }
    split.
    + rewrite H3, H2, Hpow, !Z.div_div by lia. f_equal; lia.
    + intros Hex [t Ht]. rewrite Hpow in Ht.
      apply E3; [apply E2; [done|]|].
      * exists (2 ^ Z.pos n * t). lia.
      * rewrite H2. exists t.
        rewrite Ht. replace (t * (2 ^ Z.pos n * 2 ^ Z.pos n))
          with ((t * 2 ^ Z.pos n) * 2 ^ Z.pos n) by lia.
        rewrite Z.div_mul by lia. done.
  - replace (2 ^ 1) with 2 by done. apply shr_1_spec, Hm.
Qed.

Lemma exact_loc (mrs : shr_record) : exact_record mrs → loc_of_shr_record mrs = loc_Exact.
Proof. destruct mrs as [m r s]. unfold exact_record. cbn. by intros [-> ->]. Qed.

Lemma shr_m_of_loc (q : Z) (l : location) : shr_m (shr_record_of_loc q l) = q.
Proof. by destruct l as [|[]]. Qed.

Lemma loc_of_loc (q : Z) (l : location) :
  loc_of_shr_record (shr_record_of_loc q l) = l.
Proof. by destruct l as [|[]]. Qed.

Lemma fexp_eq (x : Z) : fexp 53 1024 x = Z.max (x - 53) (-1074).
Proof. reflexivity. Qed.

Lemma shr_fexp_under (k q e : Z) (l : location) (mrs : shr_record) (e' : Z) :
  -1074 ≤ k → under k q e l → shr_fexp 53 1024 q e l = (mrs, e') →
  under k (shr_m mrs) e' (loc_of_shr_record mrs).
Proof.
  intros Hk (Hq & He & Hbound). unfold shr_fexp, shr. rewrite fexp_eq.
  destruct (Z.max (Zdigits2 q + e - 53) (-1074) - e) as [|n|n] eqn:Hn;
    intros ?; simplify_eq.
  - by rewrite shr_m_of_loc, loc_of_loc.
  - assert (Zdigits2 q ≤ k - e + 1) as Hd.
    { apply Zdigits2_le; [done|lia|].
      replace (k - e + 1) with (Z.succ (k - e)) by lia.
      rewrite Z.pow_succ_r by lia.
      assert (0 < 2 ^ (k - e)) by (apply Z.pow_pos_nonneg; lia). lia. }
    assert (0 < 2 ^ Z.pos n) as Hpos by (apply Z.pow_pos_nonneg; lia).
    assert (2 ^ (k - e) = 2 ^ (k - (e + Z.pos n)) * 2 ^ Z.pos n) as Hsplit.
    { rewrite <- Z.pow_add_r by lia. f_equal. lia. }
    destruct (iter_shr_1_spec n (shr_record_of_loc q l)) as [Hm Hex];
      [by rewrite shr_m_of_loc|].
    rewrite shr_m_of_loc in Hm, Hex. rewrite Hm.
    split; [apply Z.div_pos; lia|]. split; [lia|].
    destruct Hbound as [Hlt|[-> ->]].
    + left. apply Z.div_lt_upper_bound; [done|]. lia.
    + right. split.
      * transitivity ((2 ^ (k - (e + Z.pos n)) * 2 ^ Z.pos n) `div` 2 ^ Z.pos n);
          [by rewrite <- Hsplit|by rewrite Z.div_mul by lia].
      * apply exact_loc, Hex; [done|]. rewrite Hsplit. by eexists.
  - by rewrite shr_m_of_loc, loc_of_loc.
Qed.

Lemma round_under (k m e : Z) (l : location) :
  under k m e l → under k (round_nearest_even m l) e loc_Exact.
Proof.
  intros (Hm & He & Hbound). unfold under. split; [|split; [done|]].
  - destruct l as [|[]]; cbn; [done| |done|lia]. destruct (Z.even m); lia.
  - destruct Hbound as [Hlt|[-> ->]]; [|by right].
    destruct l as [|[]]; cbn; [by left| |by left|].
    + destruct (Z.even m); [by left|].
      destruct (decide (m + 1 = 2 ^ (k - e))); [by right|left; lia].
    + destruct (decide (m + 1 = 2 ^ (k - e))); [by right|left; lia].
Qed.

Lemma binary_round_aux_under (k : Z) (s : bool) (q e : Z) (l : location) :
  -1074 ≤ k ≤ 971 → under k q e l →
  within k s (binary_round_aux 53 1024 s q e l).
Proof.
  intros Hk Hq. unfold binary_round_aux.
  destruct (shr_fexp 53 1024 q e l) as [mrs' e'] eqn:H1.
  apply (shr_fexp_under k) in H1; [|lia|done].
  apply round_under in H1.
  destruct (shr_fexp 53 1024 _ e' loc_Exact) as [mrs'' e''] eqn:H2.
  apply (shr_fexp_under k) in H2 as (Hm & He & Hbound); [|lia|done].
  destruct (shr_m mrs'') as [|m|m]; [done| |lia].
  replace (e'' <=? 1024 - 53) with true by (symmetry; apply Z.leb_le; lia).
  cbn. split; [done|]. split; [done|]. destruct Hbound as [?|[? _]]; lia.
Qed.

Lemma iter_xO (m d : positive) : Z.pos (Pos.iter xO m d) = Z.pos m * 2 ^ Z.pos d.
Proof.
  induction d as [|d IH] using Pos.peano_ind.
  - cbn. lia.
  - rewrite Pos.iter_succ, (Pos2Z.inj_xO (Pos.iter xO m d)), IH, Pos2Z.inj_succ,
      Z.pow_succ_r by lia. lia.
Qed.

Lemma shl_align_spec (m : positive) (e e' : Z) :
  (shl_align m e e').2 = Z.min e e'
  ∧ Z.pos (shl_align m e e').1 = Z.pos m * 2 ^ (e - Z.min e e').
Proof.
  unfold shl_align. destruct (e' - e) as [|d|d] eqn:Hd; cbn [fst snd].
  - replace (e - Z.min e e') with 0 by lia. split; lia.
  - replace (e - Z.min e e') with 0 by lia. split; lia.
  - rewrite iter_xO. replace (e - Z.min e e') with (Z.pos d) by lia. split; lia.
Qed.

Lemma binary_round_under (k : Z) (s : bool) (m : positive) (e : Z) :
  -1074 ≤ k ≤ 971 → e ≤ k → Z.pos m ≤ 2 ^ (k - e) →
  within k s (binary_round 53 1024 s m e).
Proof.
  intros Hk He Hm. unfold binary_round.
  pose proof (shl_align_spec m e (fexp 53 1024 (Z.pos (digits2_pos m) + e)))
    as [He' Hm'].
  destruct (shl_align m e _) as [mz ez]. cbn [fst snd] in *.
  rewrite <- He' in Hm'.
  assert (Z.pos mz ≤ 2 ^ (k - ez)) as Hle.
  { rewrite Hm'. replace (k - ez) with ((k - e) + (e - ez)) by lia.
    rewrite Z.pow_add_r by lia.
    apply Z.mul_le_mono_nonneg_r; [apply Z.pow_nonneg; lia|done]. }
  apply binary_round_aux_under; [done|]. split; [lia|]. split; [lia|].
  destruct (decide (Z.pos mz = 2 ^ (k - ez))); [by right|left; lia].
Qed.

Lemma within_magnitude (k : Z) (s : bool) (f : float) : within k s f → magnitude k f.
Proof. destruct f; cbn; tauto. Qed.

Lemma within_range (k : Z) (f : float) : within k false f → below_pow2 k f.
Proof. destruct f as [| | |[]]; cbn; try tauto. by intros [? _]. Qed.

Lemma magnitude_abs (k : Z) (f : float) : magnitude k f → below_pow2 k (SFabs f).
Proof. by destruct f. Qed.

Lemma range_magnitude (k : Z) (f : float) : below_pow2 k f → magnitude k f.
Proof. by destruct f as [| | |[]]. Qed.

Lemma binary_normalize_magnitude (k S e : Z) :
  -1074 ≤ k ≤ 971 → e ≤ k → Z.abs S ≤ 2 ^ (k - e) →
  magnitude k (binary_normalize 53 1024 S e false)
  ∧ (0 ≤ S → below_pow2 k (binary_normalize 53 1024 S e false)).
Proof.
  intros Hk He HS. destruct S as [|m|m]; cbn [binary_normalize].
  - done.
  - pose proof (binary_round_under k false m e Hk He) as H. cbn in HS.
    split; [eapply within_magnitude|intros _; apply within_range]; by apply H.
  - pose proof (binary_round_under k true m e Hk He) as H. cbn in HS.
    split; [eapply within_magnitude; by apply H|lia].
Qed.

Lemma range_mono (k k' : Z) (f : float) : k ≤ k' → below_pow2 k f → below_pow2 k' f.
Proof.
  intros Hk. destruct f as [| | |[] m e]; cbn; try done. intros [He Hm].
  split; [lia|]. etrans; [exact Hm|]. apply Z.pow_le_mono_r; lia.
Qed.

Lemma scale_le (k m e c : Z) :
  c ≤ e → e ≤ k → m ≤ 2 ^ (k - e) → m * 2 ^ (e - c) ≤ 2 ^ (k - c).
Proof.
  intros Hc He Hm. replace (k - c) with ((k - e) + (e - c)) by lia.
  rewrite Z.pow_add_r by lia.
  apply Z.mul_le_mono_nonneg_r; [apply Z.pow_nonneg; lia|done].
Qed.

Lemma shl_align_min (m : positive) (e e' : Z) :
  e' ≤ e → Z.pos (shl_align m e e').1 = Z.pos m * 2 ^ (e - e').
Proof.
  intros He. destruct (shl_align_spec m e e') as [_ ->]. do 2 f_equal. lia.
Qed.

Lemma SFadd_range (u v : float) :
  below_pow2 0 u → below_pow2 0 v → below_pow2 1 (SFadd 53 1024 u v).
Proof.
  destruct u as [su| | |[] mu eu], v as [sv| | |[] mv ev]; cbn [below_pow2]; try done.
  - intros _ _. by destruct su, sv.
  - intros _ Hv. by apply (range_mono 0 1).
  - intros Hu _. by apply (range_mono 0 1).
  - intros [Heu Hmu] [Hev Hmv]. cbn [SFadd cond_Zopp].
    rewrite !shl_align_min by lia.
    apply binary_normalize_magnitude; [lia|lia| |].
    + pose proof (scale_le 0 _ eu (Z.min eu ev) ltac:(lia) Heu Hmu).
      pose proof (scale_le 0 _ ev (Z.min eu ev) ltac:(lia) Hev Hmv).
      replace (1 - Z.min eu ev) with (Z.succ (0 - Z.min eu ev)) by lia.
      rewrite Z.pow_succ_r by lia.
      assert (0 ≤ Z.pos mu * 2 ^ (eu - Z.min eu ev))
        by (apply Z.mul_nonneg_nonneg; [lia|apply Z.pow_nonneg; lia]).
      assert (0 ≤ Z.pos mv * 2 ^ (ev - Z.min eu ev))
        by (apply Z.mul_nonneg_nonneg; [lia|apply Z.pow_nonneg; lia]).
      clear Hmu Hmv.
      generalize dependent (Z.pos mu * 2 ^ (eu - Z.min eu ev)).
      generalize dependent (Z.pos mv * 2 ^ (ev - Z.min eu ev)).
      generalize dependent (2 ^ (0 - Z.min eu ev)). intros; lia.
    + assert (0 ≤ Z.pos mu * 2 ^ (eu - Z.min eu ev))
        by (apply Z.mul_nonneg_nonneg; [lia|apply Z.pow_nonneg; lia]).
      assert (0 ≤ Z.pos mv * 2 ^ (ev - Z.min eu ev))
        by (apply Z.mul_nonneg_nonneg; [lia|apply Z.pow_nonneg; lia]).
      clear Hmu Hmv.
      generalize dependent (Z.pos mu * 2 ^ (eu - Z.min eu ev)).
      generalize dependent (Z.pos mv * 2 ^ (ev - Z.min eu ev)).
      generalize dependent (2 ^ (0 - Z.min eu ev)). intros; lia.
Qed.

Lemma SFsub_abs_range (u v : float) :
  below_pow2 0 u → below_pow2 0 v → below_pow2 0 (SFabs (SFsub 53 1024 v u)).
Proof.
  destruct u as [su| | |[] mu eu], v as [sv| | |[] mv ev]; cbn [below_pow2]; try done.
  - intros _ _. by destruct su, sv.
  - intros [Heu Hmu] [Hev Hmv]. cbn [SFsub cond_Zopp].
    rewrite !shl_align_min by lia.
    apply magnitude_abs, binary_normalize_magnitude; [lia|lia|].
    pose proof (scale_le 0 _ eu (Z.min ev eu) ltac:(lia) Heu Hmu).
    pose proof (scale_le 0 _ ev (Z.min ev eu) ltac:(lia) Hev Hmv).
    assert (0 ≤ Z.pos mu * 2 ^ (eu - Z.min ev eu))
      by (apply Z.mul_nonneg_nonneg; [lia|apply Z.pow_nonneg; lia]).
    assert (0 ≤ Z.pos mv * 2 ^ (ev - Z.min ev eu))
      by (apply Z.mul_nonneg_nonneg; [lia|apply Z.pow_nonneg; lia]).
    clear Hmu Hmv.
    generalize dependent (Z.pos mu * 2 ^ (eu - Z.min ev eu)).
    generalize dependent (Z.pos mv * 2 ^ (ev - Z.min ev eu)).
    generalize dependent (2 ^ (0 - Z.min ev eu)). intros; lia.
Qed.

Lemma new_location_zero (m : Z) : new_location m 0 = loc_Exact.
Proof. unfold new_location. by destruct (Z.even m). Qed.

Lemma SFdiv_range (a : float) (mb : positive) (eb : Z) :
  float_le a mb eb → below_pow2 0 (SFdiv 53 1024 a (S754_finite false mb eb)).
Proof.
  destruct a as [sa| | |[] ma ea]; cbn [float_le]; try done.
  intros Hle. cbn [SFdiv xorb]. unfold SFdiv_core_binary. cbn [Zdigits2].
  rewrite fexp_eq.
  set (d1 := Z.pos (digits2_pos ma)). set (d2 := Z.pos (digits2_pos mb)).
  set (e' := Z.min _ _).
  assert (e' ≤ ea - eb) as He1 by (subst e'; lia).
  assert (e' ≤ 0) as He0.
  { assert (d1 + ea ≤ d2 + eb); [|subst e'; lia].
    pose proof (digits2_pos_bounds ma) as [Hlo _].
    pose proof (digits2_pos_bounds mb) as [_ Hhi]. fold d1 in Hlo. fold d2 in Hhi.
    pose proof (Hle (Z.min ea eb) ltac:(lia) ltac:(lia)) as H.
    assert (2 ^ (d1 - 1 + (ea - Z.min ea eb)) < 2 ^ (d2 + (eb - Z.min ea eb))) as Hpow.
    { rewrite !Z.pow_add_r by lia.
      assert (0 < 2 ^ (ea - Z.min ea eb)) by (apply Z.pow_pos_nonneg; lia).
      assert (0 < 2 ^ (eb - Z.min ea eb)) by (apply Z.pow_pos_nonneg; lia).
      nia. }
    apply Z.pow_lt_mono_r_iff in Hpow; lia. }
  set (m' := match ea - eb - e' with Z.pos _ => _ | _ => _ end).
  assert (m' = Z.pos ma * 2 ^ (ea - eb - e')) as Hm'.
  { subst m'. destruct (ea - eb - e') as [|s|s] eqn:Hs; [cbn; lia| |lia].
    by rewrite Z.shiftl_mul_pow2. }
  pose proof (Hle (eb + e') ltac:(lia) ltac:(lia)) as Hquot.
  replace (ea - (eb + e')) with (ea - eb - e') in Hquot by lia.
  replace (eb - (eb + e')) with (- e') in Hquot by lia.
  rewrite <- Hm' in Hquot.
  pose proof (Z_div_mod m' (Z.pos mb) ltac:(lia)) as Hdiv.
  destruct (Z.div_eucl m' (Z.pos mb)) as [q r]. destruct Hdiv as [Hdiv Hr].
  assert (0 ≤ m') as Hnn by (rewrite Hm'; apply Z.mul_nonneg_nonneg; [lia|apply Z.pow_nonneg; lia]).
  assert (0 < 2 ^ (- e')) as Hpos by (apply Z.pow_pos_nonneg; lia).
  apply within_range, binary_round_aux_under; [lia|].
  split; [nia|]. split; [done|]. replace (0 - e') with (- e') by lia.
  destruct (decide (q = 2 ^ (- e'))) as [Hq|Hq].
  - right. split; [done|]. assert (r = 0) as -> by nia. apply new_location_zero.
  - left. nia.
Qed.

Lemma shr_fexp_noop (q e : Z) (l : location) :
  fexp 53 1024 (Zdigits2 q + e) ≤ e →
  shr_fexp 53 1024 q e l = (shr_record_of_loc q l, e).
Proof.
  intros Hn. unfold shr_fexp, shr.
  destruct (fexp 53 1024 (Zdigits2 q + e) - e) eqn:?; [done|lia|done].
Qed.

Lemma binary_round_aux_exact (s : bool) (m : positive) (e : Z) :
  Z.pos (digits2_pos m) ≤ 53 → -1074 ≤ e ≤ 971 →
  binary_round_aux 53 1024 s (Z.pos m) e loc_Exact = S754_finite s m e.
Proof.
  intros Hd He. unfold binary_round_aux.
  rewrite shr_fexp_noop by (rewrite fexp_eq; cbn [Zdigits2]; lia).
  cbn [shr_record_of_loc shr_m loc_of_shr_record round_nearest_even].
  rewrite shr_fexp_noop by (rewrite fexp_eq; cbn [Zdigits2]; lia).
  cbn [shr_record_of_loc shr_m].
  replace (e <=? 1024 - 53) with true by (symmetry; apply Z.leb_le; lia). done.
Qed.

Lemma float_of_int_exact (w : Z) :
  0 < w < 2 ^ 53 →
  ∃ m e, float_of_int w = S754_finite false m e
         ∧ e ≤ 0 ∧ Z.pos m = w * 2 ^ (- e).
Proof.
  intros Hw. destruct w as [|p|p]; [lia| |lia].
  unfold float_of_int. cbn [binary_normalize]. unfold binary_round.
  pose proof (digits2_pos_bounds p) as [Hlo Hhi].
  assert (Z.pos (digits2_pos p) ≤ 53) as Hd by (apply (Zdigits2_le (Z.pos p)); lia).
  pose proof (shl_align_spec p 0 (fexp 53 1024 (Z.pos (digits2_pos p) + 0)))
    as [Hez Hmz].
  destruct (shl_align p 0 _) as [mz ez]. cbn [fst snd] in *.
  rewrite fexp_eq in Hez, Hmz.
  assert (ez = Z.pos (digits2_pos p) - 53) as Heq by lia.
  rewrite <- Hez in Hmz. replace (0 - ez) with (- ez) in Hmz by lia.
  exists mz, ez. split; [|split; [lia|done]].
  apply binary_round_aux_exact; [|lia].
  apply (Zdigits2_le (Z.pos mz)); [lia|lia|]. rewrite Hmz.
  replace 53 with (Z.pos (digits2_pos p) + - ez) by lia.
  rewrite Z.pow_add_r by lia.
  apply Z.mul_lt_mono_pos_r; [apply Z.pow_pos_nonneg; lia|done].
Qed.

Lemma between_float_le (w : Z) (a : float) (mb : positive) (eb : Z) :
  eb ≤ 0 → Z.pos mb = w * 2 ^ (- eb) → between 0 w a → float_le a mb eb.
Proof.
  intros Heb Hmb (Hfin & Hlo & Hhi). destruct a as [| | |s m e]; try done.
  cbn [float_value] in Hlo, Hhi. cbn [float_le].
  assert (∀ x, 0 < 2 ^ Z.abs x) as Hpow by (intros; apply Z.pow_pos_nonneg; lia).
  destruct s.
  - exfalso. case_decide.
    + rewrite <- Zle_Qle in Hlo. pose proof (Hpow e). replace (Z.abs e) with e in * by lia. nia.
    + unfold Qle in Hlo. cbn in Hlo. lia.
  - intros c Hc1 Hc2. rewrite Hmb.
    assert (w * 2 ^ (- eb) * 2 ^ (eb - c) = w * 2 ^ (- c)) as ->.
    { rewrite <- Z.mul_assoc, <- Z.pow_add_r by lia. do 2 f_equal. lia. }
    case_decide.
    + rewrite <- Zle_Qle in Hhi. replace (e - c) with (e + - c) by lia.
      rewrite Z.pow_add_r, Z.mul_assoc by lia.
      apply Z.mul_le_mono_nonneg_r; [apply Z.pow_nonneg; lia|done].
    + unfold Qle in Hhi. cbn in Hhi.
      rewrite Z2Pos.id in Hhi by (apply Z.pow_pos_nonneg; lia).
      replace (- c) with (- e + (e - c)) by lia.
      rewrite Z.pow_add_r, Z.mul_assoc by lia.
      apply Z.mul_le_mono_nonneg_r; [apply Z.pow_nonneg; lia|lia].
Qed.

Lemma range_between (f : float) : below_pow2 0 f → between 0 1 f.
Proof.
  destruct f as [| | |[] m e]; cbn [below_pow2]; try done.
  intros [He Hm]. split; [done|]. cbn [float_value]. case_decide.
  - assert (e = 0) as -> by lia. cbn in Hm.
    split; rewrite <- Zle_Qle; lia.
  - unfold Qle. cbn. rewrite Z2Pos.id by (apply Z.pow_pos_nonneg; lia).
    replace (0 - e) with (- e) in Hm by lia. lia.
Qed.

Lemma float_truediv_int (a : float) (w : Z) :
  0 < w < 2 ^ 53 → float_truediv a (float_of_int w) = Ok (float_div a (float_of_int w)).
Proof.
  intros Hw. by destruct (float_of_int_exact w Hw) as (m & e & -> & _).
Qed.

Lemma float_div_unit (a : float) (w : Z) :
  0 < w < 2 ^ 53 → between 0 w a → below_pow2 0 (float_div a (float_of_int w)).
Proof.
  intros Hw Ha. destruct (float_of_int_exact w Hw) as (m & e & -> & He & Hm).
  apply SFdiv_range. by apply (between_float_le w).
Qed.

Lemma float_div_two (f : float) :
  below_pow2 1 f → below_pow2 0 (float_div f (float_of_int 2)).
Proof.
  intros Hf. change (float_of_int 2) with (S754_finite false 4503599627370496 (-51)).
  apply SFdiv_range. destruct f as [| | |[] m e]; try done.
  destruct Hf as [He Hm]. intros c Hc1 Hc2.
  etrans; [by apply (scale_le 1)|].
  change (Z.pos 4503599627370496) with (2 ^ 52).
  rewrite <- Z.pow_add_r by lia. apply Z.pow_le_mono_r; lia.
Qed.

Lemma digit_char_digit (d : Z) :
  0 ≤ d < 10 → is_Some (Ascii.is_nat (digit_char d)).
Proof.
  intros Hd.
  assert (d = 0 ∨ d = 1 ∨ d = 2 ∨ d = 3 ∨ d = 4 ∨ d = 5 ∨ d = 6 ∨ d = 7
          ∨ d = 8 ∨ d = 9) as Hcases by lia.
  repeat destruct Hcases as [->|Hcases]; try subst d; by eexists.
Qed.

Lemma float_format_six_decimals (f : float) :
  is_finite f = true → six_decimals (float_format_6f f).
Proof.
  intros Hf. unfold float_format_6f.
  set (n := millionths f).
  exists ((if float_sign f then "-" else EmptyString) +:+ pretty (n / 1000000)),
    (decimals6 (n mod 1000000)).
  split; [|split].
  - destruct f as [[]| | |[] m e]; done.
  - done.
  - cbn. repeat constructor; apply digit_char_digit, Z.mod_pos_bound; lia.
Qed.

Lemma below_pow2_finite (k : Z) (f : float) : below_pow2 k f → is_finite f = true.
Proof. by destruct f. Qed.

(** The line of a bbox annotation, whatever its corners. *)
Lemma yolo_line_floats (E : Externals) (id category_id w h : Z)
    (x0 y0 x1 y1 : float) :
  0 < w < 2 ^ 53 → 0 < h < 2 ^ 53 →
  let W := float_of_int w in
  let H := float_of_int h in
  let two := float_of_int 2 in
  @yolo_line (binary64 E) w h
    (mkAnnotation id category_id "bbox" [[x0; y0]; [x1; y1]])
  = Ok (pretty category_id
          +:+ " " +:+ float_format_6f
                        (float_div (float_add (float_div x0 W) (float_div x1 W)) two)
          +:+ " " +:+ float_format_6f
                        (float_div (float_add (float_div y0 H) (float_div y1 H)) two)
          +:+ " " +:+ float_format_6f
                        (float_abs (float_sub (float_div x1 W) (float_div x0 W)))
          +:+ " " +:+ float_format_6f
                        (float_abs (float_sub (float_div y1 H) (float_div y0 H)))
          +:+ String (Ascii.ascii_of_nat 10) EmptyString).
Proof.
  intros Hw Hh W H two. unfold yolo_line.
  cbn -[float_truediv float_of_int float_add float_sub float_abs float_div
        float_format_6f].
  rewrite !float_truediv_int by done.
  cbn -[float_truediv float_of_int float_add float_sub float_abs float_div
        float_format_6f].
  rewrite !(float_truediv_int _ 2) by lia.
  done.
Qed.




(** The width as the claim writes it, [|x1 - x0| / w], is another float
    than the width the code computes, [|x1/w - x0/w|], and the two can
    print differently: corners 123 and 120 on a 640 pixel wide image. *)
Example yolo_width_rounding :
  float_format_6f
    (float_abs (float_sub (float_div (float_of_int 120) (float_of_int 640))
                          (float_div (float_of_int 123) (float_of_int 640))))
  = "0.004688"
  ∧ float_format_6f
      (float_div (float_abs (float_sub (float_of_int 120) (float_of_int 123)))
                 (float_of_int 640))
    = "0.004687".
Proof. split; reflexivity. Qed.

(** * Further properties of the code *)

(** ** Id/Color codec *)

Lemma pack_digits_mod (x : Z) :
  pack (x mod 256) (x / 256 mod 256) (x / 256 / 256 mod 256) = x mod 2 ^ 24.
Proof.
  unfold pack.
  pose proof (Z.div_mod x 256).
  pose proof (Z.div_mod (x / 256) 256).
  pose proof (Z.div_mod (x / 256 / 256) 256).
  pose proof (Z.mod_pos_bound x 256).
  pose proof (Z.mod_pos_bound (x / 256) 256).
  pose proof (Z.mod_pos_bound (x / 256 / 256) 256).
  apply (Z.mod_unique_pos _ _ (x / 256 / 256 / 256)); lia.
Qed.

Lemma digits_pack (r g b : Z) :
  0 ≤ r < 256 → 0 ≤ g < 256 → 0 ≤ b < 256 →
  id2rgb_scalar (pack r g b) = (r, g, b).
Proof.
  intros Hr Hg Hb. unfold id2rgb_scalar, pack; cbv zeta.
  assert ((r + 256 * g + 256 * 256 * b) / 256 = g + 256 * b) as ->.
  { symmetry. apply (Z.div_unique_pos _ _ _ r); lia. }
  assert ((g + 256 * b) / 256 = b) as ->.
  { symmetry. apply (Z.div_unique_pos _ _ _ g); lia. }
  f_equal; [f_equal|].
  - symmetry. apply (Z.mod_unique_pos _ _ (g + 256 * b)); lia.
  - symmetry. apply (Z.mod_unique_pos _ _ b); lia.
  - apply Z.mod_small. lia.
Qed.

(** X1. For every Python integer [x], negative or beyond 24 bits included,
    [rgb2id] of the triple [id2rgb] makes of [x] is [x mod 2^24]: ids that
    agree on their low 24 bits get the same color. *)
Theorem rgb2id_id2rgb_mod (x : Z) :
  ∃ c : RGB, id2rgb (IdScalar x) = RgbTuple c
             ∧ rgb2id (ColorTuple c) = Ok (IdInt (x mod 2 ^ 24)).
Proof.
  exists (id2rgb_scalar x). split; [reflexivity|].
  unfold id2rgb_scalar; cbv zeta. cbn [rgb2id]. by rewrite pack_digits_mod.
Qed.

(** X2. For bytes [r], [g], [b], [rgb2id] yields an id below [2^24] from
    which [id2rgb] gives the triple back: on 8-bit colors the codec loses
    nothing in this direction either. *)
Theorem id2rgb_rgb2id_roundtrip (r g b : Z) :
  0 ≤ r < 256 → 0 ≤ g < 256 → 0 ≤ b < 256 →
  ∃ x, rgb2id (ColorTuple (r, g, b)) = Ok (IdInt x)
       ∧ 0 ≤ x < 2 ^ 24
       ∧ id2rgb (IdScalar x) = RgbTuple (r, g, b).
Proof.
  intros Hr Hg Hb. exists (pack r g b). split; [reflexivity|]. split.
  - unfold pack. lia.
  - cbn [id2rgb]. by rewrite digits_pack.
Qed.

Lemma id2rgb_rgb2id_roundtrip_witness :
  ∃ x, rgb2id (ColorTuple (255, 0, 17)) = Ok (IdInt x)
       ∧ 0 ≤ x < 2 ^ 24
       ∧ id2rgb (IdScalar x) = RgbTuple (255, 0, 17).
Proof. apply (id2rgb_rgb2id_roundtrip 255 0 17); lia. Defined.

Lemma rgb2id_pixel_digits (v : Z) :
  0 ≤ v < 2 ^ 24 →
  rgb2id_pixel Int32 (map (cast UInt8) (id2rgb_digits 3 v)) = Ok v.
Proof.
  intros Hv. cbn [id2rgb_digits map]. unfold cast at 1 2 3. unfold wrap_unsigned.
  change (2 ^ 8) with 256. rewrite !Z.mod_mod by lia.
  unfold rgb2id_pixel. cbn [getitem lookup list_lookup mbind result_bind rbind].
  rewrite pack_digits by done. f_equal. apply cast_int32_small. lia.
Qed.



Lemma rgb2id_pixel_take (dt : dtype) (px : list Z) :
  rgb2id_pixel dt (take 3 px) = rgb2id_pixel dt px.
Proof.
  unfold rgb2id_pixel, getitem.
  by rewrite !lookup_take_lt by lia.
Qed.

Lemma traverse_map {A B C : Type} (f : B → result C) (g : A → B) (l : list A) :
  traverse f (map g l) = traverse (λ a, f (g a)) l.
Proof. induction l as [|a l IH]; [done|]. cbn. by rewrite IH. Qed.

Lemma traverse_ext {A B : Type} (f g : A → result B) (l : list A) :
  (∀ a, f a = g a) → traverse f l = traverse g l.
Proof. intros Hfg. induction l as [|a l IH]; [done|]. cbn. by rewrite Hfg, IH. Qed.

(** X4. The array branch of [rgb2id] reads the first three channels only:
    an image with an alpha (or any further) channel gets the ids of its RGB
    part, and the same error if a pixel is too short. *)
Theorem rgb2id_ignores_alpha (dt : dtype) (image : list (list (list Z))) :
  rgb2id (ColorArray (NdArray dt 3 image))
  = rgb2id (ColorArray (NdArray dt 3 (map (map (take 3)) image))).
Proof.
  cbn [rgb2id]. f_equal.
  rewrite traverse_map. apply traverse_ext. intros row.
  rewrite traverse_map. apply traverse_ext. intros px.
  by rewrite rgb2id_pixel_take.
Qed.

(** ** Color allocator *)

Lemma reserve_fixed_foldl (taken : gset RGB) (l : list Category) (c : RGB) :
  c ∈ foldl reserve_fixed taken l
  ↔ c ∈ taken ∨ ∃ cat, cat ∈ l ∧ cat_isthing cat = false ∧ cat_color cat = c.
Proof.
  revert taken. induction l as [|cat l IH]; intros taken; cbn.
  - split; [auto|]. intros [?|(? & ?%elem_of_nil & _)]; done.
  - rewrite IH. unfold reserve_fixed. split.
    + intros [Hc|(cat' & Hin & Hstuff & Hcol)].
      * destruct (cat_isthing cat) eqn:Hthing; [auto|].
        apply elem_of_union in Hc as [?| ->%elem_of_singleton]; [auto|].
        right. exists cat. split; [apply list_elem_of_here|done].
      * right. exists cat'. split; [by apply list_elem_of_further|done].
    + intros [Hc|(cat' & [->|Hin]%elem_of_cons & Hstuff & Hcol)].
      * left. destruct (cat_isthing cat); set_solver.
      * left. rewrite Hstuff. set_solver.
      * right. by exists cat'.
Qed.

(** X5. A freshly built generator has taken exactly black and the colors of
    the categories with [isthing] false. *)
Theorem init_taken_colors (cats : gmap Z Category) (c : RGB) :
  c ∈ taken_colors (IdGenerator_init cats)
  ↔ c = (0, 0, 0)
    ∨ ∃ id cat, cats !! id = Some cat ∧ cat_isthing cat = false ∧ cat_color cat = c.
Proof.
  cbn. rewrite reserve_fixed_foldl, elem_of_singleton. unfold dict_values.
  split; (intros [?|Hcat]; [by left|right]).
  - destruct Hcat as (cat & Hin & ? & ?).
    apply list_elem_of_fmap in Hin as ([id cat'] & -> & Hin).
    apply elem_of_map_to_list in Hin. by exists id, cat'.
  - destruct Hcat as (id & cat & Hin & ? & ?).
    exists cat. split; [|done].
    apply list_elem_of_fmap. exists (id, cat). split; [done|].
    by apply elem_of_map_to_list.
Qed.

Lemma random_color_near (base : RGB) (d : draw) :
  byte_color base →
  byte_color (random_color base 30 d) ∧ near 30 base (random_color base 30 d).
Proof.
  destruct base as [[r g] b], d as [[d0 d1] d2].
  unfold byte_color, near, random_color, randint, clamp.
  cbv beta iota zeta. cbn [fst snd].
  change (30 + 1 - Z.opp 30) with 61.
  pose proof (Z.mod_pos_bound d0 61).
  pose proof (Z.mod_pos_bound d1 61).
  pose proof (Z.mod_pos_bound d2 61).
  lia.
Qed.

Lemma retry_color_elem (base : RGB) (taken : gset RGB) (rng : list draw)
    (color : RGB) (rng' : list draw) :
  retry_color base taken rng = Ok (color, rng') →
  ∃ d, d ∈ rng ∧ color = random_color base 30 d.
Proof.
  induction rng as [|d rng IH]; cbn; [done|].
  case_decide.
  - intros ?; simplify_eq. exists d. split; [apply list_elem_of_here|done].
  - intros (d' & ? & ?)%IH. exists d'. split; [by apply list_elem_of_further|done].
Qed.

Lemma get_color_candidate (self : IdGenerator) (cat_id : Z) (rng : list draw)
    (cat : Category) (color : RGB) (self' : IdGenerator) (rng' : list draw) :
  categories self !! cat_id = Some cat →
  get_color self cat_id rng = Ok (color, self', rng') →
  color = cat_color cat ∨ ∃ d, d ∈ rng ∧ color = random_color (cat_color cat) 30 d.
Proof.
  intros Hcat. unfold get_color. rewrite Hcat.
  destruct (cat_isthing cat); cbn.
  - case_decide.
    + intros ?; simplify_eq. by left.
    + destruct (retry_color _ _ _) as [[color' rng'']| |] eqn:Hretry; cbn; try done.
      intros ?; simplify_eq. right. by eapply retry_color_elem.
  - intros ?; simplify_eq. by left.
Qed.

(** X6. A color [get_color] returns for a category whose configured color
    is made of bytes is made of bytes too and differs from the configured
    color by at most 30 in every channel. *)
Theorem get_color_near_base (self : IdGenerator) (cat_id : Z) (rng : list draw)
    (cat : Category) (color : RGB) (self' : IdGenerator) (rng' : list draw) :
  categories self !! cat_id = Some cat →
  byte_color (cat_color cat) →
  get_color self cat_id rng = Ok (color, self', rng') →
  byte_color color ∧ near 30 (cat_color cat) color.
Proof.
  intros Hcat Hbyte Hcall.
  destruct (get_color_candidate _ _ _ _ _ _ _ Hcat Hcall) as [->|(d & _ & ->)].
  - split; [done|]. unfold near. lia.
  - by apply random_color_near.
Qed.

Lemma get_color_near_base_witness :
  byte_color (11, 21, 31) ∧ near 30 (10, 20, 30) (11, 21, 31).
Proof.
  apply (get_color_near_base (IdGenerator_init demo_categories) 2
           [(30, 30, 30); (31, 31, 31)] (mkCategory 2 "car" (10, 20, 30) true)
           (11, 21, 31)
           {| taken_colors := {[ (0, 0, 0); (10, 20, 30); (11, 21, 31) ]};
              categories := demo_categories |} []).
  - vm_compute. reflexivity.
  - unfold byte_color. cbn. lia.
  - vm_compute. reflexivity.
Defined.

Lemma get_id_and_color_get_color (self : IdGenerator) (cat_id : Z)
    (rng : list draw) :
  get_id_and_color self cat_id rng
  = ('(color, self', rng') ← get_color self cat_id rng;
     Ok (IdInt (pack color.1.1 color.1.2 color.2), color, self', rng')).
Proof.
  unfold get_id_and_color.
  destruct (get_color self cat_id rng) as [[[[[r g] b] self'] rng']| |]; done.
Qed.

Lemma get_ids_and_colors_get_colors (self : IdGenerator) (cat_ids : list Z)
    (rng : list draw) :
  get_ids_and_colors self cat_ids rng
  = ('(colors, self', rng') ← get_colors self cat_ids rng;
     Ok ((λ c : RGB, (IdInt (pack c.1.1 c.1.2 c.2), c)) <$> (colors : list RGB),
         self', rng')).
Proof.
  revert self rng. induction cat_ids as [|id ids IH]; intros self rng; cbn; [done|].
  rewrite get_id_and_color_get_color.
  destruct (get_color self id rng) as [[[color self1] rng1]| |]; cbn; [|done..].
  rewrite IH.
  by destruct (get_colors self1 ids rng1) as [[[colors self2] rng2]| |].
Qed.

Lemma get_colors_bytes (self : IdGenerator) (cat_ids : list Z) (rng : list draw)
    (colors : list RGB) (self' : IdGenerator) (rng' : list draw) :
  (∀ id cat, categories self !! id = Some cat → byte_color (cat_color cat)) →
  get_colors self cat_ids rng = Ok (colors, self', rng') →
  Forall byte_color colors.
Proof.
  revert self rng colors.
  induction cat_ids as [|id ids IH]; intros self rng colors Hbytes; cbn.
  - intros ?; simplify_eq. constructor.
  - destruct (get_color self id rng) as [[[color self1] rng1]| |] eqn:Hcall; cbn; [|done..].
    destruct (get_colors self1 ids rng1) as [[[colors1 self2] rng2]| |] eqn:Hrest;
      cbn; [|done..].
    intros ?; simplify_eq. constructor.
    + assert (∃ cat, categories self !! id = Some cat) as [cat Hcat].
      { unfold get_color in Hcall. destruct (categories self !! id); [eauto|done]. }
      destruct (get_color_candidate _ _ _ _ _ _ _ Hcat Hcall) as [->|(d & _ & ->)].
      * by eapply Hbytes.
      * by apply random_color_near, (Hbytes _ _ Hcat).
    + eapply IH; [|done].
      apply get_color_preserves in Hcall as [-> _]. done.
Qed.

Lemma pack_injective (c c' : RGB) :
  byte_color c → byte_color c' →
  pack c.1.1 c.1.2 c.2 = pack c'.1.1 c'.1.2 c'.2 → c = c'.
Proof.
  destruct c as [[r g] b], c' as [[r' g'] b']. unfold byte_color. cbn.
  intros Hc Hc' Hpack.
  assert (id2rgb_scalar (pack r g b) = id2rgb_scalar (pack r' g' b')) as Heq
    by by rewrite Hpack.
  rewrite !digits_pack in Heq by lia. done.
Qed.

(** X7. In a run of [get_id_and_color] calls on thing categories of a
    generator whose categories all have byte colors, every returned id is
    the packed form of its color, lies below [2^24], and no two calls return
    the same id. *)
Theorem get_id_and_color_unique (cats : gmap Z Category) (cat_ids : list Z)
    (rng : list draw) (pairs : list (id_value * RGB)) (self' : IdGenerator)
    (rng' : list draw) :
  (∀ id cat, cats !! id = Some cat → byte_color (cat_color cat)) →
  Forall (λ id, ∃ c, cats !! id = Some c ∧ cat_isthing c = true) cat_ids →
  get_ids_and_colors (IdGenerator_init cats) cat_ids rng = Ok (pairs, self', rng') →
  NoDup pairs.*1
  ∧ Forall (λ p, ∃ x, p.1 = IdInt x ∧ 0 ≤ x < 2 ^ 24
                      ∧ rgb2id (ColorTuple p.2) = Ok (IdInt x)) pairs.
Proof.
  intros Hbytes Hthings. rewrite get_ids_and_colors_get_colors.
  destruct (get_colors _ _ _) as [[[colors self2] rng2]| |] eqn:Hrun; cbn; [|done..].
  intros ?; simplify_eq.
  pose proof (get_colors_bytes (IdGenerator_init cats) _ _ _ _ _ Hbytes Hrun) as Hcolors.
  destruct (get_colors_things (IdGenerator_init cats) _ _ _ _ _ Hthings Hrun)
    as (Hnodup & _ & _).
  split.
  - rewrite <- list_fmap_compose.
    clear Hrun. induction Hnodup as [|c colors Hnotin Hnodup IH]; cbn; [constructor|].
    apply Forall_cons in Hcolors as [Hc Hcolors].
    constructor; [|by apply IH].
    intros (c' & Heq & Hin)%list_elem_of_fmap. cbn in Heq.
    injection Heq as Heq.
    apply pack_injective in Heq; [by subst|done|].
    rewrite Forall_forall in Hcolors. by apply Hcolors.
  - apply Forall_fmap. eapply Forall_impl; [exact Hcolors|].
    intros [[r g] b] Hc. unfold byte_color in Hc. cbn in *.
    exists (pack r g b). split; [done|]. split; [unfold pack; lia|done].
Qed.

Lemma get_id_and_color_unique_witness :
  NoDup [(IdInt 200, (200, 0, 0)); (IdInt 2037003, (11, 21, 31));
         (IdInt 1905417, (9, 19, 29))].*1
  ∧ Forall (λ p : id_value * RGB,
              ∃ x, p.1 = IdInt x ∧ 0 ≤ x < 2 ^ 24
                   ∧ rgb2id (ColorTuple p.2) = Ok (IdInt x))
           [(IdInt 200, (200, 0, 0)); (IdInt 2037003, (11, 21, 31));
            (IdInt 1905417, (9, 19, 29))].
Proof.
  apply (get_id_and_color_unique demo_categories [3; 2; 2]
           [(30, 30, 30); (31, 31, 31); (29, 29, 29)] _ demo_final []).
  - intros id cat Hcat. unfold demo_categories in Hcat.
    repeat (apply lookup_insert_Some in Hcat as [[_ <-]|[_ Hcat]];
            [unfold byte_color; cbn; lia|]).
    by apply lookup_empty_Some in Hcat.
  - repeat first [apply Forall_nil_2 | apply Forall_cons_2];
      eexists; (split; [vm_compute; reflexivity|reflexivity]).
  - vm_compute. reflexivity.
Defined.

Lemma retry_color_spins (base : RGB) (taken : gset RGB) (rng : list draw) :
  (∀ d, random_color base 30 d ∈ taken) → retry_color base taken rng = Spinning.
Proof.
  intros Hall. induction rng as [|d rng IH]; cbn; [done|].
  case_decide as Hfree; [|done]. destruct (Hfree (Hall d)).
Qed.

(** X8. When the configured color of a thing category and every candidate
    within distance 30 of it are taken, [get_color] never returns, whatever
    the random source delivers: the retry loop has no way out. *)
Theorem get_color_exhausted (self : IdGenerator) (cat_id : Z) (cat : Category) :
  categories self !! cat_id = Some cat →
  cat_isthing cat = true →
  cat_color cat ∈ taken_colors self →
  (∀ d, random_color (cat_color cat) 30 d ∈ taken_colors self) →
  ∀ rng, get_color self cat_id rng = Spinning.
Proof.
  intros Hcat Hthing Hbase Hall rng. unfold get_color. rewrite Hcat, Hthing. cbn.
  case_decide as Hfree; [done|]. by rewrite retry_color_spins.
Qed.

Lemma overexposed_candidates (d : draw) :
  random_color (300, 300, 300) 30 d = (255, 255, 255).
Proof.
  destruct d as [[d0 d1] d2]. unfold random_color, randint, clamp.
  change (30 + 1 - Z.opp 30) with 61.
  pose proof (Z.mod_pos_bound d0 61).
  pose proof (Z.mod_pos_bound d1 61).
  pose proof (Z.mod_pos_bound d2 61).
  repeat f_equal; lia.
Qed.

Lemma get_color_exhausted_witness :
  get_color overexposed 7 [(1, 2, 3); (40, 50, 60)] = Spinning.
Proof.
  apply (get_color_exhausted overexposed 7 (mkCategory 7 "sky" (300, 300, 300) true)).
  - vm_compute. reflexivity.
  - reflexivity.
  - vm_compute. reflexivity.
  - intros d. cbn [cat_color]. rewrite overexposed_candidates. vm_compute. reflexivity.
Defined.

(** ** Raster helpers *)

(** X9. [bitmap2file] produces a file exactly for a 2-D uint32 or uint8
    bitmap flagged as segmentation bitmap; any other dtype or a false flag
    fails the assertion, and a bitmap of another dimension cannot be
    indexed. *)
Theorem bitmap2file_accepts (bitmap : ndarray) (is_segmentation_bitmap : bool) :
  let supported :=
    (nd_dtype bitmap = UInt32 ∨ nd_dtype bitmap = UInt8)
    ∧ is_segmentation_bitmap = true in
  ((∃ file, bitmap2file bitmap is_segmentation_bitmap = Ok file)
   ↔ supported ∧ nd_ndim bitmap = 2%nat)
  ∧ (bitmap2file bitmap is_segmentation_bitmap = Raise AssertionError
     ↔ ¬ supported)
  ∧ (bitmap2file bitmap is_segmentation_bitmap = Raise IndexError
     ↔ supported ∧ nd_ndim bitmap ≠ 2%nat).
Proof.
  destruct bitmap as [dt n a]. cbn [nd_dtype nd_ndim]. unfold bitmap2file.
  destruct (decide (dt = UInt32 ∨ dt = UInt8)) as [Hdt|Hdt];
    destruct is_segmentation_bitmap.
  - destruct n as [|[|[|n]]]; cbn; (split; [|split]); split;
      try (intros [? ?]; done); try done; try naive_solver.
  - (split; [|split]); split; try (intros [? ?]; done); try done; naive_solver.
  - (split; [|split]); split; try (intros [? ?]; done); try done; naive_solver.
  - (split; [|split]); split; try (intros [? ?]; done); try done; naive_solver.
Qed.

Lemma extract_rgba_of (v : Z) : extract_pixel (rgba_of v) = Ok (v mod 2 ^ 24).
Proof.
  unfold rgba_of, id2rgb_scalar; cbv zeta. cbn [extract_pixel].
  pose proof (Z.mod_pos_bound v 256).
  pose proof (Z.mod_pos_bound (v / 256) 256).
  pose proof (Z.mod_pos_bound (v / 256 / 256) 256).
  rewrite view_uint32_bytes by lia. by rewrite pack_digits_mod.
Qed.

(** X10. Writing any uint32 or uint8 bitmap with [bitmap2file] and reading
    it back with [extract_bitmap] gives a uint32 array holding every value
    modulo [2^24]: the byte overwritten by the alpha channel is lost, the
    rest is kept. *)
Theorem bitmap2file_extract_mod (dt : dtype) (bitmap : raster) :
  dt = UInt32 ∨ dt = UInt8 →
  Forall (Forall (λ v, 0 ≤ v < 2 ^ 32)) bitmap →
  bitmap2file (NdArray dt 2 bitmap) true ≫= extract_bitmap
  = Ok (NdArray UInt32 2 (map (map (λ v, v mod 2 ^ 24)) bitmap)).
Proof.
  intros Hdt Hbitmap.
  assert (bitmap2file (NdArray dt 2 bitmap) true = Ok (map (map rgba_of) bitmap)) as ->.
  { unfold bitmap2file. rewrite decide_True by done. cbn. f_equal. rewrite !map_map.
    apply map_ext_Forall. eapply Forall_impl; [exact Hbitmap|].
    intros row Hrow. cbn. rewrite !map_map.
    apply map_ext_Forall. eapply Forall_impl; [exact Hrow|].
    intros v Hv. cbv beta in Hv. by apply stored_pixel. }
  cbn [mbind result_bind rbind]. unfold extract_bitmap.
  assert (traverse (traverse extract_pixel) (map (map rgba_of) bitmap)
          = Ok (map (map (λ v, v mod 2 ^ 24)) bitmap)) as ->; [|done].
  clear. induction bitmap as [|row bitmap IH]; [done|].
  cbn [map traverse]. rewrite IH.
  assert (traverse extract_pixel (map rgba_of row)
          = Ok (map (λ v, v mod 2 ^ 24) row)) as ->; [|done].
  induction row as [|v row IHrow]; [done|].
  cbn [map traverse]. by rewrite extract_rgba_of, IHrow.
Qed.

Lemma bitmap2file_extract_mod_witness :
  bitmap2file (NdArray UInt32 2 [[16777216 + 5; 7]; [4294967295; 0]]) true
    ≫= extract_bitmap
  = Ok (NdArray UInt32 2
          (map (map (λ v, v mod 2 ^ 24)) [[16777216 + 5; 7]; [4294967295; 0]])).
Proof.
  apply (bitmap2file_extract_mod UInt32 [[16777216 + 5; 7]; [4294967295; 0]]).
  - by left.
  - repeat first [apply Forall_nil_2 | apply Forall_cons_2]; cbv beta; lia.
Defined.

Lemma view_uint8_pack (r g b : Z) :
  0 ≤ r < 256 → 0 ≤ g < 256 → 0 ≤ b < 256 →
  view_uint8 (cast UInt32 (pack r g b)) = [r; g; b; 0].
Proof.
  intros Hr Hg Hb.
  rewrite cast_uint32_small by (unfold pack; lia).
  rewrite view_uint8_digits.
  pose proof (digits_pack r g b Hr Hg Hb) as Hdigits.
  unfold id2rgb_scalar in Hdigits; cbv zeta in Hdigits.
  injection Hdigits as H0 H1 H2. rewrite H0, H1, H2.
  assert (0 ≤ pack r g b / 256 / 256 < 256) as Hhigh.
  { rewrite Z.div_div by lia. unfold pack. split.
    - apply Z.div_pos; lia.
    - apply Z.div_lt_upper_bound; lia. }
  by rewrite (Z.div_small (pack r g b / 256 / 256)) by done.
Qed.

(** X11. Reading a 4-channel 8-bit image with [extract_bitmap] and writing
    the result with [bitmap2file] gives the image back with its alpha channel
    set to 255: the three color bytes of every pixel survive. *)
Theorem extract_bitmap2file (image : pixels) :
  Forall (Forall (λ px, ∃ r g b a, px = [r; g; b; a]
                        ∧ 0 ≤ r < 256 ∧ 0 ≤ g < 256 ∧ 0 ≤ b < 256)) image →
  ∃ bitmap, extract_bitmap image = Ok bitmap
            ∧ bitmap2file bitmap true
              = Ok (map (map (λ px, <[3%nat := 255]> px)) image).
Proof.
  intros Himage.
  destruct (traverse_Forall2 (traverse extract_pixel)
              (Forall (λ px, ∃ r g b a, px = [r; g; b; a]
                             ∧ 0 ≤ r < 256 ∧ 0 ≤ g < 256 ∧ 0 ≤ b < 256))
              (Forall2 (λ px v, <[3%nat := 255]> (view_uint8 (cast UInt32 v))
                                = <[3%nat := 255]> px))
              image) as (ids & Hids & Hback); [|done|].
  - intros row Hrow. eapply traverse_Forall2; [|exact Hrow].
    intros px (r & g & b & a & -> & Hr & Hg & Hb).
    exists (pack r g b). split.
    + cbn [extract_pixel]. by rewrite view_uint32_bytes.
    + by rewrite view_uint8_pack.
  - exists (NdArray UInt32 2 ids). split.
    + unfold extract_bitmap. by rewrite Hids.
    + unfold bitmap2file. rewrite decide_True by auto.
      cbn -[cast view_uint8]. f_equal.
      rewrite !map_map. clear Hids Himage.
      induction Hback as [|row vs image ids Hrow _ IH]; [done|].
      cbn [map]. rewrite IH. f_equal. rewrite !map_map.
      clear IH. induction Hrow as [|px v row vs Hpx _ IHrow]; [done|].
      cbn [map]. by rewrite IHrow, Hpx.
Qed.

Lemma extract_bitmap2file_witness :
  ∃ bitmap, extract_bitmap [[[1; 2; 3; 0]; [255; 255; 255; 77]]] = Ok bitmap
            ∧ bitmap2file bitmap true
              = Ok (map (map (λ px, <[3%nat := 255]> px))
                        [[[1; 2; 3; 0]; [255; 255; 255; 77]]]).
Proof.
  apply (extract_bitmap2file [[[1; 2; 3; 0]; [255; 255; 255; 77]]]).
  repeat first [apply Forall_nil_2 | apply Forall_cons_2].
  - exists 1, 2, 3, 0. split; [reflexivity|lia].
  - exists 255, 255, 255, 77. split; [reflexivity|lia].
Defined.

(** X12. For a uint32 raster and annotations with non-negative ids,
    [get_semantic_bitmap] raises [IndexError] as soon as the raster holds a
    value above every annotation id: the lookup table ends at the largest
    annotation id. *)
Theorem get_semantic_bitmap_beyond_table {N : Type} (instance_bitmap : raster)
    (annotations : list (annotation N)) (id_increment : Z) :
  Forall (λ a, 0 ≤ ann_id a) annotations →
  Forall (Forall (λ v, 0 ≤ v < 2 ^ 32)) instance_bitmap →
  Exists (Exists (λ v, max_default (ann_id <$> annotations) < v)) instance_bitmap →
  get_semantic_bitmap (Some instance_bitmap) (Some annotations) id_increment
  = Raise IndexError.
Proof. apply get_semantic_bitmap_out_of_range. Qed.

Lemma get_semantic_bitmap_beyond_table_witness :
  get_semantic_bitmap (Some [[0; 1]; [2; 3]])
    (Some [mkAnnotation (N:=Z) 1 5 "mask" []; mkAnnotation 2 7 "mask" []]) 1
  = Raise IndexError.
Proof.
  apply (get_semantic_bitmap_beyond_table (N:=Z) [[0; 1]; [2; 3]]
           [mkAnnotation 1 5 "mask" []; mkAnnotation 2 7 "mask" []] 1).
  - repeat first [apply Forall_nil_2 | apply Forall_cons_2]; cbn; lia.
  - repeat first [apply Forall_nil_2 | apply Forall_cons_2]; cbv beta; lia.
  - apply Exists_cons_tl, Exists_cons_hd, Exists_cons_tl, Exists_cons_hd.
    cbn. lia.
Defined.

(** ** Colorized previews *)

Lemma zeros3_map (img : raster) :
  rectangular img →
  zeros3 (height img) (width img) = map (map (λ _, [0; 0; 0])) img.
Proof.
  unfold rectangular, zeros3, height. generalize (width img). intros w Hrows.
  induction Hrows as [|row img Hrow _ IH]; [done|].
  cbn. f_equal; [|done]. rewrite <- Hrow. clear.
  induction row as [|v row IH]; [done|]. cbn. by f_equal.
Qed.

Lemma cast_uint8_byte (z : Z) : 0 ≤ z < 256 → cast UInt8 z = z.
Proof. intros Hz. unfold cast, wrap_unsigned. by rewrite Z.mod_small. Qed.

Lemma paint_map (img : raster) (h : Z → list Z) (id : Z) (color : list Z) :
  byte_triple color →
  paint (map (map h) img) (mask_of img id) color
  = Ok (map (map (λ v, if decide (v = id) then color else h v)) img).
Proof.
  intros (r & g & b & -> & Hr & Hg & Hb). unfold paint, mask_of.
  rewrite !cast_uint8_byte by done. cbn [mbind result_bind rbind]. f_equal.
  induction img as [|row img IH]; [done|].
  cbn [map zip_with]. rewrite IH. f_equal.
  clear. induction row as [|v row IH]; [done|].
  cbn [map zip_with]. rewrite IH. f_equal.
  case_bool_decide; [by rewrite decide_True|by rewrite decide_False].
Qed.

(** The loop paints every listed label with its color and leaves the other
    pixels as they were. *)
Lemma colorize_loop_map (img : raster) (colormap : option (list (list Z)))
    (col : Z → list Z) (indices : list Z) (h : Z → list Z) :
  (∀ id, id ∈ indices →
     match colormap with
     | Some colormap => getitem_int colormap (id - 1)
     | None => Ok (palette_color (id - 1))
     end = Ok (col id) ∧ byte_triple (col id)) →
  colorize_loop img colormap indices (map (map h) img)
  = Ok (map (map (λ v, if decide (v ∈ indices) then col v else h v)) img).
Proof.
  revert h. induction indices as [|id ids IH]; intros h Hcol.
  - cbn. do 2 f_equal.
  - cbn [colorize_loop].
    destruct (Hcol id (list_elem_of_here _ _)) as [-> Hbyte].
    cbn [mbind result_bind rbind]. rewrite paint_map by done.
    cbn [mbind result_bind rbind]. rewrite IH.
    2:{ intros id' Hid'. apply Hcol. by apply list_elem_of_further. }
    f_equal. apply map_ext. intros row. apply map_ext. intros v.
    destruct (decide (v ∈ ids)) as [Hin|Hnotin].
    + rewrite decide_True; [done|by apply list_elem_of_further].
    + destruct (decide (v = id)) as [->|Hne].
      * rewrite decide_True; [done|apply list_elem_of_here].
      * rewrite decide_False; [done|].
        by intros [?|?]%elem_of_cons.
Qed.

Lemma elem_of_concat {A : Type} (x : A) (ls : list (list A)) :
  x ∈ concat ls ↔ ∃ l, x ∈ l ∧ l ∈ ls.
Proof.
  induction ls as [|l ls IH]; cbn.
  - split; [by intros ?%elem_of_nil|by intros (? & _ & ?%elem_of_nil)].
  - rewrite elem_of_app, IH. split.
    + intros [?|(l' & ? & ?)].
      * exists l. split; [done|apply list_elem_of_here].
      * exists l'. split; [done|by apply list_elem_of_further].
    + intros (l' & ? & [->|?]%elem_of_cons); [by left|right; eauto].
Qed.

Lemma colorize_indices (img : raster) (row : list Z) (v : Z) :
  row ∈ img → v ∈ row →
  v ∈ filter (λ id, id ≠ 0) (np_unique img) ↔ v ≠ 0.
Proof.
  intros Hrow Hv. rewrite list_elem_of_filter. unfold np_unique.
  rewrite merge_sort_Permutation, elem_of_remove_dups, elem_of_concat.
  naive_solver.
Qed.

Lemma palette_color_bytes (id : Z) : byte_triple (palette_color id).
Proof.
  unfold palette_color.
  pose proof (Z.mod_pos_bound id (Z.of_nat (length COLORMAP))) as Hbound.
  destruct (COLORMAP !! Z.to_nat (id mod Z.of_nat (length COLORMAP)))
    as [[[[r g] b] a]|] eqn:Hlookup.
  - assert (Forall (λ c : RGBA, 0 ≤ c.1.1.1 < 256 ∧ 0 ≤ c.1.1.2 < 256
                                ∧ 0 ≤ c.1.2 < 256) COLORMAP) as Hall.
    { unfold COLORMAP.
      repeat first [apply Forall_nil_2 | apply Forall_cons_2]; cbn; lia. }
    rewrite Forall_forall in Hall.
    specialize (Hall _ (proj2 (list_elem_of_lookup _ _) (ex_intro _ _ Hlookup))).
    cbn in Hall. exists r, g, b. split; [done|lia].
  - apply lookup_ge_None in Hlookup. cbn in Hlookup, Hbound. lia.
Qed.

(** X13. Without a colormap, [colorize] turns a rectangular raster into an
    image of the same shape in which every pixel with label 0 is black and
    every pixel with another label [v] has the palette color number
    [(v - 1) mod 36]. *)
Theorem colorize_palette (img : raster) :
  rectangular img →
  colorize img None
  = Ok (map (map (λ v, if decide (v = 0) then [0; 0; 0]
                       else palette_color (v - 1))) img).
Proof.
  intros Hrect. unfold colorize. rewrite zeros3_map by done.
  rewrite (colorize_loop_map img None (λ v, palette_color (v - 1))).
  2:{ intros id _. split; [done|apply palette_color_bytes]. }
  f_equal. apply map_ext_Forall, Forall_forall. intros row Hrow.
  apply map_ext_Forall, Forall_forall. intros v Hv.
  destruct (decide (v = 0)) as [->|Hne].
  - rewrite decide_False; [done|].
    by intros ?%(colorize_indices img row).
  - rewrite decide_True; [done|]. by apply (colorize_indices img row).
Qed.

Lemma colorize_palette_witness :
  colorize [[0; 1; 37]; [2; 0; 1]] None
  = Ok (map (map (λ v, if decide (v = 0) then [0; 0; 0]
                       else palette_color (v - 1))) [[0; 1; 37]; [2; 0; 1]]).
Proof.
  apply (colorize_palette [[0; 1; 37]; [2; 0; 1]]).
  repeat first [apply Forall_nil_2 | apply Forall_cons_2]; reflexivity.
Defined.

(** X14. With a colormap of byte triples, [colorize] maps every pixel with
    a label [v] between 1 and the length of the colormap to entry [v - 1] of
    the colormap and every pixel with label 0 to black. *)
Theorem colorize_colormap (img : raster) (colormap : list (list Z)) :
  rectangular img →
  Forall byte_triple colormap →
  Forall (Forall (λ v, 0 ≤ v ≤ Z.of_nat (length colormap))) img →
  colorize img (Some colormap)
  = Ok (map (map (λ v, if decide (v = 0) then [0; 0; 0]
                       else default [] (colormap !! Z.to_nat (v - 1)))) img).
Proof.
  intros Hrect Hmap Himg. unfold colorize. rewrite zeros3_map by done.
  rewrite (colorize_loop_map img (Some colormap)
             (λ v, default [] (colormap !! Z.to_nat (v - 1)))).
  - f_equal. apply map_ext_Forall, Forall_forall. intros row Hrow.
    apply map_ext_Forall, Forall_forall. intros v Hv.
    destruct (decide (v = 0)) as [->|Hne].
    + rewrite decide_False; [done|].
      by intros ?%(colorize_indices img row).
    + rewrite decide_True; [done|]. by apply (colorize_indices img row).
  - intros id [Hne Hid]%list_elem_of_filter.
    unfold np_unique in Hid.
    rewrite merge_sort_Permutation, elem_of_remove_dups, elem_of_concat in Hid.
    destruct Hid as (row & Hid & Hrow).
    rewrite Forall_forall in Himg. specialize (Himg row Hrow).
    rewrite Forall_forall in Himg. specialize (Himg id Hid). cbv beta in Himg.
    unfold getitem_int. rewrite decide_True by lia. unfold getitem.
    destruct (colormap !! Z.to_nat (id - 1)) as [color|] eqn:Hcolor.
    + split; [done|]. cbn. rewrite Forall_forall in Hmap. apply Hmap.
      apply list_elem_of_lookup. eauto.
    + apply lookup_ge_None in Hcolor. lia.
Qed.

Lemma colorize_colormap_witness :
  colorize [[0; 1]; [2; 2]] (Some [[10; 20; 30]; [40; 50; 60]])
  = Ok (map (map (λ v, if decide (v = 0) then [0; 0; 0]
                       else default [] ([[10; 20; 30]; [40; 50; 60]] !! Z.to_nat (v - 1))))
            [[0; 1]; [2; 2]]).
Proof.
  apply (colorize_colormap [[0; 1]; [2; 2]] [[10; 20; 30]; [40; 50; 60]]).
  - repeat first [apply Forall_nil_2 | apply Forall_cons_2]; reflexivity.
  - repeat first [apply Forall_nil_2 | apply Forall_cons_2];
      eexists _, _, _; (split; [reflexivity|lia]).
  - repeat first [apply Forall_nil_2 | apply Forall_cons_2]; cbn; lia.
Defined.

(** With a colormap shorter than a label, [colormap[id - 1]] is out of
    range. *)
Lemma colorize_loop_short (img : raster) (colormap : list (list Z))
    (indices : list Z) (h : Z → list Z) :
  Forall byte_triple colormap →
  Forall (λ id, 1 ≤ id) indices →
  Exists (λ id, Z.of_nat (length colormap) < id) indices →
  colorize_loop img (Some colormap) indices (map (map h) img) = Raise IndexError.
Proof.
  intros Hmap Hpos Hlong. revert h.
  induction indices as [|id ids IH]; intros h; [by apply Exists_nil in Hlong|].
  apply Forall_cons in Hpos as [Hid Hpos]. cbn [colorize_loop].
  unfold getitem_int. rewrite decide_True by lia. unfold getitem.
  destruct (colormap !! Z.to_nat (id - 1)) as [color|] eqn:Hcolor; [|done].
  cbn [mbind result_bind rbind]. rewrite paint_map.
  - cbn [mbind result_bind rbind]. apply IH; [done|].
    apply Exists_cons in Hlong as [Hlong|]; [|done].
    apply lookup_lt_Some in Hcolor. lia.
  - rewrite Forall_forall in Hmap. apply Hmap, list_elem_of_lookup. eauto.
Qed.

(** X15. With a colormap of byte triples, [colorize] raises [IndexError] as
    soon as the raster, whose labels are not negative, holds a label beyond
    the length of the colormap. *)
Theorem colorize_colormap_short (img : raster) (colormap : list (list Z)) :
  rectangular img →
  Forall byte_triple colormap →
  Forall (Forall (λ v, 0 ≤ v)) img →
  Exists (Exists (λ v, Z.of_nat (length colormap) < v)) img →
  colorize img (Some colormap) = Raise IndexError.
Proof.
  intros Hrect Hmap Himg Hlong. unfold colorize. rewrite zeros3_map by done.
  apply colorize_loop_short; [done| |].
  - apply Forall_forall. intros id [Hne Hid]%list_elem_of_filter.
    unfold np_unique in Hid.
    rewrite merge_sort_Permutation, elem_of_remove_dups, elem_of_concat in Hid.
    destruct Hid as (row & Hid & Hrow).
    rewrite Forall_forall in Himg. specialize (Himg row Hrow).
    rewrite Forall_forall in Himg. specialize (Himg id Hid). cbv beta in Himg. lia.
  - apply Exists_exists in Hlong as (row & Hrow & Hlong).
    apply Exists_exists in Hlong as (v & Hv & Hlong).
    apply Exists_exists. exists v. split; [|done].
    apply (colorize_indices img row); [done..|]. lia.
Qed.

Lemma colorize_colormap_short_witness :
  colorize [[0; 1]; [3; 2]] (Some [[10; 20; 30]; [40; 50; 60]]) = Raise IndexError.
Proof.
  apply (colorize_colormap_short [[0; 1]; [3; 2]] [[10; 20; 30]; [40; 50; 60]]).
  - repeat first [apply Forall_nil_2 | apply Forall_cons_2]; reflexivity.
  - repeat first [apply Forall_nil_2 | apply Forall_cons_2];
      eexists _, _, _; (split; [reflexivity|lia]).
  - repeat first [apply Forall_nil_2 | apply Forall_cons_2]; cbn; lia.
  - apply Exists_cons_tl, Exists_cons_hd, Exists_cons_hd. cbn. lia.
Defined.

(** ** Format emitters *)

Section EmitterContracts.
Context `{Externals}.

Lemma quiet_ret {A : Type} (a : A) : quiet (mret a).
Proof.
  intros w r w'. unfold mret, io_mret, io_ret.
  intros ?; simplify_eq. exists []. by repeat split.
Qed.

Lemma quiet_raise {A : Type} (e : exn) : quiet (raise (A:=A) e).
Proof.
  intros w r w'. unfold raise.
  intros ?; simplify_eq. exists []. by repeat split.
Qed.

Lemma quiet_lift {A : Type} (r : result A) : quiet (lift r).
Proof.
  intros w r' w'. unfold lift.
  intros ?; simplify_eq. exists []. by repeat split.
Qed.

Lemma quiet_log (line : string) : quiet (emit (LogInfo line)).
Proof.
  intros w r w'. unfold emit.
  intros ?; simplify_eq. exists [LogInfo line]. cbn.
  repeat split. apply Forall_singleton. by exists line.
Qed.

Lemma quiet_bind {A B : Type} (m : io A) (k : A → io B) :
  quiet m → (∀ a, quiet (k a)) → quiet (m ≫= k).
Proof.
  intros Hm Hk w r w'. unfold mbind, io_mbind, io_bind.
  destruct (m w) as [[a| |] w1] eqn:Hrun.
  - intros Hrest.
    destruct (Hm _ _ _ Hrun) as (logs1 & Ht1 & Hl1 & Hr1).
    destruct (Hk a _ _ _ Hrest) as (logs2 & Ht2 & Hl2 & Hr2).
    exists (logs2 ++ logs1). rewrite Ht2, Ht1, Hr2, Hr1.
    split; [by rewrite app_assoc|]. split; [by apply Forall_app|done].
  - intros ?; simplify_eq. by apply Hm in Hrun.
  - intros ?; simplify_eq. by apply Hm in Hrun.
Qed.

Lemma quiet_for_each {A St : Type} (body : A → St → io St) (l : list A) (st : St) :
  (∀ a st, quiet (body a st)) → quiet (for_each body l st).
Proof.
  intros Hbody. revert st. induction l as [|a l IH]; intros st; cbn.
  - apply quiet_ret.
  - apply quiet_bind; [apply Hbody|apply IH].
Qed.

Lemma quiet_for_samples {St : Type} (body : nat → sample → St → io St)
    (i : nat) (samples : list sample) (st : St) :
  (∀ i s st, quiet (body i s st)) → quiet (for_samples body i samples st).
Proof.
  intros Hbody. revert i st. induction samples as [|s samples IH]; intros i st; cbn.
  - apply quiet_ret.
  - apply quiet_bind; [apply Hbody|apply IH].
Qed.

Lemma quiet_coco_instance_annotation (task_type : string) (s : sample)
    (regions : gmap Z region) (image_id : Z) (instance : annotation num)
    (st : list coco_annotation * Z) :
  quiet (coco_instance_annotation task_type s regions image_id instance st).
Proof.
  unfold coco_instance_annotation. destruct st as [annotations annotation_id].
  repeat case_decide.
  - destruct (regions !! ann_id instance) as [region|].
    + apply quiet_bind; [apply quiet_lift|]. intros bitmap.
      destruct (region_bbox region) as [[[y0 x0] y1] x1]. apply quiet_ret.
    + apply quiet_bind; [apply quiet_log|]. intros _. apply quiet_ret.
  - repeat (apply quiet_bind; [apply quiet_lift|]; intros ?). apply quiet_ret.
  - apply quiet_raise.
Qed.

Lemma quiet_coco_instance_sample (task_type : string) (i : nat) (s : sample)
    (st : list coco_image * list coco_annotation * Z) :
  quiet (coco_instance_sample task_type i s st).
Proof.
  unfold coco_instance_sample. destruct st as [[images annotations] annotation_id].
  destruct (s_annotations s) as [| |sample_annotations].
  - apply quiet_raise.
  - apply quiet_ret.
  - apply quiet_bind; [apply quiet_lift|]. intros bitmap.
    apply quiet_bind.
    + apply quiet_for_each. intros. apply quiet_coco_instance_annotation.
    + intros [??]. apply quiet_ret.
Qed.

(** X16. [export_coco_instance] writes its JSON document as its last act
    but one: a run that returns has created the export folder, logged, and
    then written exactly one file, the document, under the returned name; a
    run that raises has written no file at all. *)
Theorem export_coco_instance_writes (dataset : SegmentsDataset)
    (export_folder : string) (w : world) :
  let file_name :=
    path_join export_folder
      ("export_coco-instance_" +:+ ds_dataset_identifier dataset +:+ "_"
         +:+ ds_release_name dataset +:+ ".json") in
  ∃ logs, Forall is_log logs ∧
    match export_coco_instance dataset export_folder w with
    | (Ok returned, w') =>
        returned = (file_name, ds_image_dir dataset)
        ∧ ∃ line document,
            trace w' = LogInfo line :: WriteFile file_name document :: logs
                         ++ MakeDirs export_folder :: trace w
    | (_, w') => trace w' = logs ++ MakeDirs export_folder :: trace w
    end.
Proof.
  intros file_name. unfold export_coco_instance.
  unfold mbind at 1 2. unfold io_mbind, io_bind. cbn [emit].
  match goal with
  | |- context [for_samples ?body 0 ?samples ?st ?w0] =>
      pose proof (quiet_for_samples body 0 samples st
                    (quiet_coco_instance_sample _) w0) as Hloop;
      destruct (for_samples body 0 samples st w0) as [[[[images annotations] k]| |] w1]
  end.
  - destruct (Hloop _ _ eq_refl) as (logs & Ht & Hlogs & _).
    exists logs. split; [done|]. cbn. split; [done|].
    eexists _, _. by rewrite Ht.
  - destruct (Hloop _ _ eq_refl) as (logs & Ht & Hlogs & _).
    exists logs. by split.
  - destruct (Hloop _ _ eq_refl) as (logs & Ht & Hlogs & _).
    exists logs. by split.
Qed.

Lemma coco_instance_annotations_numbered (task_type : string) (s : sample)
    (regions : gmap Z region) (image_id : Z) (instances : list (annotation num))
    (annotations0 annotations : list coco_annotation) (k0 k : Z) (w w' : world) :
  for_each (coco_instance_annotation task_type s regions image_id) instances
           (annotations0, k0) w = (Ok (annotations, k), w') →
  ∃ new, annotations = annotations0 ++ new
         ∧ k = k0 + Z.of_nat (length new)
         ∧ ∀ p a, new !! p = Some a → ca_id a = k0 + Z.of_nat p.
Proof.
  revert annotations0 k0 w.
  induction instances as [|instance instances IH]; intros annotations0 k0 w; cbn.
  - intros [? _]%io_ret_ok; simplify_eq. exists []. rewrite app_nil_r.
    split; [done|]. split; [cbn; lia|by intros [|?] ??].
  - intros ([anns1 k1] & w1 & Hstep & Hrest)%io_bind_ok.
    apply IH in Hrest as (new & -> & -> & Hnew).
    assert ((anns1 = annotations0 ∧ k1 = k0)
            ∨ ∃ a, anns1 = annotations0 ++ [a] ∧ k1 = k0 + 1 ∧ ca_id a = k0)
      as [[-> ->]|(a & -> & -> & Ha)].
    { revert Hstep. unfold coco_instance_annotation. repeat case_decide.
      - destruct (regions !! ann_id instance) as [region|].
        + intros (bitmap & w2 & _ & Hret)%io_bind_ok.
          destruct (region_bbox region) as [[[y0 x0] y1] x1].
          apply io_ret_ok in Hret as [? _]; simplify_eq. right. eauto.
        + intros (? & w2 & _ & [? _]%io_ret_ok)%io_bind_ok. simplify_eq. by left.
      - intros (x0 & ? & _ & (y0 & ? & _ & (x1 & ? & _ & (y1 & ? & _ & Hret)%io_bind_ok)
                  %io_bind_ok)%io_bind_ok)%io_bind_ok.
        apply io_ret_ok in Hret as [? _]; simplify_eq. right. eauto.
      - done. }
    + by exists new.
    + exists (a :: new). rewrite <- app_assoc. split; [done|].
      split; [cbn; lia|]. intros [|p] a' Hp; cbn in Hp; simplify_eq; [lia|].
      rewrite (Hnew p a' Hp). lia.
Qed.

Lemma coco_instance_numbered (task_type : string) (samples : list sample) (i0 : nat)
    (images0 images : list coco_image) (annotations0 annotations : list coco_annotation)
    (k0 k : Z) (w w' : world) :
  for_samples (coco_instance_sample task_type) i0 samples (images0, annotations0, k0) w
  = (Ok (images, annotations, k), w') →
  (∃ new, annotations = annotations0 ++ new
          ∧ k = k0 + Z.of_nat (length new)
          ∧ ∀ p a, new !! p = Some a → ca_id a = k0 + Z.of_nat p)
  ∧ (∃ new, images = images0 ++ new
            ∧ StronglySorted Z.lt (ci_id <$> new)
            ∧ Forall (λ im, Z.of_nat i0 + 1 ≤ ci_id im) new).
Proof.
  revert i0 images0 annotations0 k0 w.
  induction samples as [|s samples IH]; intros i0 images0 annotations0 k0 w; cbn.
  - intros [? _]%io_ret_ok; simplify_eq. split.
    + exists []. rewrite app_nil_r. split; [done|]. split; [cbn; lia|by intros [|?] ??].
    + exists []. rewrite app_nil_r. split; [done|]. split; constructor.
  - intros ([[images1 annotations1] k1] & w1 & Hstep & Hrest)%io_bind_ok.
    apply IH in Hrest as [(newa & -> & -> & Hnewa) (newi & -> & Hsorted & Hlow)].
    assert ((∃ new1, annotations1 = annotations0 ++ new1
                     ∧ k1 = k0 + Z.of_nat (length new1)
                     ∧ ∀ p a, new1 !! p = Some a → ca_id a = k0 + Z.of_nat p)
            ∧ (images1 = images0
               ∨ ∃ im, images1 = images0 ++ [im] ∧ ci_id im = Z.of_nat i0 + 1))
      as [(new1 & -> & -> & Hnew1) Himages1].
    { revert Hstep. unfold coco_instance_sample.
      destruct (s_annotations s) as [| |l]; [done| |].
      - intros [? _]%io_ret_ok; simplify_eq. split; [|by left].
        exists []. rewrite app_nil_r. split; [done|]. split; [cbn; lia|by intros [|?] ??].
      - intros (bitmap & w2 & _ & ([anns2 k2] & w3 & Hloop & Hret)%io_bind_ok)%io_bind_ok.
        apply io_ret_ok in Hret as [? _]; simplify_eq.
        split; [by eapply coco_instance_annotations_numbered|].
        right. eauto. }
    split.
    + exists (new1 ++ newa). rewrite app_assoc. split; [done|].
      split; [rewrite length_app; lia|].
      intros p a Hp. apply lookup_app_Some in Hp as [Hp|[Hge Hp]]; [by apply Hnew1|].
      rewrite (Hnewa _ _ Hp). lia.
    + assert (Forall (λ im, Z.of_nat i0 + 1 ≤ ci_id im) newi) as Hlow'.
      { eapply Forall_impl; [exact Hlow|]. intros im ?. cbv beta in *. lia. }
      destruct Himages1 as [->|(im & -> & Him)].
      * by exists newi.
      * exists (im :: newi). rewrite <- app_assoc. split; [done|]. split.
        -- cbn. constructor; [done|]. apply Forall_fmap.
           eapply Forall_impl; [exact Hlow|]. intros im' ?. cbn in *. lia.
        -- constructor; [lia|done].
Qed.

(** X17. In the lists [export_coco_instance] collects, the annotation ids
    count up from 1 without a gap, and the image ids are strictly increasing
    and lie between 1 and the number of samples. *)
Theorem coco_instance_ids (task_type : string) (samples : list sample)
    (images : list coco_image) (annotations : list coco_annotation) (k : Z)
    (w w' : world) :
  for_samples (coco_instance_sample task_type) 0 samples ([], [], 1) w
  = (Ok (images, annotations, k), w') →
  (∀ p a, annotations !! p = Some a → ca_id a = Z.of_nat p + 1)
  ∧ StronglySorted Z.lt (ci_id <$> images)
  ∧ Forall (λ im, 1 ≤ ci_id im ≤ Z.of_nat (length samples)) images.
Proof.
  intros Hrun.
  destruct (coco_instance_numbered _ _ _ _ _ _ _ _ _ _ _ Hrun)
    as [(newa & -> & _ & Hnewa) (newi & -> & Hsorted & _)].
  apply coco_instance_entries in Hrun as [Himages _].
  split; [|split].
  - intros p a Hp. rewrite (Hnewa p a Hp). lia.
  - done.
  - apply Forall_forall. intros im Him.
    destruct (Himages im Him) as [?%elem_of_nil|(j & s & l & Hj & _ & ->)]; [done|].
    apply lookup_lt_Some in Hj. lia.
Qed.

(** X18. [export_yolo] writes lines for the annotations of type bbox only:
    the others change nothing, lines already written stay as they are, and a
    loop that ends normally has added one line per bbox annotation. *)
Theorem yolo_lines_bbox_only (image_width image_height : Z)
    (annotations : list (annotation num)) (written : list string) :
  let boxes := filter (λ a, ann_type a = "bbox") annotations in
  yolo_lines image_width image_height annotations written
  = yolo_lines image_width image_height boxes written
  ∧ ∃ new, (yolo_lines image_width image_height annotations written).1
           = written ++ new
           ∧ ((yolo_lines image_width image_height annotations written).2 = Ok () →
              length new = length boxes).
Proof.
  cbv zeta. revert written.
  induction annotations as [|a annotations IH]; intros written.
  - split; [done|]. exists []. by rewrite app_nil_r.
  - cbn [yolo_lines]. destruct (decide (ann_type a = "bbox")) as [Hbox|Hbox].
    + rewrite filter_cons_True by done. cbn [yolo_lines]. rewrite decide_True by done.
      destruct (yolo_line image_width image_height a) as [line| |].
      * destruct (IH (written ++ [line])) as [Heq (new & Hnew & Hlen)].
        split; [done|]. exists (line :: new).
        rewrite Hnew, <- app_assoc. split; [done|]. cbn. intros ?. f_equal. auto.
      * split; [done|]. exists []. by rewrite app_nil_r.
      * split; [done|]. exists []. by rewrite app_nil_r.
    + rewrite filter_cons_False by done. apply IH.
Qed.

Lemma written_paths_app (l1 l2 : list event) :
  written_paths (l1 ++ l2) = written_paths l1 ++ written_paths l2.
Proof. apply omap_app. Qed.

Lemma export_yolo_sample_files (dataset : SegmentsDataset) (i : nat) (s : sample)
    (st st' : unit) (w w' : world) :
  export_yolo_sample dataset i s st w = (Ok st', w') →
  ∃ events, trace w' = events ++ trace w
    ∧ (length events ≤ 1)%nat
    ∧ Forall (λ e, ∃ path content, e = WriteFile path content) events
    ∧ written_paths events
      = if decide (has_annotations s)
        then [ds_image_dir dataset +:+ "/" +:+ path_stem (s_name s) +:+ ".txt"]
        else [].
Proof.
  intros Hrun. destruct (decide (has_annotations s)) as [Hyes|Hno];
    unfold has_annotations in *; unfold export_yolo_sample in Hrun;
    destruct (s_annotations s) as [| |[|a l]]; try done; try (by destruct Hno).
  - apply io_bind_ok in Hrun as (image & w1 & Himage & Hrest).
    unfold lift in Himage. simplify_eq.
    destruct (yolo_lines _ _ _ _) as [written ended].
    apply io_bind_ok in Hrest as (? & w2 & Hemit & Hend).
    unfold emit in Hemit. unfold lift in Hend. simplify_eq. cbn.
    eexists [_]. split; [done|]. split; [done|].
    split; [|done]. apply Forall_singleton. eauto.
  - apply io_ret_ok in Hrun as [? ?]; simplify_eq. exists []. cbn. repeat split; [lia|done].
  - apply io_ret_ok in Hrun as [? ?]; simplify_eq. exists []. cbn. repeat split; [lia|done].
  - apply io_ret_ok in Hrun as [? ?]; simplify_eq. exists []. cbn. repeat split; [lia|done].
Qed.

Lemma export_yolo_loop_files (dataset : SegmentsDataset) (i : nat)
    (samples : list sample) (st st' : unit) (w w' : world) :
  for_samples (export_yolo_sample dataset) i samples st w = (Ok st', w') →
  ∃ events, trace w' = events ++ trace w
    ∧ Forall (λ e, ∃ path content, e = WriteFile path content) events
    ∧ written_paths (reverse events)
      = (λ s, ds_image_dir dataset +:+ "/" +:+ path_stem (s_name s) +:+ ".txt")
          <$> filter has_annotations samples.
Proof.
  revert i st w. induction samples as [|s samples IH]; intros i st w; cbn.
  - intros [? ?]%io_ret_ok; simplify_eq. exists []. by repeat split.
  - intros (st1 & w1 & Hstep & Hrest)%io_bind_ok.
    apply export_yolo_sample_files in Hstep as (ev1 & Ht1 & Hlen1 & Hw1 & Hp1).
    apply IH in Hrest as (ev2 & Ht2 & Hw2 & Hp2).
    exists (ev2 ++ ev1). rewrite Ht2, Ht1, app_assoc. split; [done|].
    split; [by apply Forall_app|].
    rewrite reverse_app, written_paths_app, Hp2.
    assert (written_paths (reverse ev1) = written_paths ev1) as ->.
    { destruct ev1 as [|e [|??]]; [done..|]. cbn in Hlen1. lia. }
    rewrite Hp1. by destruct (decide (has_annotations s)).
Qed.

(** X19. A run of [export_yolo] that returns has written one text file for
    every sample with a non-empty annotation list, in dataset order and named
    after the sample in the image directory, and none for the other samples;
    it returns the image directory and never creates the export folder. *)
Theorem export_yolo_files (dataset : SegmentsDataset) (export_folder : string)
    (returned : string) (w w' : world) :
  export_yolo dataset export_folder w = (Ok returned, w') →
  returned = ds_image_dir dataset
  ∧ ∃ events, trace w' = events ++ trace w
      ∧ Forall (λ e, is_log e ∨ ∃ path content, e = WriteFile path content) events
      ∧ written_paths (reverse events)
        = (λ s, ds_image_dir dataset +:+ "/" +:+ path_stem (s_name s) +:+ ".txt")
            <$> filter has_annotations (ds_samples dataset).
Proof.
  unfold export_yolo. case_decide; [done|].
  intros (? & w1 & Hfirst & (? & w2 & Hloop & (? & w3 & Hlog & Hret)%io_bind_ok)
            %io_bind_ok)%io_bind_ok.
  apply io_ret_ok in Hret as [<- <-]. split; [done|].
  apply export_yolo_loop_files in Hloop as (events & Ht & Hw & Hp).
  unfold emit in Hlog. simplify_eq. cbn [trace]. rewrite Ht.
  assert (∃ first, trace w1 = first ++ trace w ∧ Forall is_log first
                   ∧ written_paths (reverse first) = []) as (first & -> & Hl & Hf).
  { case_decide.
    - unfold emit in Hfirst. simplify_eq. eexists [_]. cbn.
      split; [done|]. split; [|done]. apply Forall_singleton. by eexists.
    - apply io_ret_ok in Hfirst as [_ <-]. by exists []. }
  exists (LogInfo ("Exported. Images and labels in " +:+ ds_image_dir dataset)
            :: events ++ first).
  split; [cbn; by rewrite <- app_assoc|]. split.
  - constructor; [left; by eexists|]. apply Forall_app. split.
    + eapply Forall_impl; [exact Hw|]. auto.
    + eapply Forall_impl; [exact Hl|]. auto.
  - rewrite reverse_cons, reverse_app, !written_paths_app, Hf, Hp. cbn.
    by rewrite app_nil_r.
Qed.

(** X20. For an export format that is none of the seven known ones,
    [export_dataset] prints its opening message and returns [None]: nothing
    is checked, created or written. *)
Theorem export_dataset_unknown_format (dataset : SegmentsDataset)
    (export_folder export_format : string) (id_increment : Z) (w : world) :
  export_format ∉ "yolo" :: bitmap_formats →
  export_dataset dataset export_folder export_format id_increment w
  = (Ok NoExport, printed w).
Proof.
  intros Hformat. unfold export_dataset, bitmap_formats in *.
  unfold mbind at 1. unfold io_mbind, io_bind. cbn [emit].
  repeat (case_decide; [exfalso; apply Hformat; set_solver|]).
  done.
Qed.

Lemma parse_categories_short (i : nat) (cats : list dataset_category) :
  Exists (λ c, ∃ color, dc_color c = Some color ∧ (length color < 3)%nat) cats →
  parse_categories i cats = Raise ValidationError.
Proof.
  intros Hshort. revert i. induction Hshort as [c cats Hc|c cats _ IH]; intros i; cbn.
  - destruct Hc as (color & Hcolor & Hlen). unfold category_color. rewrite Hcolor.
    by destruct color as [|? [|? [|? ?]]]; cbn in *; try lia.
  - unfold parse_category.
    destruct (category_color i c) as [|? [|? [|? [|]]]]; cbn; try done.
    by rewrite IH.
Qed.

(** X21. When some category of the dataset has a color with fewer than
    three channels, [export_coco_panoptic] raises [ValidationError] once it
    has created the export folder: no sample is read and no file written. *)
Theorem export_coco_panoptic_short_color (dataset : SegmentsDataset)
    (export_folder : string) (w : world) :
  Exists (λ c, ∃ color, dc_color c = Some color ∧ (length color < 3)%nat)
         (ds_categories dataset) →
  export_coco_panoptic dataset export_folder w
  = (Raise ValidationError,
     {| trace := MakeDirs export_folder :: trace w;
        random_source := random_source w |}).
Proof.
  intros Hshort. unfold export_coco_panoptic.
  unfold mbind at 1 2. unfold io_mbind, io_bind. cbn [emit].
  unfold lift. by rewrite parse_categories_short.
Qed.

Lemma paint_map_any (img : raster) (h : Z → list Z) (id r g b : Z) :
  paint (map (map h) img) (mask_of img id) [r; g; b]
  = Ok (map (map (λ v, if decide (v = id)
                       then [cast UInt8 r; cast UInt8 g; cast UInt8 b]
                       else h v)) img).
Proof.
  unfold paint, mask_of. cbn [mbind result_bind rbind]. f_equal.
  induction img as [|row img IH]; [done|].
  cbn [map zip_with]. rewrite IH. f_equal.
  clear. induction row as [|v row IH]; [done|].
  cbn [map zip_with]. rewrite IH. f_equal.
  case_bool_decide; [by rewrite decide_True|by rewrite decide_False].
Qed.

Lemma panoptic_instance_label (s : sample) (regions : gmap Z region)
    (instance : annotation num) (bitmap : raster) (h : Z → list Z)
    (g g' : IdGenerator) (label' : pixels) (infos infos' : list segment_info)
    (w w' : world) :
  np_array_uint32 (s_segmentation_bitmap s) = Ok bitmap →
  panoptic_instance s regions instance (g, map (map h) bitmap, infos) w
  = (Ok (g', label', infos'), w') →
  ∃ h', label' = map (map h') bitmap ∧ ∀ v, v ≠ ann_id instance → h' v = h v.
Proof.
  intros Hbitmap. unfold panoptic_instance.
  intros ([[id color] g1] & w1 & _ & Hrest)%io_bind_ok.
  destruct (regions !! ann_id instance) as [region|].
  - rewrite Hbitmap in Hrest.
    apply io_bind_ok in Hrest as (bitmap' & w2 & Hlift & Hrest).
    unfold lift in Hlift. simplify_eq.
    destruct color as [[r gr] b]. rewrite paint_map_any in Hrest.
    apply io_bind_ok in Hrest as (label1 & w3 & Hlift & Hrest).
    unfold lift in Hlift. simplify_eq.
    destruct (region_bbox region) as [[[y0 x0] y1] x1].
    apply io_ret_ok in Hrest as [? _]; simplify_eq.
    eexists. split; [done|]. intros v Hv. cbv beta. by rewrite decide_False.
  - apply io_bind_ok in Hrest as (? & w2 & _ & [? _]%io_ret_ok). simplify_eq.
    by exists h.
Qed.

Lemma panoptic_instances_label (s : sample) (regions : gmap Z region)
    (instances : list (annotation num)) (bitmap : raster) (h : Z → list Z)
    (g g' : IdGenerator) (label' : pixels) (infos infos' : list segment_info)
    (w w' : world) :
  np_array_uint32 (s_segmentation_bitmap s) = Ok bitmap →
  for_each (panoptic_instance s regions) instances (g, map (map h) bitmap, infos) w
  = (Ok (g', label', infos'), w') →
  ∃ h', label' = map (map h') bitmap
        ∧ ∀ v, (∀ a, a ∈ instances → ann_id a ≠ v) → h' v = h v.
Proof.
  intros Hbitmap. revert h g infos w.
  induction instances as [|instance instances IH]; intros h g infos w; cbn.
  - intros [? _]%io_ret_ok; simplify_eq. by exists h.
  - intros ([[g1 label1] infos1] & w1 & Hstep & Hrest)%io_bind_ok.
    apply (panoptic_instance_label _ _ _ _ _ _ _ _ _ _ _ _ Hbitmap) in Hstep
      as (h1 & -> & Hh1).
    apply IH in Hrest as (h' & -> & Hh').
    exists h'. split; [done|]. intros v Hv.
    rewrite Hh'; [|intros a Ha; apply Hv; by apply list_elem_of_further].
    apply Hh1. intros ->. by destruct (Hv instance (list_elem_of_here _ _)).
Qed.

(** X22. For a sample with annotations and a rectangular bitmap,
    [export_coco_panoptic] saves, under the label file name of the sample, a
    3-channel image of the shape of the bitmap in which the color of a pixel
    depends on its label only, and a pixel whose label is the id of no
    annotation is black. *)
Theorem coco_panoptic_background (dataset : SegmentsDataset) (i : nat) (s : sample)
    (instances : list (annotation num)) (bitmap : raster)
    (st st' : IdGenerator * list coco_image * list panoptic_annotation)
    (w w' : world) :
  s_annotations s = Present instances →
  s_segmentation_bitmap s = Some bitmap →
  rectangular bitmap →
  coco_panoptic_sample dataset i s st w = (Ok st', w') →
  ∃ (color_of : Z → list Z) (earlier : list event),
    trace w'
    = WriteFile
        (path_join (ds_image_dir dataset)
           (path_stem (s_name s) +:+ "_label_" +:+ ds_labelset dataset
              +:+ "_coco-panoptic.png"))
        (Png (Color (map (map color_of) bitmap))) :: earlier
    ∧ ∀ v, (∀ a, a ∈ instances → ann_id a ≠ cast UInt32 v) →
           color_of v = [0; 0; 0].
Proof.
  intros Hann Hbitmap Hrect. unfold coco_panoptic_sample.
  destruct st as [[g images] annotations]. rewrite Hann, Hbitmap.
  intros (size & w1 & Hsize & (bm & w2 & Hbm & Hrest)%io_bind_ok)%io_bind_ok.
  unfold lift in Hsize, Hbm. simplify_eq. cbn [fst snd] in Hrest.
  rewrite zeros3_map in Hrest by done.
  replace (map (map (λ _ : Z, [0; 0; 0])) bitmap)
    with (map (map (λ _ : Z, [0; 0; 0])) (map (map (cast UInt32)) bitmap)) in Hrest.
  2:{ rewrite map_map. apply map_ext. intros row. by rewrite map_map. }
  apply io_bind_ok in Hrest as ([[g' label'] infos'] & w3 & Hloop & Hrest).
  apply panoptic_instances_label with (bitmap := map (map (cast UInt32)) bitmap)
    in Hloop as (h' & -> & Hh'); [|by rewrite Hbitmap].
  apply io_bind_ok in Hrest as (? & w4 & Hemit & [_ <-]%io_ret_ok).
  unfold emit in Hemit. simplify_eq. cbn [trace].
  assert (map (map h') (map (map (cast UInt32)) bitmap)
          = map (map (λ v, h' (cast UInt32 v))) bitmap) as ->.
  { rewrite map_map. apply map_ext. intros row. by rewrite map_map. }
  exists (λ v, h' (cast UInt32 v)), (trace w3). split; [done|].
  intros v Hv. by rewrite Hh'.
Qed.

Lemma export_image_sample_files (dataset : SegmentsDataset)
    (categories : list image_category) (export_format : string) (id_increment : Z)
    (i : nat) (s : sample) (st st' : unit) (w w' : world) :
  export_image_sample dataset categories export_format id_increment i s st w
  = (Ok st', w') →
  ∃ events, trace w' = events ++ trace w
    ∧ (length events ≤ 1)%nat
    ∧ Forall (λ e, ∃ path content, e = WriteFile path content) events
    ∧ written_paths events
      = match label_suffix export_format with
        | Some suffix =>
            if decide (is_annotated s)
            then [label_path dataset (path_stem (s_name s)) suffix]
            else []
        | None => []
        end.
Proof.
  intros Hrun. unfold export_image_sample in Hrun.
  destruct (decide (is_annotated s)) as [Hyes|Hno]; unfold is_annotated in *;
    destruct (s_annotations s) as [| |sample_annotations];
    try done; try (by destruct Hno).
  - unfold label_suffix. repeat case_decide.
    + destruct (s_segmentation_bitmap s); [|done].
      unfold emit in Hrun. simplify_eq. cbn.
      eexists [_]. repeat split; [done|]. apply Forall_singleton. eauto.
    + apply io_bind_ok in Hrun as (img & w1 & Himg & Hrun).
      apply io_bind_ok in Hrun as (colored & w2 & Hcolored & Hrun).
      unfold lift in Himg, Hcolored. unfold emit in Hrun. simplify_eq. cbn.
      eexists [_]. repeat split; [done|]. apply Forall_singleton. eauto.
    + apply io_bind_ok in Hrun as (label & w1 & Hlabel & Hrun).
      apply io_bind_ok in Hrun as (img & w2 & Himg & Hrun).
      unfold lift in Hlabel, Himg. unfold emit in Hrun. simplify_eq. cbn.
      eexists [_]. repeat split; [done|]. apply Forall_singleton. eauto.
    + apply io_bind_ok in Hrun as (label & w1 & Hlabel & Hrun).
      apply io_bind_ok in Hrun as (img & w2 & Himg & Hrun).
      apply io_bind_ok in Hrun as (colored & w3 & Hcolored & Hrun).
      unfold lift in Hlabel, Himg, Hcolored. unfold emit in Hrun. simplify_eq. cbn.
      eexists [_]. repeat split; [done|]. apply Forall_singleton. eauto.
    + apply io_ret_ok in Hrun as [? ?]; simplify_eq. exists [].
      cbn. repeat split; [lia|done].
  - apply io_ret_ok in Hrun as [? ?]; simplify_eq. exists [].
    cbn. repeat split; [lia|done|by destruct (label_suffix export_format)].
Qed.

Lemma export_image_loop_files (dataset : SegmentsDataset)
    (categories : list image_category) (export_format : string) (id_increment : Z)
    (i : nat) (samples : list sample) (st st' : unit) (w w' : world) :
  for_samples (export_image_sample dataset categories export_format id_increment)
              i samples st w = (Ok st', w') →
  ∃ events, trace w' = events ++ trace w
    ∧ Forall (λ e, ∃ path content, e = WriteFile path content) events
    ∧ written_paths (reverse events)
      = match label_suffix export_format with
        | Some suffix =>
            (λ s, label_path dataset (path_stem (s_name s)) suffix)
              <$> filter is_annotated samples
        | None => []
        end.
Proof.
  revert i st w. induction samples as [|s samples IH]; intros i st w; cbn.
  - intros [? ?]%io_ret_ok; simplify_eq. exists [].
    repeat split; [done|by destruct (label_suffix export_format)].
  - intros (st1 & w1 & Hstep & Hrest)%io_bind_ok.
    apply export_image_sample_files in Hstep as (ev1 & Ht1 & Hlen1 & Hw1 & Hp1).
    apply IH in Hrest as (ev2 & Ht2 & Hw2 & Hp2).
    exists (ev2 ++ ev1). rewrite Ht2, Ht1, app_assoc. split; [done|].
    split; [by apply Forall_app|].
    rewrite reverse_app, written_paths_app, Hp2.
    assert (written_paths (reverse ev1) = written_paths ev1) as ->.
    { destruct ev1 as [|e [|??]]; [done..|]. cbn in Hlen1. lia. }
    rewrite Hp1. destruct (label_suffix export_format); [|done].
    by destruct (decide (is_annotated s)).
Qed.

(** X23. A run of [export_image] that returns has created the export
    folder and then written one image for every sample whose annotations are
    not [None], in dataset order, in the image directory and under the name
    of the sample with the ending of the format; for a format that is none
    of its four it has written nothing.  It ends with a log entry and
    returns the image directory. *)
Theorem export_image_files (dataset : SegmentsDataset)
    (export_folder export_format : string) (id_increment : Z)
    (returned : string) (w w' : world) :
  export_image dataset export_folder export_format id_increment w
  = (Ok returned, w') →
  returned = ds_image_dir dataset
  ∧ ∃ events,
      trace w' = LogInfo ("Exported to " +:+ ds_image_dir dataset)
                   :: events ++ MakeDirs export_folder :: trace w
      ∧ Forall (λ e, ∃ path content, e = WriteFile path content) events
      ∧ written_paths (reverse events)
        = match label_suffix export_format with
          | Some suffix =>
              (λ s, label_path dataset (path_stem (s_name s)) suffix)
                <$> filter is_annotated (ds_samples dataset)
          | None => []
          end.
Proof.
  unfold export_image.
  intros (? & w1 & Hdirs & (? & w2 & Hloop & (? & w3 & Hlog & Hret)%io_bind_ok)
            %io_bind_ok)%io_bind_ok.
  apply io_ret_ok in Hret as [<- <-]. split; [done|].
  apply export_image_loop_files in Hloop as (events & Ht & Hw & Hp).
  unfold emit in Hdirs, Hlog. simplify_eq. cbn [trace] in *.
  exists events. by rewrite Ht.
Qed.

End EmitterContracts.

(** ** The contracts at work *)

Lemma coco_instance_ids_witness :
  ∃ images annotations k w',
    for_samples (coco_instance_sample "segmentation-bitmap") 0
                [example_unlabeled; example_labeled] ([], [], 1) empty_world
    = (Ok (images, annotations, k), w')
    ∧ (∀ p a, annotations !! p = Some a → ca_id a = Z.of_nat p + 1)
    ∧ StronglySorted Z.lt (ci_id <$> images)
    ∧ Forall (λ im, 1 ≤ ci_id im ≤ 2) images.
Proof.
  eexists _, _, _, _. split; [reflexivity|].
  eapply (coco_instance_ids "segmentation-bitmap" [example_unlabeled; example_labeled]
           _ _ _ empty_world _).
  reflexivity.
Defined.

Lemma export_yolo_files_witness :
  ∃ returned w',
    export_yolo (example_dataset "bboxes" [example_unlabeled; example_boxed])
                "out" empty_world
    = (Ok returned, w')
    ∧ returned = "images"
    ∧ ∃ events, trace w' = events ++ []
        ∧ Forall (λ e, is_log e ∨ ∃ path content, e = WriteFile path content) events
        ∧ written_paths (reverse events) = ["images/c.txt"].
Proof.
  eexists _, _. split; [reflexivity|].
  eapply (export_yolo_files
           (example_dataset "bboxes" [example_unlabeled; example_boxed]) "out"
           _ empty_world _).
  reflexivity.
Defined.

Lemma export_dataset_unknown_format_witness :
("pascal-voc" ∉ "yolo" :: bitmap_formats)
  ∧ export_dataset (example_dataset "bboxes" [example_boxed]) "out" "pascal-voc" 1
                   empty_world
    = (Ok NoExport, printed empty_world).
Proof.
  assert ("pascal-voc" ∉ "yolo" :: bitmap_formats) as Hformat.
  { unfold bitmap_formats. set_solver. }
  split; [exact Hformat|].
  apply (export_dataset_unknown_format (example_dataset "bboxes" [example_boxed])
           "out" "pascal-voc" 1 empty_world Hformat).
Defined.

Lemma export_coco_panoptic_short_color_witness :
  export_coco_panoptic example_short_color "out" empty_world
  = (Raise ValidationError, {| trace := [MakeDirs "out"]; random_source := [] |}).
Proof.
  apply (export_coco_panoptic_short_color example_short_color "out" empty_world).
  apply Exists_cons_hd. exists [10; 20]. split; [reflexivity|cbn; lia].
Defined.

Lemma coco_panoptic_background_witness :
  ∃ st' w',
    coco_panoptic_sample (example_dataset "segmentation-bitmap" [example_labeled])
                         0 example_labeled (example_generator, [], []) empty_world
    = (Ok st', w')
    ∧ ∃ (color_of : Z → list Z) (earlier : list event),
        trace w'
        = WriteFile "images/b_label_ground-truth_coco-panoptic.png"
            (Png (Color (map (map color_of) [[0; 1; 1]; [2; 1; 0]]))) :: earlier
        ∧ ∀ v, (∀ a, a ∈ [ mkAnnotation 1 5 "mask" ([] : list (list Q));
                           mkAnnotation 2 7 "mask" [] ] →
                     ann_id a ≠ cast UInt32 v) →
               color_of v = [0; 0; 0].
Proof.
  set (run := coco_panoptic_sample
                (example_dataset "segmentation-bitmap" [example_labeled])
                0 example_labeled (example_generator, [], []) empty_world).
  set (st' := match run.1 with Ok st' => st' | _ => (example_generator, [], []) end).
  exists st', run.2.
  split; [reflexivity|].
  eapply (coco_panoptic_background
           (example_dataset "segmentation-bitmap" [example_labeled]) 0 example_labeled
           _ [[0; 1; 1]; [2; 1; 0]] (example_generator, [], []) st' empty_world run.2).
  - reflexivity.
  - reflexivity.
  - unfold rectangular. repeat constructor.
  - reflexivity.
Defined.

Lemma export_image_files_witness :
  ∃ returned w',
    export_image (example_dataset "segmentation-bitmap"
                    [example_unlabeled; example_labeled]) "out" "semantic" 1
                 empty_world
    = (Ok returned, w')
    ∧ returned = "images"
    ∧ ∃ events,
        trace w' = LogInfo "Exported to images" :: events ++ [MakeDirs "out"]
        ∧ Forall (λ e, ∃ path content, e = WriteFile path content) events
        ∧ written_paths (reverse events)
          = ["images/b_label_ground-truth_semantic.png"].
Proof.
  set (run := export_image
                (example_dataset "segmentation-bitmap"
                   [example_unlabeled; example_labeled]) "out" "semantic" 1
                empty_world).
  exists (match run.1 with Ok returned => returned | _ => "none" end), run.2.
  split; [reflexivity|].
  apply (export_image_files
           (example_dataset "segmentation-bitmap" [example_unlabeled; example_labeled])
           "out" "semantic" 1 _ empty_world run.2).
  reflexivity.
Defined.

(** ** EXIF helper *)

(** X24. [get_key_by_value] returns the key of the first entry that holds
    the value, and raises [ValueError] exactly when no entry holds it. *)
Theorem get_key_by_value_first (items : list (Z * string)) (value : string) :
  (∀ k, get_key_by_value items value = Ok k
        ↔ ∃ before after, items = before ++ (k, value) :: after
                          ∧ ∀ entry, entry ∈ before → entry.2 ≠ value)
  ∧ (get_key_by_value items value
     = Raise (ValueError ("No such value " +:+ value +:+ "."))
     ↔ ∀ entry, entry ∈ items → entry.2 ≠ value).
Proof.
  induction items as [|[k0 v0] items [IHok IHraise]]; cbn [get_key_by_value].
  - split.
    + intros k. split; [done|]. by intros ([|??] & ? & ? & _).
    + split; [by intros _ ? ?%elem_of_nil|done].
  - destruct (decide (v0 = value)) as [->|Hne].
    + split.
      * intros k. split.
        -- intros ?; simplify_eq. exists [], items. split; [done|].
           by intros ? ?%elem_of_nil.
        -- intros ([|[k1 v1] before] & after & Heq & Hbefore); cbn in Heq; simplify_eq.
           ++ done.
           ++ by destruct (Hbefore _ (list_elem_of_here _ _)).
      * split; [done|]. intros Hall.
        by destruct (Hall (k0, value) (list_elem_of_here _ _)).
    + split.
      * intros k. rewrite IHok. split.
        -- intros (before & after & -> & Hbefore).
           exists ((k0, v0) :: before), after. split; [done|].
           intros entry [->|?]%elem_of_cons; [done|by apply Hbefore].
        -- intros ([|[k1 v1] before] & after & Heq & Hbefore); cbn in Heq; simplify_eq.
           exists before, after. split; [done|].
           intros entry Hentry. apply Hbefore. by apply list_elem_of_further.
      * rewrite IHraise. split.
        -- intros Hall entry [->|?]%elem_of_cons; [done|by apply Hall].
        -- intros Hall entry Hentry. apply Hall. by apply list_elem_of_further.
Qed.
